(** * A shallow embedding of the AI code-review extension (src/extension.ts)

    The development covers the two pieces of logic of the extension:
    - the patch engine: [_saveGeneratedCode] (block extraction with the
      regular expression [codeBlockRegex]) and [_handleFileModification]
      (the four whole-line operations on a target file);
    - the conversation driver: [_startCodeGeneration], [_generateAndReview]
      and [_generateResponse];
    and, around them, the way from the input boxes to a run
    ([_getCodeRequest] and the listener that the constructor registers) and
    the texts of the web view.

    What the model takes from the platform:
    - strings are sequences of UTF-16 code units, numbers are integers (the
      rounding of doubles beyond 2^53 is not modelled: what is said on the
      last line of a block that comes from a text is said up to
      [MAX_SAFE_INTEGER]);
    - the functions of the [path] module are parameters;
    - the disk is a map from paths to texts with a set of directories, and
      every call of the [fs] module succeeds;
    - the chat service is a parameter: a function from the number of the
      request and its messages to a reply, which may be a failure;
    - one run is active at a time, and the web view is reduced to the flag
      that says whether it shows the error message; the texts that the panel
      builds for it ([_formatConversation], [_formatCodeBlocks] and
      [_escapeHtml]) are functions of the transcript;
    - the input boxes are parameters: the answers that the user gives, or
      nothing for a box that is dismissed; the listener of the panel and the
      listener of the script of the web view are functions of a message.

    The three copies of the source differ only in the wording of the prompts;
    the prompt builders are parameters of the model, so every result holds for
    each copy. *)

From Stdlib Require Import ZArith Ascii String DecimalString.
From stdpp Require Import base gmap list.

Open Scope Z_scope.

(** ** JavaScript strings

    A JavaScript string is a sequence of UTF-16 code units. *)

Abbreviation char := N (only parsing).
Abbreviation text := (list N) (only parsing).

(** A string literal of the source, as a sequence of code units. *)
Definition js (s : string) : text :=
  map N_of_ascii (list_ascii_of_string s).

(** ECMAScript [WhiteSpace] and [LineTerminator] code points: the characters
    matched by the class [\s] and removed by [String.prototype.trim]. *)
Definition is_space (c : char) : bool :=
  match c with
  | 9 | 10 | 11 | 12 | 13 | 32 | 160 | 5760
  | 8192 | 8193 | 8194 | 8195 | 8196 | 8197 | 8198 | 8199 | 8200 | 8201 | 8202
  | 8232 | 8233 | 8239 | 8287 | 12288 | 65279 => true
  | _ => false
  end%N.

(** The class [\d]. *)
Definition is_digit (c : char) : bool := (48 <=? c)%N && (c <=? 57)%N.

Definition char_in (l : text) (c : char) : bool :=
  existsb (N.eqb c) l.

Fixpoint skip_while (p : char -> bool) (s : text) : text :=
  match s with
  | c :: s' => if p c then skip_while p s' else s
  | [] => []
  end.

Fixpoint take_while (p : char -> bool) (s : text) : text :=
  match s with
  | c :: s' => if p c then c :: take_while p s' else []
  | [] => []
  end.

(** [s.trimStart()], [s.trimEnd()] and [s.trim()]. *)
Definition trimStart (s : text) : text := skip_while is_space s.
Definition trimEnd (s : text) : text := reverse (skip_while is_space (reverse s)).
Definition trim (s : text) : text := trimEnd (trimStart s).

Definition LF : char := 10%N.

(** [s.split('\n')]: the empty string splits into one empty line. *)
Fixpoint split_nl (s : text) : list text :=
  match s with
  | [] => [[]]
  | c :: s' =>
      if N.eqb c LF then [] :: split_nl s'
      else match split_nl s' with
           | l :: ls => (c :: l) :: ls
           | [] => [[c]]
           end
  end.

(** [lines.join('\n')]. *)
Fixpoint join_nl (ls : list text) : text :=
  match ls with
  | [] => []
  | [l] => l
  | l :: ls' => l ++ LF :: join_nl ls'
  end.

(** The number of the lines of a text, counted on the text itself: one more
    than its line feeds. *)
Definition lineCount (t : text) : nat := S (count_occ N.eq_dec t LF).

(** The text of lines that end with a line feed each. *)
Definition terminated (ls : list text) : text :=
  concat (map (fun l => l ++ [LF]) ls).

(** Truthiness of a string: only the empty string is falsy. *)
Definition truthy (s : text) : bool :=
  match s with [] => false | _ => true end.

(** [Array.prototype.splice(start, deleteCount, ...items)] on the array [l],
    with the clamping of the language: a negative [start] counts from the end,
    a [start] beyond the length is the length, and [deleteCount] is clamped to
    what is left.  The result is the array after the call. *)
Definition splice {A} (l : list A) (start deleteCount : Z) (items : list A)
  : list A :=
  let len := Z.of_nat (length l) in
  let actualStart :=
    if start <? 0 then Z.max (len + start) 0 else Z.min start len in
  let actualDeleteCount := Z.min (Z.max deleteCount 0) (len - actualStart) in
  take (Z.to_nat actualStart) l ++ items
    ++ drop (Z.to_nat (actualStart + actualDeleteCount)) l.

(** Value of a digit in a radix, if it is one. *)
Definition digit_value (radix : Z) (c : char) : option Z :=
  let v :=
    if (48 <=? c)%N && (c <=? 57)%N then Some (Z.of_N c - 48)
    else if (97 <=? c)%N && (c <=? 122)%N then Some (Z.of_N c - 87)
    else if (65 <=? c)%N && (c <=? 90)%N then Some (Z.of_N c - 55)
    else None in
  match v with
  | Some d => if d <? radix then Some d else None
  | None => None
  end.

(** The longest prefix of digits, read as a number; [None] when it is empty. *)
Fixpoint read_digits (radix : Z) (acc : option Z) (s : text) : option Z :=
  match s with
  | c :: s' =>
      match digit_value radix c with
      | Some d =>
          read_digits radix
            (Some (radix * match acc with Some a => a | None => 0 end + d)) s'
      | None => acc
      end
  | [] => acc
  end.

(** [parseInt(s)] without a radix: leading white space is skipped, a sign is
    read, a [0x] prefix selects radix 16, and the longest digit prefix is the
    value.  [None] stands for [NaN].  The value is the mathematical integer:
    the rounding of numbers beyond 2^53 to a double is not modelled. *)
Definition parseInt (s : text) : option Z :=
  let s1 := trimStart s in
  let '(sign, s2) :=
    match s1 with
    | 45%N :: r => (-1, r)
    | 43%N :: r => (1, r)
    | _ => (1, s1)
    end in
  let v :=
    match s2 with
    | 48%N :: (120%N | 88%N) :: r => read_digits 16 None r
    | _ => read_digits 10 None s2
    end in
  option_map (Z.mul sign) v.

(** ** Regular expressions

    The fragment of the regular expressions of the language that
    [codeBlockRegex] uses: literal characters, a quantified character class
    (greedy [*] and [+], lazy [*?]), capturing groups and concatenation.  The
    matcher is the backtracking matcher of the language, in continuation
    passing style: a greedy quantifier tries the longest repetition first, a
    lazy one the shortest, and the first alternative whose continuation
    succeeds wins. *)

Inductive cls :=
| ClsSpace                  (* \s *)
| ClsDigit                  (* \d *)
| ClsNoneOf (l : text)      (* [^...] *)
| ClsAll.                   (* [\s\S] *)

Definition cls_test (c : cls) (x : char) : bool :=
  match c with
  | ClsSpace => is_space x
  | ClsDigit => is_digit x
  | ClsNoneOf l => negb (char_in l x)
  | ClsAll => is_space x || negb (is_space x)
  end.

Inductive quant := Star | Plus | LazyStar.

Inductive regex :=
| Chars (l : text)
| Rep (q : quant) (c : cls)
| Group (r : regex)
| Cat (r1 r2 : regex).

Fixpoint strip_prefix (l s : text) : option text :=
  match l, s with
  | [], _ => Some s
  | a :: l', b :: s' => if N.eqb a b then strip_prefix l' s' else None
  | _ :: _, [] => None
  end.

Section Matcher.
Context {R : Type}.

Fixpoint greedy (p : char -> bool) (s : text) (k : text -> option R)
  : option R :=
  match s with
  | c :: s' =>
      if p c then
        match greedy p s' k with
        | Some r => Some r
        | None => k s
        end
      else k s
  | [] => k s
  end.

Fixpoint lazy (p : char -> bool) (s : text) (k : text -> option R)
  : option R :=
  match k s with
  | Some r => Some r
  | None =>
      match s with
      | c :: s' => if p c then lazy p s' k else None
      | [] => None
      end
  end.

(** [run r s caps k]: match [r] at the start of [s]; [caps] are the groups
    captured so far, in the order of their closing parentheses (the order
    of their numbers when no group is nested, as here). *)
Fixpoint run (r : regex) (s : text) (caps : list text)
    (k : text -> list text -> option R) : option R :=
  match r with
  | Chars l =>
      match strip_prefix l s with
      | Some s' => k s' caps
      | None => None
      end
  | Rep Star c => greedy (cls_test c) s (fun s' => k s' caps)
  | Rep Plus c =>
      match s with
      | x :: s' =>
          if cls_test c x then greedy (cls_test c) s' (fun s'' => k s'' caps)
          else None
      | [] => None
      end
  | Rep LazyStar c => lazy (cls_test c) s (fun s' => k s' caps)
  | Group r1 =>
      run r1 s caps
        (fun s' caps' => k s' (caps' ++ [take (length s - length s') s]))
  | Cat r1 r2 => run r1 s caps (fun s' caps' => run r2 s' caps' k)
  end.
End Matcher.

(** The result of a successful match: the captured groups and the text after
    the match (where [lastIndex] points). *)
Definition match_at (r : regex) (s : text) : option (list text * text) :=
  run r s [] (fun s' caps => Some (caps, s')).

(** [r.exec(content)] for a global expression, on the text from [lastIndex]
    on: the leftmost position where the expression matches. *)
Fixpoint exec (r : regex) (s : text) : option (list text * text) :=
  match match_at r s with
  | Some m => Some m
  | None =>
      match s with
      | [] => None
      | _ :: s' => exec r s'
      end
  end.

Fixpoint cat (rs : list regex) : regex :=
  match rs with
  | [] => Chars []
  | [r] => r
  | r :: rs' => Cat r (cat rs')
  end.

Definition DASH : char := 45%N.

(** The delimiter: fifty dashes. *)
Definition delimiter : text := replicate 50 DASH.

Definition QUOTE : char := 34%N.

(** [quoted s] is the text [s] between double quotes. *)
Definition quoted (s : string) : text := QUOTE :: js s ++ [QUOTE].

(** The literal pieces of the expression. *)
Definition OPEN : text := js "{".
Definition CLOSE : text := js "}".
Definition COMMA : text := js ",".
Definition Q : text := [QUOTE].
Definition QCOMMA : text := QUOTE :: js ",".
Definition KEY_FILE : text := quoted "file" ++ js ":".
Definition KEY_BLOCKID : text := quoted "blockId" ++ js ":".
Definition KEY_STARTLINE : text := quoted "startLine" ++ js ":".
Definition KEY_OPERATION : text := quoted "operation" ++ js ":".

(** The expression of [_saveGeneratedCode], piece by piece: the delimiter,
    white space, an opening brace, the four keys [file], [blockId],
    [startLine] and [operation] in this order, each between double quotes and
    followed by a colon, the values of [file], [blockId] and [operation] as
    groups of one or more characters other than a double quote between double
    quotes, the value of [startLine] as a group of one or more digits, commas
    after the first three values, a closing brace, white space, a lazy group
    of any characters, and the delimiter.  White space is allowed where the
    source writes [\s*]. *)
Definition codeBlockRegex : regex :=
  cat [ Chars delimiter; Rep Star ClsSpace;
        Chars OPEN; Rep Star ClsSpace;
        Chars KEY_FILE; Rep Star ClsSpace;
        Chars Q; Group (Rep Plus (ClsNoneOf [QUOTE])); Chars QCOMMA;
        Rep Star ClsSpace;
        Chars KEY_BLOCKID; Rep Star ClsSpace;
        Chars Q; Group (Rep Plus (ClsNoneOf [QUOTE])); Chars QCOMMA;
        Rep Star ClsSpace;
        Chars KEY_STARTLINE; Rep Star ClsSpace;
        Group (Rep Plus ClsDigit); Chars COMMA;
        Rep Star ClsSpace;
        Chars KEY_OPERATION; Rep Star ClsSpace;
        Chars Q; Group (Rep Plus (ClsNoneOf [QUOTE])); Chars Q;
        Rep Star ClsSpace;
        Chars CLOSE; Rep Star ClsSpace;
        Group (Rep LazyStar ClsAll);
        Chars delimiter ].

(** ** Block text

    The text of a block as the prompt of the generator describes it: a
    delimiter, the four keys in a brace, the content, a delimiter.  [gap] is
    the white space between the pieces of the header; [body] is what stands
    between the closing brace and the closing delimiter. *)

Record BlockText := mkBlockText {
  gap : nat -> text;
  file_text : text;
  blockId_text : text;
  startLine_text : text;
  operation_text : text;
  body : text
}.

(** What stands between the two delimiters. *)
Definition inner_text (b : BlockText) : text :=
  gap b 0 ++ OPEN ++ gap b 1 ++ KEY_FILE ++ gap b 2 ++ Q ++ file_text b ++ QCOMMA
    ++ gap b 3 ++ KEY_BLOCKID ++ gap b 4 ++ Q ++ blockId_text b ++ QCOMMA
    ++ gap b 5 ++ KEY_STARTLINE ++ gap b 6 ++ startLine_text b ++ COMMA
    ++ gap b 7 ++ KEY_OPERATION ++ gap b 8 ++ Q ++ operation_text b ++ Q
    ++ gap b 9 ++ CLOSE ++ body b.

Definition render_block (b : BlockText) : text :=
  delimiter ++ inner_text b ++ delimiter.

(** Whether a delimiter occurs in a text. *)
Fixpoint has_delimiter (s : text) : bool :=
  match strip_prefix delimiter s with
  | Some _ => true
  | None =>
      match s with
      | [] => false
      | _ :: s' => has_delimiter s'
      end
  end.

(** The text before the first delimiter and the text after it. *)
Fixpoint find_delimiter (s : text) : option (text * text) :=
  match strip_prefix delimiter s with
  | Some r => Some ([], r)
  | None =>
      match s with
      | [] => None
      | c :: s' =>
          match find_delimiter s' with
          | Some (u, r) => Some (c :: u, r)
          | None => None
          end
      end
  end.

(** A literal that starts with a character that is no white space. *)
Definition starts_visible (l : text) : bool :=
  match l with
  | x :: _ => negb (is_space x)
  | [] => false
  end.

(** A literal that starts with a character outside of a class. *)
Definition starts_outside (c : cls) (l : text) : bool :=
  match l with
  | x :: _ => negb (cls_test c x)
  | [] => false
  end.

(** A text that holds no delimiter and cannot complete one: it does not end
    with a dash (a text that ends with a line feed, for one). *)
Definition clean (t : text) : Prop :=
  has_delimiter t = false /\ last t <> Some DASH.

Definition spaces (t : text) : Prop := Forall (fun c => is_space c = true) t.
Definition digits (t : text) : Prop := Forall (fun c => is_digit c = true) t.
Definition unquoted (t : text) : Prop := t <> [] /\ QUOTE ∉ t.


(** A well-formed block: white space in the gaps, values without a double
    quote and not empty, decimal digits for [startLine], and a body that
    holds no delimiter. *)
Definition well_formed (b : BlockText) : Prop :=
  (forall i, spaces (gap b i))
  /\ unquoted (file_text b) /\ unquoted (blockId_text b)
  /\ unquoted (operation_text b)
  /\ startLine_text b <> [] /\ digits (startLine_text b)
  /\ clean (body b).

(** A block whose [startLine] is not a number: it is empty, or starts with a
    character that is no digit (a sign, a letter, a quote). *)
Definition not_a_number (t : text) : Prop :=
  match t with
  | [] => True
  | c :: _ => is_digit c = false /\ is_space c = false
  end.

Definition malformed (b : BlockText) : Prop :=
  (forall i, spaces (gap b i))
  /\ unquoted (file_text b) /\ unquoted (blockId_text b)
  /\ not_a_number (startLine_text b)
  /\ clean (inner_text b).

(** What may follow the closing delimiter of a malformed block: the end of the
    text, or a character that is no dash (a line feed, for one), and no
    opening brace as the next character that is no white space. *)
Definition after_malformed (r : text) : Prop :=
  match r with
  | [] => True
  | c :: _ => c <> DASH
  end
  /\ match skip_while is_space r with
     | [] => True
     | c :: _ => [c] <> OPEN
     end.

(** A generated text: prose, well-formed blocks and malformed blocks. *)
Inductive segment :=
| Prose (t : text)
| Block (b : BlockText)
| Malformed (b : BlockText).

Definition render_segment (s : segment) : text :=
  match s with
  | Prose t => t
  | Block b => render_block b
  | Malformed b => render_block b
  end.

Fixpoint render (segs : list segment) : text :=
  match segs with
  | [] => []
  | s :: segs' => render_segment s ++ render segs'
  end.

Fixpoint well_formed_text (segs : list segment) : Prop :=
  match segs with
  | [] => True
  | Prose t :: segs' => clean t /\ well_formed_text segs'
  | Block b :: segs' => well_formed b /\ well_formed_text segs'
  | Malformed b :: segs' =>
      malformed b /\ after_malformed (render segs') /\ well_formed_text segs'
  end.

(** The well-formed blocks of a text, in order. *)
Fixpoint blocks_of (segs : list segment) : list BlockText :=
  match segs with
  | [] => []
  | Block b :: segs' => b :: blocks_of segs'
  | _ :: segs' => blocks_of segs'
  end.

(** The groups that a match of a block captures. *)
Definition groups_of (b : BlockText) : list text :=
  [file_text b; blockId_text b; startLine_text b; operation_text b;
   skip_while is_space (body b)].

(** The value of a text of decimal digits. *)
Definition decimal (t : text) : Z :=
  fold_left (fun acc c => 10 * acc + (Z.of_N c - 48)) t 0.

(** [Number.MAX_SAFE_INTEGER].  The numbers of the language are doubles: up
    to this bound they are the integers and their sums are exact, beyond it
    they are rounded.  The model computes with integers, so that it stands for
    the code on numbers up to this bound. *)
Definition MAX_SAFE_INTEGER : Z := 2 ^ 53 - 1.


Definition SLASH : char := 47%N.
Definition DOT : char := 46%N.

(** ** Data of the extension *)

Module CodeBlock.
Record t := mk {
  id : text;
  filePath : text;
  startLine : Z;
  endLine : Z;
  content : text;
  type : text
}.
End CodeBlock.

Module FileModification.
Record t := mk {
  filePath : text;
  blocks : list CodeBlock.t;
  operation : text   (* a string cast to the four operation names *)
}.
End FileModification.

Inductive Role := system | user | assistant.

Module Message.
Record t := mk { role : Role; content : text }.
End Message.

(** ** The file system

    Files are texts found by path; directories are a set of paths.  Every call
    of the [fs] module succeeds in the model: there are no permissions and no
    full disk, a file path names a file or nothing, and a directory path names
    a directory or nothing.  Texts survive the UTF-8 encoding of the disk. *)

Record FS := mkFS {
  files : gmap (list N) (list N);
  dirs : gset (list N)
}.

(** [fs.existsSync(p)] for a path used as a file, and as a directory. *)
Definition fileExists (fs : FS) (p : text) : bool :=
  bool_decide (is_Some (files fs !! p)).
Definition dirExists (fs : FS) (p : text) : bool :=
  bool_decide (p ∈ dirs fs).

(** [fs.readFileSync(p, 'utf-8')] of an existing file. *)
Definition readFileSync (fs : FS) (p : text) : text :=
  default [] (files fs !! p).

(** [fs.writeFileSync(p, data)]. *)
Definition writeFileSync (fs : FS) (p data : text) : FS :=
  mkFS (<[p := data]> (files fs)) (dirs fs).

(** [fs.appendFileSync(p, data)]: the file is created when it is missing. *)
Definition appendFileSync (fs : FS) (p data : text) : FS :=
  mkFS (<[p := readFileSync fs p ++ data]> (files fs)) (dirs fs).

(** The request sent to the chat service by one call, with the flag
    [isGenerator] of the caller: the record of the calls of a run. *)
Record Request := mkRequest {
  isGenerator : bool;
  messages : list Message.t
}.

(** What a call of the chat service gives: a failure (the promise is
    rejected), or a completion whose content may be missing. *)
Inductive Reply :=
| Rejected
| Completion (content : option (list N)).

(** The panel with the world it acts on: the fields of [AIConversationPanel]
    that the logic uses, the disk, the requests sent so far, and whether the
    web view shows the error message of [_startCodeGeneration] (the rest of
    the web view is not modelled). *)
Record State := mkState {
  _conversationHistory : list Message.t;
  _currentIteration : Z;
  _maxIterations : Z;
  _outputPath : list N;
  _codeBlocks : gmap (list N) CodeBlock.t;
  disk : FS;
  requests : list Request;
  errorShown : bool
}.

Definition with_history (h : list Message.t) (st : State) : State :=
  mkState h (_currentIteration st) (_maxIterations st) (_outputPath st)
    (_codeBlocks st) (disk st) (requests st) (errorShown st).
Definition with_iteration (i : Z) (st : State) : State :=
  mkState (_conversationHistory st) i (_maxIterations st) (_outputPath st)
    (_codeBlocks st) (disk st) (requests st) (errorShown st).
Definition with_codeBlocks (m : gmap (list N) CodeBlock.t) (st : State) : State :=
  mkState (_conversationHistory st) (_currentIteration st) (_maxIterations st)
    (_outputPath st) m (disk st) (requests st) (errorShown st).
Definition with_disk (d : FS) (st : State) : State :=
  mkState (_conversationHistory st) (_currentIteration st) (_maxIterations st)
    (_outputPath st) (_codeBlocks st) d (requests st) (errorShown st).
Definition with_requests (r : list Request) (st : State) : State :=
  mkState (_conversationHistory st) (_currentIteration st) (_maxIterations st)
    (_outputPath st) (_codeBlocks st) (disk st) r (errorShown st).
Definition with_error (b : bool) (st : State) : State :=
  mkState (_conversationHistory st) (_currentIteration st) (_maxIterations st)
    (_outputPath st) (_codeBlocks st) (disk st) (requests st) b.

(** How a run ends. *)
Inductive Outcome := Finished | Threw | OutOfFuel.

(** A simple instance of the functions of the [path] module, for examples: it
    agrees with the POSIX functions on normalised relative names. *)
Definition simple_join (a b : text) : text := a ++ SLASH :: b.
Definition simple_dirname (p : text) : text :=
  match skip_while (fun c => negb (N.eqb c SLASH)) (reverse p) with
  | [] => [DOT]
  | _ :: r => reverse r
  end.
Definition simple_extname (p : text) : text :=
  let e := take_while (fun c => negb (N.eqb c DOT) && negb (N.eqb c SLASH))
             (reverse p) in
  match reverse p !! length e, reverse p !! S (length e) with
  | Some d, Some c =>
      if N.eqb d DOT && negb (N.eqb c SLASH) then DOT :: reverse e else []
  | _, _ => []
  end.

(** The text of pieces, each of them some text followed by a block: what the
    loop of [_saveGeneratedCode] goes through. *)
Definition pieces_text (pieces : list (text * BlockText)) : text :=
  flat_map (fun p => fst p ++ render_block (snd p)) pieces.

(** ** The texts of the web view

    The functions that turn the transcript into the text shown by the web
    view: [_escapeHtml], [_formatCodeBlocks] and [_formatConversation]. *)

Definition AMP : char := 38%N.
Definition LT : char := 60%N.
Definition GT : char := 62%N.
Definition APOS : char := 39%N.
Definition BACKTICK : char := 96%N.
Definition SPACE : char := 32%N.

(** [s.replace(/c/g, r)] for an expression of one character [c] and a
    replacement [r] that holds no dollar sign: every occurrence of the
    character is replaced, from left to right. *)
Definition replace_char (c : char) (r : text) (s : text) : text :=
  flat_map (fun x => if N.eqb x c then r else [x]) s.

Definition _escapeHtml (unsafe : text) : text :=
  replace_char APOS (js "&#039;")
    (replace_char QUOTE (js "&quot;")
       (replace_char GT (js "&gt;")
          (replace_char LT (js "&lt;")
             (replace_char AMP (js "&amp;") unsafe)))).

(** What [_escapeHtml] makes of one character. *)
Definition escape_char (x : char) : text :=
  if N.eqb x AMP then js "&amp;"
  else if N.eqb x LT then js "&lt;"
  else if N.eqb x GT then js "&gt;"
  else if N.eqb x QUOTE then js "&quot;"
  else if N.eqb x APOS then js "&#039;"
  else [x].

(** The characters that [_escapeHtml] replaces. *)
Definition special (x : char) : bool :=
  char_in [AMP; LT; GT; QUOTE; APOS] x.

(** The class [\w]. *)
Definition is_word (c : char) : bool :=
  ((97 <=? c) && (c <=? 122) || (65 <=? c) && (c <=? 90) || is_digit c
   || (c =? 95))%N.

(** The expression of [_formatCodeBlocks] uses two constructs more than
    [codeBlockRegex]: the class [\w], and an optional group.  A pattern has
    any predicate as a class, and the greedy option [r?]; a group that takes
    no part in a match is [undefined], which is [None] among the captures. *)
Inductive pattern :=
| PChars (l : text)
| PRep (q : quant) (p : char -> bool)
| PGroup (r : pattern)
| POpt (r : pattern)
| PCat (r1 r2 : pattern).

(** The number of the groups of a pattern. *)
Fixpoint groups (r : pattern) : nat :=
  match r with
  | PChars _ | PRep _ _ => 0
  | PGroup r1 => S (groups r1)
  | POpt r1 => groups r1
  | PCat r1 r2 => groups r1 + groups r2
  end.

(** The matcher of [run], with the option: the pattern is tried first, and
    left out when the rest of the match fails with it. *)
Fixpoint prun {R} (r : pattern) (s : text) (caps : list (option text))
    (k : text -> list (option text) -> option R) : option R :=
  match r with
  | PChars l =>
      match strip_prefix l s with
      | Some s' => k s' caps
      | None => None
      end
  | PRep Star p => greedy p s (fun s' => k s' caps)
  | PRep Plus p =>
      match s with
      | x :: s' =>
          if p x then greedy p s' (fun s'' => k s'' caps) else None
      | [] => None
      end
  | PRep LazyStar p => lazy p s (fun s' => k s' caps)
  | PGroup r1 =>
      prun r1 s caps
        (fun s' caps' => k s' (caps' ++ [Some (take (length s - length s') s)]))
  | POpt r1 =>
      match prun r1 s caps k with
      | Some res => Some res
      | None => k s (caps ++ replicate (groups r1) None)
      end
  | PCat r1 r2 => prun r1 s caps (fun s' caps' => prun r2 s' caps' k)
  end.

(** The leftmost match of a pattern: the text before the match, the groups,
    and the text after the match. *)
Fixpoint pexec (r : pattern) (s : text)
  : option (text * list (option text) * text) :=
  match prun r s [] (fun s' caps => Some (caps, s')) with
  | Some (caps, rest) => Some ([], caps, rest)
  | None =>
      match s with
      | [] => None
      | c :: s' =>
          match pexec r s' with
          | Some (pre, caps, rest) => Some (c :: pre, caps, rest)
          | None => None
          end
      end
  end.

(** [s.replace(r, f)] for a global pattern [r] that matches no empty text and
    a function [f] of the groups: the matches are found from left to right,
    each one after the end of the one before, and the text between them is
    kept. *)
Fixpoint replace_matches (fuel : nat) (r : pattern)
    (f : list (option text) -> text) (s : text) : text :=
  match fuel with
  | O => s
  | S fuel' =>
      match pexec r s with
      | None => s
      | Some (pre, caps, rest) =>
          pre ++ f caps ++ replace_matches fuel' r f rest
      end
  end.

(** Three backticks. *)
Definition FENCE : text := replicate 3 BACKTICK.

(** The expression of [_formatCodeBlocks]: a fence, an optional group of word
    characters, a line feed, a lazy group of any characters, and a fence. *)
Definition fenceRegex : pattern :=
  PCat (PChars FENCE)
    (PCat (POpt (PGroup (PRep Plus is_word)))
       (PCat (PChars [LF])
          (PCat (PGroup (PRep LazyStar (cls_test ClsAll))) (PChars FENCE)))).

(** The template of [_formatCodeBlocks], with its line feeds and its
    indentation; [lang] is the first group, or [None] when it is
    [undefined]. *)
Definition codeBlockHtml (lang : option text) (code : text) : text :=
  concat
    [ [LF]; replicate 12 SPACE; js "<pre class="; [QUOTE]; js "code-block ";
      match lang with
      | Some l => if truthy l then l else []
      | None => []
      end;
      [QUOTE]; js ">";
      [LF]; replicate 16 SPACE; js "<code>"; _escapeHtml code; js "</code>";
      [LF]; replicate 12 SPACE; js "</pre>";
      [LF]; replicate 8 SPACE ].

(** The function that [_formatCodeBlocks] hands to [replace], on the groups
    of a match. *)
Definition fenceReplacer (caps : list (option text)) : text :=
  match caps with
  | [lang; Some code] => codeBlockHtml lang code
  | _ => []
  end.

Definition _formatCodeBlocks (content : text) : text :=
  replace_matches (S (length content)) fenceRegex fenceReplacer content.

(** Whether a fence occurs in a text. *)
Fixpoint has_fence (s : text) : bool :=
  match strip_prefix FENCE s with
  | Some _ => true
  | None =>
      match s with
      | [] => false
      | _ :: s' => has_fence s'
      end
  end.

(** A text that holds no fence and cannot complete one: it does not end with
    a backtick. *)
Definition fence_clean (t : text) : Prop :=
  has_fence t = false /\ last t <> Some BACKTICK.

(** A number in a template: the decimal digits of an integer, with its
    sign. *)
Definition toString (n : Z) : text :=
  js (NilZero.string_of_int (Z.to_int n)).

Definition role_name (r : Role) : text :=
  match r with
  | system => js "system"
  | user => js "user"
  | assistant => js "assistant"
  end.

(** The label of an entry of the transcript in [_formatConversation]. *)
Definition speaker (currentIteration : Z) (index : nat) (msg : Message.t)
  : text :=
  match Message.role msg with
  | user => js "User"
  | _ =>
      concat
        [ js "AI "; toString (currentIteration + 1); js " - ";
          if (index mod 4 =? 2)%nat then js "Generator" else js "Reviewer" ]
  end.

(** The element of one entry, around its label and its content. *)
Definition entryHtml (msg : Message.t) (label : text) : text :=
  concat
    [ js "<div class="; [QUOTE]; role_name (Message.role msg); js "-message";
      [QUOTE]; js ">";
      [LF]; replicate 20 SPACE; js "<strong>"; label; js ":</strong> ";
      _formatCodeBlocks (Message.content msg);
      [LF]; replicate 16 SPACE; js "</div>" ].

Definition _formatConversation (st : State) : text :=
  join_nl
    (imap (fun index msg =>
             entryHtml msg (speaker (_currentIteration st) index msg))
       (_conversationHistory st)).

(** ** The messages between the panel and the web view *)

(** A number of the language: an integer, or [NaN] ([None]); [NaN] and 0 are
    falsy. *)
Definition truthy_number (n : option Z) : bool :=
  match n with
  | Some n => negb (n =? 0)
  | None => false
  end.

(** A message: its command, and the fields [codeRequest] and [iterations],
    which may be missing. *)
Module WebviewMessage.
Record t := mk {
  command : text;
  codeRequest : option text;
  iterations : option (option Z)
}.
End WebviewMessage.

Definition with_maxIterations (n : Z) (st : State) : State :=
  mkState (_conversationHistory st) (_currentIteration st) n (_outputPath st)
    (_codeBlocks st) (disk st) (requests st) (errorShown st).


(** [_getCodeRequest], on the answers of the two input boxes ([None] for a
    box that is dismissed): the message posted to the web view, if any. *)
Definition _getCodeRequest (codeRequest iterations : option text)
  : option WebviewMessage.t :=
  match codeRequest, iterations with
  | Some c, Some i =>
      if truthy c && truthy i
      then Some (WebviewMessage.mk (js "continueConversation") (Some c)
                   (Some (parseInt i)))
      else None
  | _, _ => None
  end.

(** The listener of the script of the web view: a [continueConversation]
    message with a request and a number of iterations is sent back to the
    panel. *)
Definition webviewListener (message : WebviewMessage.t)
  : option WebviewMessage.t :=
  if decide (WebviewMessage.command message = js "continueConversation") then
    match WebviewMessage.codeRequest message, WebviewMessage.iterations message with
    | Some c, Some n =>
        if truthy c && truthy_number n
        then Some (WebviewMessage.mk (js "continueConversation") (Some c) (Some n))
        else None
    | _, _ => None
    end
  else None.

(** ** Sample inputs *)

Definition sample_out : text := js "out".
Definition sample_path : text := js "out/a.txt".
(** The disk once the panel is built: the output directory is there, and no
    file. *)
Definition fresh_disk : FS := mkFS ∅ {[ [DOT]; sample_out ]}.

(** A disk with one file in the output directory. *)
Definition sample_fs (content : text) : FS :=
  mkFS {[ sample_path := content ]} {[ [DOT]; sample_out ]}.

(** The ten lines [0] to [9], and the three lines [a], [b] and [c]. *)
Definition ten_lines : text :=
  join_nl (map (fun i => [(48 + N.of_nat i)%N]) (seq 0 10)).
Definition abc_lines : text := join_nl [js "a"; js "b"; js "c"].

(** The same files written out, character by character: the two lines [a]
    and [b], and the ten lines [0] to [9]. *)
Definition ab_text : text := [97; 10; 98]%N.
Definition ten_text : text :=
  [48; 10; 49; 10; 50; 10; 51; 10; 52; 10; 53; 10; 54; 10; 55; 10; 56; 10;
   57]%N.

Definition sample_block (startLine endLine : Z) (content : text) : CodeBlock.t :=
  CodeBlock.mk (js "b1") sample_path startLine endLine content (js "txt").

Definition sample_state (maxIterations : Z) : State :=
  mkState [] 0 maxIterations sample_out ∅ fresh_disk [] false.

Definition sample_chat (n : nat) (msgs : list Message.t) : Reply :=
  Completion (Some (js "ok")).

(** A service that fails, and a service that answers the first request and
    fails afterwards. *)
Definition failing_chat (n : nat) (msgs : list Message.t) : Reply := Rejected.
Definition flaky_chat (n : nat) (msgs : list Message.t) : Reply :=
  match n with
  | O => Completion (Some (js "ok"))
  | S _ => Rejected
  end.

(** A block text with a line feed in every gap. *)
Definition sample_text (file blockId startLine operation content : string)
  : BlockText :=
  mkBlockText (fun _ => [LF]) (js file) (js blockId) (js startLine)
    (js operation) (LF :: js content ++ [LF]).

Definition sample_segments : list segment :=
  [ Prose (js "Here is the code." ++ [LF]);
    Block (sample_text "a.txt" "b1" "1" "append" "hello");
    Prose [LF];
    Malformed (sample_text "a.txt" "b2" "-1" "append" "never");
    Prose [LF];
    Block (sample_text "a.txt" "b3" "1" "insert" "first") ].

(** A text with a block of two lines, in a file of the output directory, and
    a block of one line, in a file of a directory below it. *)
Definition sample_lines_segments : list segment :=
  [ Prose (js "Two changes." ++ [LF]);
    Block (mkBlockText (fun _ => [LF]) (js "a.txt") (js "b1") (js "3")
             (js "modify") (LF :: js "one" ++ LF :: js "  two  " ++ [LF; LF]));
    Prose [LF];
    Malformed (sample_text "a.txt" "b2" "-1" "append" "never");
    Prose [LF];
    Block (sample_text "src/b.ts" "b3" "12" "insert" "first") ].

(** The service that answers every request with the sample text. *)
Definition blocks_chat (n : nat) (msgs : list Message.t) : Reply :=
  Completion (Some (render sample_segments)).

(** A panel in the second round, with the transcript of the first round. *)
Definition sample_transcript : State :=
  mkState
    [ Message.mk user (js "request"); Message.mk assistant (js "code");
      Message.mk user []; Message.mk assistant (js "review") ]
    1 3 sample_out ∅ fresh_disk [] false.

Section Extension.

(** The functions of the [path] module of the platform. *)
Variable path_join : text -> text -> text.
Variable path_dirname : text -> text.
Variable path_extname : text -> text.

(** The chat service: the reply to a request, given the number of the requests
    that the panel has sent before it, and its messages. *)
Variable chat : nat -> list Message.t -> Reply.

(** The wording of the prompts, which differs between the copies of the
    source: the first prompt of [_startCodeGeneration] from the request, the
    instruction of the later rounds, the system prompt of the generator around
    its instruction, the prompt of the reviewer around the generated text, and
    the next request from the generated text and its review. *)
Variable generatorPrompt : text -> text.
Variable improveInstruction : text.
Variable generatorSystemPrompt : text -> text.
Variable reviewPrompt : text -> text.
Variable nextRequest : text -> text -> text.

(** *** The patch engine *)

(** [fs.mkdirSync(d, { recursive: true })]: the directory and its missing
    parents, found by [path.dirname] up to the root. *)
Fixpoint dir_chain (fuel : nat) (d : text) : list text :=
  match fuel with
  | O => []
  | S fuel' =>
      d :: (if decide (path_dirname d = d) then []
            else dir_chain fuel' (path_dirname d))
  end.

Definition mkdirSync (fs : FS) (d : text) : FS :=
  mkFS (files fs) (list_to_set (dir_chain (S (length d)) d) ∪ dirs fs).

(** The start of [_handleFileModification]: the directory of the target is
    created when it does not exist. *)
Definition ensureDirectory (fs : FS) (filePath : text) : FS :=
  let directory := path_dirname filePath in
  if negb (dirExists fs directory) then mkdirSync fs directory else fs.

(** One turn of the loop over the blocks in [_handleFileModification]: the
    [switch] on the operation.  [existingLines] is the array shared by the
    turns, [existingContent] the text read before the loop. *)
Definition applyBlock (operation filePath existingContent : text)
    (acc : FS * list text) (block : CodeBlock.t) : FS * list text :=
  let '(fs, existingLines) := acc in
  if decide (operation = js "append") then
    if negb (truthy existingContent)
    then (writeFileSync fs filePath (CodeBlock.content block), existingLines)
    else (appendFileSync fs filePath (LF :: CodeBlock.content block), existingLines)
  else if decide (operation = js "modify") then
    if (CodeBlock.startLine block >? 0)
       && (CodeBlock.endLine block <=? Z.of_nat (length existingLines))
    then
      let lines := splice existingLines (CodeBlock.startLine block - 1)
                     (CodeBlock.endLine block - CodeBlock.startLine block + 1)
                     [CodeBlock.content block] in
      (writeFileSync fs filePath (join_nl lines), lines)
    else acc
  else if decide (operation = js "insert") then
    if CodeBlock.startLine block >? 0 then
      let lines := splice existingLines (CodeBlock.startLine block - 1) 0
                     [CodeBlock.content block] in
      (writeFileSync fs filePath (join_nl lines), lines)
    else acc
  else if decide (operation = js "delete") then
    if (CodeBlock.startLine block >? 0)
       && (CodeBlock.endLine block <=? Z.of_nat (length existingLines))
    then
      let lines := splice existingLines (CodeBlock.startLine block - 1)
                     (CodeBlock.endLine block - CodeBlock.startLine block + 1)
                     [] in
      (writeFileSync fs filePath (join_nl lines), lines)
    else acc
  else acc.

Definition _handleFileModification (fs : FS) (modification : FileModification.t)
  : FS :=
  let filePath := FileModification.filePath modification in
  let blocks := FileModification.blocks modification in
  let operation := FileModification.operation modification in
  let fs1 := ensureDirectory fs filePath in
  let existingContent :=
    if fileExists fs1 filePath then readFileSync fs1 filePath else [] in
  let existingLines :=
    if fileExists fs1 filePath then split_nl existingContent else [] in
  fst (fold_left (applyBlock operation filePath existingContent) blocks
         (fs1, existingLines)).

(** The block that [_saveGeneratedCode] builds from a match.  The sum is the
    sum of integers: it is the sum of the code when it is not beyond
    [MAX_SAFE_INTEGER]. *)
Definition makeCodeBlock (outputPath filePath blockId : text) (startLine : Z)
    (code : text) : CodeBlock.t :=
  CodeBlock.mk blockId (path_join outputPath filePath) startLine
    (startLine + Z.of_nat (length (split_nl (trim code))))
    (trim code)
    (let ext := drop 1 (path_extname filePath) in
     if truthy ext then ext else js "txt").

(** The first part of the body of the loop of [_saveGeneratedCode]: the
    operation and the block of a match, given by its five groups; nothing
    when [startLine] is [NaN]. *)
Definition blockOfMatch (outputPath : text) (groups : list text)
  : option (text * CodeBlock.t) :=
  match groups with
  | [filePath; blockId; startLineStr; operation; code] =>
      match parseInt startLineStr with
      | None => None
      | Some startLine =>
          Some (operation,
                makeCodeBlock outputPath filePath blockId startLine code)
      end
  | _ => None
  end.

(** The second part: the block is recorded under its identifier and handed
    to [_handleFileModification]. *)
Definition applyParsed (st : State) (parsed : text * CodeBlock.t) : State :=
  let '(operation, codeBlock) := parsed in
  let st1 :=
    with_codeBlocks (<[CodeBlock.id codeBlock := codeBlock]> (_codeBlocks st)) st in
  with_disk
    (_handleFileModification (disk st1)
       (FileModification.mk (CodeBlock.filePath codeBlock) [codeBlock] operation))
    st1.

Definition processMatch (st : State) (groups : list text) : State :=
  match blockOfMatch (_outputPath st) groups with
  | None => st
  | Some parsed => applyParsed st parsed
  end.

(** The loop [while ((match = codeBlockRegex.exec(content)) !== null)], on
    the text that is left after [lastIndex]. *)
Fixpoint saveLoop (fuel : nat) (st : State) (rest : text) : State :=
  match fuel with
  | O => st
  | S fuel' =>
      match exec codeBlockRegex rest with
      | None => st
      | Some (groups, rest') => saveLoop fuel' (processMatch st groups) rest'
      end
  end.

Definition _saveGeneratedCode (st : State) (content : text) (iteration : Z)
  : State :=
  saveLoop (S (length content)) st content.

(** The matches of the loop, in the order of the loop. *)
Fixpoint matches (fuel : nat) (rest : text) : list (list text) :=
  match fuel with
  | O => []
  | S fuel' =>
      match exec codeBlockRegex rest with
      | None => []
      | Some (groups, rest') => groups :: matches fuel' rest'
      end
  end.

Definition extractBlocks (content : text) : list (list text) :=
  matches (S (length content)) content.

(** *** The conversation driver *)

Definition _generateResponse (st : State) (systemPrompt userMessage : text)
    (isGenerator : bool) : State * option text :=
  let msgs :=
    Message.mk system systemPrompt :: _conversationHistory st
      ++ [Message.mk user userMessage] in
  let st1 := with_requests (requests st ++ [mkRequest isGenerator msgs]) st in
  match chat (length (requests st)) msgs with
  | Rejected => (st1, None)
  | Completion c =>
      let aiResponse :=
        match c with
        | Some t => if truthy t then t else js "No response generated"
        | None => js "No response generated"
        end in
      (with_error false
         (with_history
            (_conversationHistory st1
               ++ [Message.mk user userMessage; Message.mk assistant aiResponse])
            st1),
       Some aiResponse)
  end.

(** One turn of the loop of [_generateAndReview]; the result is the state and
    the request of the next turn, or nothing when a call failed. *)
Definition round (st : State) (prompt request : text) : State * option text :=
  match
    _generateResponse st
      (generatorSystemPrompt
         (if _currentIteration st =? 0 then prompt else improveInstruction))
      request true
  with
  | (st1, None) => (st1, None)
  | (st1, Some response) =>
      let st2 :=
        if truthy response
        then _saveGeneratedCode st1 response (_currentIteration st1)
        else st1 in
      if _currentIteration st2 <? _maxIterations st2 - 1 then
        match _generateResponse st2 (reviewPrompt response) [] false with
        | (st3, None) => (st3, None)
        | (st3, Some review) =>
            (with_iteration (_currentIteration st3 + 1) st3,
             Some (if truthy review then nextRequest response review
                   else request))
        end
      else (with_iteration (_currentIteration st2 + 1) st2, Some request)
  end.

Fixpoint _generateAndReview (fuel : nat) (st : State) (prompt request : text)
  : State * Outcome :=
  if _currentIteration st <? _maxIterations st then
    match fuel with
    | O => (st, OutOfFuel)
    | S fuel' =>
        match round st prompt request with
        | (st', None) => (st', Threw)
        | (st', Some request') => _generateAndReview fuel' st' prompt request'
        end
    end
  else (st, Finished).

Definition _startCodeGeneration (st : State) (codeRequest : text) : State :=
  let st0 := with_history [] (with_iteration 0 st) in
  match
    _generateAndReview (Z.to_nat (_maxIterations st0)) st0
      (generatorPrompt codeRequest) codeRequest
  with
  | (st', Threw) => with_error true st'
  | (st', _) => st'
  end.

(** The kinds of the calls of a run, in order: [true] for a generate call,
    [false] for a review call. *)
Definition callKinds (st : State) : list bool := map isGenerator (requests st).

(** The blocks that [_saveGeneratedCode] builds from a text, with their
    operations, in the order of the loop. *)
Definition parsedBlocks (outputPath content : text)
  : list (text * CodeBlock.t) :=
  omap (blockOfMatch outputPath) (extractBlocks content).

(** The block that a well-formed block text stands for. *)
Definition block_of (outputPath : text) (b : BlockText)
  : text * CodeBlock.t :=
  (operation_text b,
   CodeBlock.mk (blockId_text b) (path_join outputPath (file_text b))
     (decimal (startLine_text b))
     (decimal (startLine_text b)
      + Z.of_nat (length (split_nl (trim (body b)))))
     (trim (body b))
     (let ext := drop 1 (path_extname (file_text b)) in
      if truthy ext then ext else js "txt")).

(** The chat service answers every request. *)
Definition responsive : Prop := forall n msgs, chat n msgs <> Rejected.

(** Generate and review calls in turn, [n] generate calls in all: [true] for
    a generate call, [false] for a review call. *)
Fixpoint alternation (n : nat) : list bool :=
  match n with
  | O => []
  | S n' =>
      true :: match n' with
              | O => []
              | S _ => false :: alternation n'
              end
  end.

Definition roles (h : list Message.t) : list Role := map Message.role h.

(** The lines of a file as [_handleFileModification] reads them: the text
    split at line feeds, and no line at all for a missing file. *)
Definition currentLines (fs : FS) (p : text) : list text :=
  if fileExists fs p then split_nl (readFileSync fs p) else [].

(** A text of one line. *)
Definition single_line (t : text) : Prop := LF ∉ t.

(** The panel, apart from the table of the blocks and the disk, is not
    touched by [_saveGeneratedCode]. *)
Definition same_conversation (st st' : State) : Prop :=
  _conversationHistory st' = _conversationHistory st
  /\ _currentIteration st' = _currentIteration st
  /\ _maxIterations st' = _maxIterations st
  /\ _outputPath st' = _outputPath st
  /\ requests st' = requests st
  /\ errorShown st' = errorShown st.

(** The entries that the calls of a run append: a user message and an
    assistant message for each call. *)
Definition entry_roles (calls : list bool) : list Role :=
  flat_map (fun _ => [user; assistant]) calls.

(** The requests [new] that a run has sent from its start, [n0] requests
    after the first request of the panel, when the service has answered every
    one of them, and the transcript [h] of the run: two entries for each
    request; the request number [k] holds a system prompt, the [2 * k]
    entries that the transcript had, and a user message, which is the entry
    number [2 * k] of the transcript. *)
Definition answered_run (n0 : nat) (new : list Request) (h : list Message.t)
  : Prop :=
  length h = (2 * length new)%nat
  /\ roles h = entry_roles (map isGenerator new)
  /\ forall k r,
       new !! k = Some r ->
       chat (n0 + k) (messages r) <> Rejected
       /\ exists sp um,
            messages r =
              Message.mk system sp :: take (2 * k) h ++ [Message.mk user um]
            /\ h !! (2 * k)%nat = Some (Message.mk user um).

(** The answer that [_generateResponse] makes of a reply of the service, or
    nothing for a call that failed. *)
Definition answer (r : Reply) : option text :=
  match r with
  | Rejected => None
  | Completion (Some t) =>
      Some (if truthy t then t else js "No response generated")
  | Completion None => Some (js "No response generated")
  end.

(** The messages of the generate call of the round [i] of a run on the
    request [c], with the transcript [h] of the rounds before and the user
    message [request]; and the messages of the review call of this round,
    after the answer [response] of the generate call. *)
Definition generateMessages (c : text) (i : nat) (h : list Message.t)
    (request : text) : list Message.t :=
  Message.mk system
    (generatorSystemPrompt
       (match i with
        | O => generatorPrompt c
        | S _ => improveInstruction
        end))
    :: h ++ [Message.mk user request].

Definition reviewMessages (h : list Message.t) (request response : text)
  : list Message.t :=
  Message.mk system (reviewPrompt response)
    :: (h ++ [Message.mk user request; Message.mk assistant response])
    ++ [Message.mk user []].

(** [full_rounds n0 c i h new request]: after [i] rounds of a generate call
    and a review call, all answered, of a run on the request [c] that starts
    [n0] requests after the first request of the panel, the transcript is
    [h], the requests of the run are [new], and the user message of the next
    generate call is [request].  The first user message is the request [c];
    a round appends its user message, the answer of the generator, an empty
    user message and the answer of the reviewer, and the next user message is
    built from the two answers. *)
Inductive full_rounds (n0 : nat) (c : text)
  : nat -> list Message.t -> list Request -> text -> Prop :=
| full_rounds_O : full_rounds n0 c 0 [] [] c
| full_rounds_S i h new request response review :
    full_rounds n0 c i h new request ->
    answer (chat (n0 + 2 * i) (generateMessages c i h request))
    = Some response ->
    answer (chat (n0 + 2 * i + 1) (reviewMessages h request response))
    = Some review ->
    full_rounds n0 c (S i)
      (h ++ [ Message.mk user request; Message.mk assistant response;
              Message.mk user []; Message.mk assistant review ])
      (new ++ [ mkRequest true (generateMessages c i h request);
                mkRequest false (reviewMessages h request response) ])
      (nextRequest response review).

(** *** The listener of the panel *)

(** The function that the constructor hands to [onDidReceiveMessage], with
    the answers of the input boxes that [_getCodeRequest] opens: the panel
    afterwards, and the message posted to the web view, if any. *)
Definition onDidReceiveMessage (st : State) (message : WebviewMessage.t)
    (boxes : option text * option text) : State * option WebviewMessage.t :=
  if decide (WebviewMessage.command message = js "startConversation") then
    (st, _getCodeRequest (fst boxes) (snd boxes))
  else if decide (WebviewMessage.command message = js "continueConversation")
  then
    match WebviewMessage.codeRequest message, WebviewMessage.iterations message with
    | Some c, Some (Some n) =>
        if truthy c && truthy_number (Some n)
        then (_startCodeGeneration (with_maxIterations n st) c, None)
        else (st, None)
    | _, _ => (st, None)
    end
  else (st, None).

(** What the button of the web view starts: its function [startConversation]
    posts the message of this name to the panel, the panel asks for the
    request and the number of iterations and posts them to the web view, and
    the web view sends them back to the panel. *)
Definition startConversation (st : State) (boxes : option text * option text)
  : State :=
  match
    onDidReceiveMessage st
      (WebviewMessage.mk (js "startConversation") None None) boxes
  with
  | (st1, Some posted) =>
      match webviewListener posted with
      | Some back => fst (onDidReceiveMessage st1 back boxes)
      | None => st1
      end
  | (st1, None) => st1
  end.

(** ** Texts, lines and arrays *)

Lemma split_nl_nonempty (s : text) : split_nl s <> [].
Proof.
  destruct s as [|c s]; simpl; [discriminate|].
  destruct (N.eqb c LF); [discriminate|].
  destruct (split_nl s); discriminate.
Qed.

Lemma split_nl_length_pos (s : text) : (1 <= length (split_nl s))%nat.
Proof.
  pose proof (split_nl_nonempty s) as H.
  destruct (split_nl s); [congruence | simpl; lia].
Qed.

Lemma join_nl_cons (l : text) (ls : list text) :
  ls <> [] -> join_nl (l :: ls) = l ++ LF :: join_nl ls.
Proof. destruct ls; [congruence | reflexivity]. Qed.

Lemma join_nl_split_nl (s : text) : join_nl (split_nl s) = s.
Proof.
  induction s as [|c s IH]; [reflexivity|].
  simpl. destruct (N.eqb_spec c LF) as [->|Hc].
  - rewrite join_nl_cons by apply split_nl_nonempty. simpl. by rewrite IH.
  - pose proof (split_nl_nonempty s) as Hne.
    destruct (split_nl s) as [|l ls]; [congruence|].
    destruct ls as [|l' ls]; simpl in *; by rewrite <- IH.
Qed.

Lemma split_nl_single_line (t : text) : single_line t -> split_nl t = [t].
Proof.
  unfold single_line. induction t as [|c t IH]; intros H; [reflexivity|].
  simpl. destruct (N.eqb_spec c LF) as [->|Hc].
  - exfalso. apply H. left.
  - rewrite IH; [reflexivity|]. intros Hin. apply H. by right.
Qed.

Lemma split_nl_app_LF (t u : text) :
  single_line t -> split_nl (t ++ LF :: u) = t :: split_nl u.
Proof.
  unfold single_line. induction t as [|c t IH]; intros H; simpl.
  - reflexivity.
  - destruct (N.eqb_spec c LF) as [->|Hc].
    + exfalso. apply H. left.
    + rewrite IH; [reflexivity|]. intros Hin. apply H. by right.
Qed.

Lemma split_nl_join_nl (ls : list text) :
  ls <> [] -> Forall single_line ls -> split_nl (join_nl ls) = ls.
Proof.
  induction ls as [|l ls IH]; [congruence|].
  intros _ Hall. apply Forall_cons_1 in Hall as [Hl Hls].
  destruct ls as [|l' ls].
  - simpl. by apply split_nl_single_line.
  - rewrite join_nl_cons by discriminate.
    rewrite split_nl_app_LF by done. f_equal. by apply IH.
Qed.

Lemma split_nl_lines_single (s : text) : Forall single_line (split_nl s).
Proof.
  induction s as [|c s IH]; simpl.
  - constructor; [|constructor]. unfold single_line. apply not_elem_of_nil.
  - destruct (N.eqb_spec c LF) as [->|Hc].
    + constructor; [|done]. unfold single_line. apply not_elem_of_nil.
    + pose proof (split_nl_nonempty s) as Hne.
      destruct (split_nl s) as [|l ls]; [congruence|].
      apply Forall_cons_1 in IH as [Hl Hls]. constructor; [|done].
      unfold single_line in *. rewrite elem_of_cons. intros [?|?]; congruence.
Qed.

(** A text has one line more than it has line feeds. *)
Lemma lineCount_split_nl (s : text) : length (split_nl s) = lineCount s.
Proof.
  unfold lineCount. induction s as [|c s IH]; [reflexivity|].
  cbn [split_nl count_occ]. destruct (N.eqb_spec c LF) as [->|Hc].
  - destruct (N.eq_dec LF LF); [|done]. cbn [length]. by rewrite IH.
  - destruct (N.eq_dec c LF); [done|].
    pose proof (split_nl_nonempty s). destruct (split_nl s); [done|].
    exact IH.
Qed.


(** [splice] with a start and a count inside the array. *)
Lemma splice_inside {A} (l items : list A) (start count : Z) :
  0 <= start -> 0 <= count -> start + count <= Z.of_nat (length l) ->
  splice l start count items =
    take (Z.to_nat start) l ++ items ++ drop (Z.to_nat (start + count)) l.
Proof.
  intros Hs Hc Hlen. unfold splice.
  destruct (start <? 0) eqn:E; [lia|].
  rewrite Z.min_l by lia. rewrite Z.max_l by lia. rewrite Z.min_l by lia.
  reflexivity.
Qed.

(** [splice] that removes nothing: an insertion, at the end of the array when
    the start is beyond it. *)
Lemma splice_insert {A} (l items : list A) (start : Z) :
  0 <= start ->
  splice l start 0 items =
    take (Z.to_nat start) l ++ items ++ drop (Z.to_nat start) l.
Proof.
  intros Hs. unfold splice. destruct (start <? 0) eqn:E; [lia|].
  rewrite Z.max_l by lia.
  destruct (Z.le_gt_cases start (Z.of_nat (length l))) as [Hle|Hgt].
  - rewrite Z.min_l by lia. rewrite Z.min_l by lia.
    by rewrite Z.add_0_r.
  - rewrite (Z.min_r start) by lia. rewrite Z.min_r by lia.
    rewrite Z.sub_diag, Z.add_0_r, Nat2Z.id.
    rewrite firstn_all, drop_all.
    rewrite take_ge by lia. by rewrite drop_ge by lia.
Qed.

(** ** Files and their lines *)

Lemma currentLines_lookup (fs : FS) (p c : text) :
  files fs !! p = Some c -> currentLines fs p = split_nl c.
Proof.
  intros H. unfold currentLines, fileExists, readFileSync. rewrite H.
  case_bool_decide as Hex; [done|]. exfalso. apply Hex. by eexists.
Qed.

Lemma currentLines_absent (fs : FS) (p : text) :
  files fs !! p = None -> currentLines fs p = [].
Proof.
  intros H. unfold currentLines, fileExists. rewrite H.
  case_bool_decide as Hex; [|done]. by destruct Hex.
Qed.

Lemma files_ensureDirectory (fs : FS) (p : text) :
  files (ensureDirectory fs p) = files fs.
Proof. unfold ensureDirectory. by destruct (negb _). Qed.

Lemma currentLines_ensureDirectory (fs : FS) (p q : text) :
  currentLines (ensureDirectory fs p) q = currentLines fs q.
Proof. unfold ensureDirectory. by destruct (negb _). Qed.

Lemma dirs_ensureDirectory (fs : FS) (p : text) :
  dirs fs ⊆ dirs (ensureDirectory fs p).
Proof.
  unfold ensureDirectory. destruct (negb _); [|done]. simpl.
  apply union_subseteq_r.
Qed.

(** ** The patch engine: application of a block *)

(** [_handleFileModification] for the one block that [_saveGeneratedCode]
    passes. *)
Lemma handle_single (fs : FS) (p op : text) (b : CodeBlock.t) :
  _handleFileModification fs (FileModification.mk p [b] op) =
    fst (applyBlock op p
           (if fileExists fs p then readFileSync fs p else [])
           (ensureDirectory fs p, currentLines fs p) b).
Proof.
  unfold _handleFileModification.
  cbn [FileModification.filePath FileModification.blocks
       FileModification.operation fold_left].
  unfold currentLines, fileExists, readFileSync.
  rewrite files_ensureDirectory. by case_bool_decide.
Qed.


Lemma applyBlock_append (p ec : text) (fs : FS) (ls : list text) (b : CodeBlock.t) :
  applyBlock (js "append") p ec (fs, ls) b =
    if negb (truthy ec)
    then (writeFileSync fs p (CodeBlock.content b), ls)
    else (appendFileSync fs p (LF :: CodeBlock.content b), ls).
Proof. unfold applyBlock. by rewrite decide_True. Qed.

Lemma applyBlock_modify (p ec : text) (fs : FS) (ls : list text) (b : CodeBlock.t) :
  applyBlock (js "modify") p ec (fs, ls) b =
    if (CodeBlock.startLine b >? 0)
       && (CodeBlock.endLine b <=? Z.of_nat (length ls))
    then
      let lines := splice ls (CodeBlock.startLine b - 1)
                     (CodeBlock.endLine b - CodeBlock.startLine b + 1)
                     [CodeBlock.content b] in
      (writeFileSync fs p (join_nl lines), lines)
    else (fs, ls).
Proof.
  unfold applyBlock.
  rewrite (decide_False (P := js "modify" = js "append")) by discriminate.
  by rewrite decide_True.
Qed.

Lemma applyBlock_insert (p ec : text) (fs : FS) (ls : list text) (b : CodeBlock.t) :
  applyBlock (js "insert") p ec (fs, ls) b =
    if CodeBlock.startLine b >? 0 then
      let lines := splice ls (CodeBlock.startLine b - 1) 0 [CodeBlock.content b] in
      (writeFileSync fs p (join_nl lines), lines)
    else (fs, ls).
Proof.
  unfold applyBlock.
  rewrite (decide_False (P := js "insert" = js "append")) by discriminate.
  rewrite (decide_False (P := js "insert" = js "modify")) by discriminate.
  by rewrite decide_True.
Qed.

Lemma applyBlock_delete (p ec : text) (fs : FS) (ls : list text) (b : CodeBlock.t) :
  applyBlock (js "delete") p ec (fs, ls) b =
    if (CodeBlock.startLine b >? 0)
       && (CodeBlock.endLine b <=? Z.of_nat (length ls))
    then
      let lines := splice ls (CodeBlock.startLine b - 1)
                     (CodeBlock.endLine b - CodeBlock.startLine b + 1) [] in
      (writeFileSync fs p (join_nl lines), lines)
    else (fs, ls).
Proof.
  unfold applyBlock.
  rewrite (decide_False (P := js "delete" = js "append")) by discriminate.
  rewrite (decide_False (P := js "delete" = js "modify")) by discriminate.
  rewrite (decide_False (P := js "delete" = js "insert")) by discriminate.
  by rewrite decide_True.
Qed.

(** An operation that is none of the four names does nothing. *)
Lemma applyBlock_other (op p ec : text) (acc : FS * list text) (b : CodeBlock.t) :
  op <> js "append" -> op <> js "modify" -> op <> js "insert" ->
  op <> js "delete" -> applyBlock op p ec acc b = acc.
Proof.
  intros. unfold applyBlock. destruct acc as [fs ls].
  by rewrite !decide_False.
Qed.

Lemma range_guard (s e : Z) (n : nat) :
  0 < s -> e <= Z.of_nat n -> (s >? 0) && (e <=? Z.of_nat n) = true.
Proof.
  intros Hs He. apply andb_true_intro. split; [lia|]. by apply Z.leb_le.
Qed.

(** What [modify] writes: the lines before the range, the content as one
    element, and the lines after the range. *)
Lemma modify_files (fs : FS) (p : text) (b : CodeBlock.t) :
  0 < CodeBlock.startLine b ->
  CodeBlock.startLine b <= CodeBlock.endLine b ->
  CodeBlock.endLine b <= Z.of_nat (length (currentLines fs p)) ->
  files (_handleFileModification fs (FileModification.mk p [b] (js "modify"))) =
    <[p := join_nl (take (Z.to_nat (CodeBlock.startLine b - 1)) (currentLines fs p)
                     ++ [CodeBlock.content b]
                     ++ drop (Z.to_nat (CodeBlock.endLine b)) (currentLines fs p))]>
      (files fs).
Proof.
  intros Hs Hse He. rewrite handle_single, applyBlock_modify.
  rewrite range_guard by done. simpl.
  rewrite files_ensureDirectory, splice_inside by lia.
  replace (CodeBlock.startLine b - 1
           + (CodeBlock.endLine b - CodeBlock.startLine b + 1))
    with (CodeBlock.endLine b) by lia.
  reflexivity.
Qed.

(** What [delete] writes. *)
Lemma delete_files (fs : FS) (p : text) (b : CodeBlock.t) :
  0 < CodeBlock.startLine b ->
  CodeBlock.startLine b <= CodeBlock.endLine b ->
  CodeBlock.endLine b <= Z.of_nat (length (currentLines fs p)) ->
  files (_handleFileModification fs (FileModification.mk p [b] (js "delete"))) =
    <[p := join_nl (take (Z.to_nat (CodeBlock.startLine b - 1)) (currentLines fs p)
                     ++ drop (Z.to_nat (CodeBlock.endLine b)) (currentLines fs p))]>
      (files fs).
Proof.
  intros Hs Hse He. rewrite handle_single, applyBlock_delete.
  rewrite range_guard by done. simpl.
  rewrite files_ensureDirectory, splice_inside by lia.
  replace (CodeBlock.startLine b - 1
           + (CodeBlock.endLine b - CodeBlock.startLine b + 1))
    with (CodeBlock.endLine b) by lia.
  reflexivity.
Qed.

(** What [insert] writes. *)
Lemma insert_files (fs : FS) (p : text) (b : CodeBlock.t) :
  0 < CodeBlock.startLine b ->
  files (_handleFileModification fs (FileModification.mk p [b] (js "insert"))) =
    <[p := join_nl (take (Z.to_nat (CodeBlock.startLine b - 1)) (currentLines fs p)
                     ++ [CodeBlock.content b]
                     ++ drop (Z.to_nat (CodeBlock.startLine b - 1)) (currentLines fs p))]>
      (files fs).
Proof.
  intros Hs. rewrite handle_single, applyBlock_insert.
  replace (CodeBlock.startLine b >? 0) with true by lia. simpl.
  by rewrite files_ensureDirectory, splice_insert by lia.
Qed.

(** What [append] writes. *)
Lemma append_files (fs : FS) (p : text) (b : CodeBlock.t) :
  files (_handleFileModification fs (FileModification.mk p [b] (js "append"))) =
    <[p := match files fs !! p with
           | None | Some [] => CodeBlock.content b
           | Some old => old ++ LF :: CodeBlock.content b
           end]> (files fs).
Proof.
  rewrite handle_single, applyBlock_append.
  unfold fileExists, readFileSync.
  destruct (files fs !! p) as [old|] eqn:E.
  - rewrite bool_decide_eq_true_2 by (by eexists). simpl.
    destruct old as [|c old]; simpl; rewrite files_ensureDirectory.
    + done.
    + unfold readFileSync. by rewrite files_ensureDirectory, E.
  - rewrite bool_decide_eq_false_2 by (by intros [? ?]). simpl.
    by rewrite files_ensureDirectory.
Qed.

(** A [modify] or [delete] whose guard fails, and any operation that is not
    one of the four, writes nothing. *)
Lemma guarded_noop (fs : FS) (p op : text) (b : CodeBlock.t) :
  op <> js "append" -> op <> js "insert" ->
  CodeBlock.startLine b <= 0
    \/ Z.of_nat (length (currentLines fs p)) < CodeBlock.endLine b ->
  _handleFileModification fs (FileModification.mk p [b] op)
    = ensureDirectory fs p.
Proof.
  intros Ha Hi Hg. rewrite handle_single.
  assert ((CodeBlock.startLine b >? 0)
          && (CodeBlock.endLine b <=? Z.of_nat (length (currentLines fs p)))
          = false) as Hguard.
  { apply andb_false_iff. destruct Hg; [left; lia | right; lia]. }
  destruct (decide (op = js "modify")) as [->|Hm].
  { by rewrite applyBlock_modify, Hguard. }
  destruct (decide (op = js "delete")) as [->|Hd].
  { by rewrite applyBlock_delete, Hguard. }
  by rewrite applyBlock_other.
Qed.

(** ** The matcher on the expression of the extension *)

Lemma strip_prefix_app (l s : text) : strip_prefix l (l ++ s) = Some s.
Proof.
  induction l as [|a l IH]; [reflexivity|]. simpl. by rewrite N.eqb_refl.
Qed.

Lemma strip_prefix_Some (l s r : text) :
  strip_prefix l s = Some r -> s = l ++ r.
Proof.
  revert s. induction l as [|a l IH]; intros s H; simpl in *.
  - congruence.
  - destruct s as [|b s]; [discriminate|].
    destruct (N.eqb_spec a b) as [->|]; [|discriminate].
    simpl. f_equal. by apply IH.
Qed.

Lemma take_skip_while (p : char -> bool) (s : text) :
  take_while p s ++ skip_while p s = s.
Proof.
  induction s as [|c s IH]; [reflexivity|]. simpl.
  destruct (p c); simpl; by rewrite ?IH.
Qed.

Lemma skip_while_length (p : char -> bool) (s : text) :
  (length (skip_while p s) <= length s)%nat.
Proof.
  induction s as [|c s IH]; simpl; [lia|]. destruct (p c); simpl; lia.
Qed.

Lemma take_length_skip_while (p : char -> bool) (s : text) :
  take (length s - length (skip_while p s)) s = take_while p s.
Proof.
  rewrite <- (take_skip_while p s) at 1 3.
  rewrite length_app.
  replace (length (take_while p s) + length (skip_while p s)
           - length (skip_while p s))%nat
    with (length (take_while p s)) by lia.
  by rewrite take_app_length.
Qed.

Lemma skip_while_app_stop (p : char -> bool) (g : text) (x : char) (s : text) :
  p x = false -> skip_while p (g ++ x :: s) = skip_while p g ++ x :: s.
Proof.
  intros Hx. induction g as [|c g IH]; simpl.
  - by rewrite Hx.
  - destruct (p c); [apply IH | reflexivity].
Qed.

Lemma skip_while_all (p : char -> bool) (g : text) :
  Forall (fun c => p c = true) g -> skip_while p g = [].
Proof.
  induction 1 as [|c g Hc _ IH]; [reflexivity|]. simpl. by rewrite Hc.
Qed.

Lemma take_while_all (p : char -> bool) (g : text) (x : char) (s : text) :
  Forall (fun c => p c = true) g -> p x = false ->
  take_while p (g ++ x :: s) = g.
Proof.
  intros Hg Hx. induction Hg as [|c g Hc _ IH]; simpl.
  - by rewrite Hx.
  - by rewrite Hc, IH.
Qed.

Lemma skip_while_gap (p : char -> bool) (g : text) (x : char) (s : text) :
  Forall (fun c => p c = true) g -> p x = false ->
  skip_while p (g ++ x :: s) = x :: s.
Proof.
  intros Hg Hx. rewrite skip_while_app_stop by done.
  by rewrite skip_while_all.
Qed.

(** A greedy repetition is deterministic when the failure of what follows
    carries over to a text with one more character of the class in front: the
    longest repetition decides. *)
Lemma greedy_det {R} (p : char -> bool) (k : text -> option R) (s : text) :
  (forall x t, p x = true -> k t = None -> k (x :: t) = None) ->
  greedy p s k = k (skip_while p s).
Proof.
  intros Hk.
  assert (forall u, k (skip_while p u) = None -> k u = None) as Hback.
  { induction u as [|c u IH]; simpl; [done|].
    destruct (p c) eqn:E; [|done]. intros H. apply Hk; auto. }
  induction s as [|c s IH]; simpl; [reflexivity|].
  destruct (p c) eqn:E; [|reflexivity].
  rewrite IH. destruct (k (skip_while p s)) eqn:Ek; [reflexivity|].
  apply Hk; auto.
Qed.

Lemma strip_prefix_outside (l : text) (x : char) (t : text) (p : char -> bool) :
  match l with y :: _ => negb (p y) | [] => false end = true ->
  p x = true -> strip_prefix l (x :: t) = None.
Proof.
  destruct l as [|y l]; [discriminate|]. intros Hy Hx. simpl.
  destruct (N.eqb_spec y x) as [->|]; [|reflexivity].
  rewrite Hx in Hy. discriminate.
Qed.

Lemma run_chars {R} (l : text) (r : regex) (s : text) (caps : list text)
    (k : text -> list text -> option R) :
  run (Cat (Chars l) r) s caps k =
    match strip_prefix l s with
    | Some s' => run r s' caps k
    | None => None
    end.
Proof. reflexivity. Qed.

Lemma run_chars_app {R} (l : text) (r : regex) (s : text) (caps : list text)
    (k : text -> list text -> option R) :
  run (Cat (Chars l) r) (l ++ s) caps k = run r s caps k.
Proof. by rewrite run_chars, strip_prefix_app. Qed.

(** White space before a literal: all of it is skipped. *)
Lemma run_ws_chars {R} (l : text) (r : regex) (s : text) (caps : list text)
    (k : text -> list text -> option R) :
  starts_visible l = true ->
  run (Cat (Rep Star ClsSpace) (Cat (Chars l) r)) s caps k =
    run (Cat (Chars l) r) (skip_while is_space s) caps k.
Proof.
  intros Hl. cbn [run].
  rewrite (greedy_det (cls_test ClsSpace)); [reflexivity|].
  intros x t Hx _. by rewrite (strip_prefix_outside l x t is_space).
Qed.

(** A group of one or more characters of a class before a literal that starts
    outside of the class: the group is the longest run of the class. *)
Lemma run_group_plus {R} (c : cls) (l : text) (r : regex) (s : text)
    (caps : list text) (k : text -> list text -> option R) :
  starts_outside c l = true ->
  run (Cat (Group (Rep Plus c)) (Cat (Chars l) r)) s caps k =
    match take_while (cls_test c) s with
    | [] => None
    | u => run (Cat (Chars l) r) (skip_while (cls_test c) s) (caps ++ [u]) k
    end.
Proof.
  intros Hl. cbn [run]. destruct s as [|x s]; [reflexivity|].
  cbn [take_while skip_while]. destruct (cls_test c x) eqn:E; [|reflexivity].
  rewrite (greedy_det (cls_test c)).
  - pose proof (skip_while_length (cls_test c) s) as Hlen.
    replace (length (x :: s) - length (skip_while (cls_test c) s))%nat
      with (S (length s - length (skip_while (cls_test c) s)))
      by (simpl; lia).
    cbn [take]. by rewrite take_length_skip_while.
  - intros y t Hy _. by rewrite (strip_prefix_outside l y t (cls_test c)).
Qed.

Lemma strip_delimiter_space (x : char) (t : text) :
  is_space x = true -> strip_prefix delimiter (x :: t) = None.
Proof.
  intros Hx. apply (strip_prefix_outside delimiter x t is_space); done.
Qed.

Lemma cls_all (x : char) : cls_test ClsAll x = true.
Proof. simpl. by destruct (is_space x). Qed.

(** The lazy group before the closing delimiter stops at the first
    delimiter. *)
Lemma lazy_find (pre s : text) (caps : list text) :
  lazy (cls_test ClsAll) s
    (fun s' =>
       match strip_prefix delimiter s' with
       | Some r =>
           Some (caps ++ [take (length (pre ++ s) - length s') (pre ++ s)], r)
       | None => None
       end) =
  match find_delimiter s with
  | Some (u, r) => Some (caps ++ [pre ++ u], r)
  | None => None
  end.
Proof.
  revert pre. induction s as [|c s IH]; intros pre.
  - cbn [lazy find_delimiter].
    destruct (strip_prefix delimiter []) as [r|] eqn:E; [|reflexivity].
    by vm_compute in E.
  - cbn [lazy find_delimiter].
    destruct (strip_prefix delimiter (c :: s)) as [r|] eqn:E.
    + rewrite length_app.
      replace (length pre + length (c :: s) - length (c :: s))%nat
        with (length pre) by lia.
      by rewrite take_app_length, app_nil_r.
    + rewrite cls_all.
      replace (pre ++ c :: s) with ((pre ++ [c]) ++ s)
        by (by rewrite <- app_assoc).
      rewrite IH. destruct (find_delimiter s) as [[u r]|]; [|reflexivity].
      by rewrite <- app_assoc.
Qed.

Lemma lazy_find_nil (s : text) (caps : list text) :
  lazy (cls_test ClsAll) s
    (fun s' =>
       match strip_prefix delimiter s' with
       | Some r => Some (caps ++ [take (length s - length s') s], r)
       | None => None
       end) =
  match find_delimiter s with
  | Some (u, r) => Some (caps ++ [u], r)
  | None => None
  end.
Proof. exact (lazy_find [] s caps). Qed.

(** The end of the expression: white space, the lazy group and the closing
    delimiter.  The group starts after the white space and stops before the
    first delimiter. *)
Lemma run_tail (s : text) (caps : list text) :
  run (Cat (Rep Star ClsSpace)
         (Cat (Group (Rep LazyStar ClsAll)) (Chars delimiter)))
    s caps (fun s' caps' => Some (caps', s')) =
  match find_delimiter (skip_while is_space s) with
  | Some (u, r) => Some (caps ++ [u], r)
  | None => None
  end.
Proof.
  cbn [run]. rewrite (greedy_det (cls_test ClsSpace)).
  - apply lazy_find_nil.
  - intros x t Hx. rewrite !lazy_find_nil.
    cbn [find_delimiter]. rewrite strip_delimiter_space by done.
    by destruct (find_delimiter t) as [[u r]|].
Qed.

Lemma skip_while_lit (p : char -> bool) (g l s : text) :
  Forall (fun c => p c = true) g ->
  match l with x :: _ => negb (p x) | [] => false end = true ->
  skip_while p (g ++ l ++ s) = l ++ s.
Proof.
  intros Hg Hl. destruct l as [|x l]; [discriminate|].
  apply skip_while_gap; [done|]. by apply negb_true_iff.
Qed.

Lemma take_while_lit (p : char -> bool) (g l s : text) :
  Forall (fun c => p c = true) g ->
  match l with x :: _ => negb (p x) | [] => false end = true ->
  take_while p (g ++ l ++ s) = g.
Proof.
  intros Hg Hl. destruct l as [|x l]; [discriminate|].
  apply take_while_all; [done|]. by apply negb_true_iff.
Qed.

Lemma run_ws_chars_app {R} (g l : text) (r : regex) (s : text)
    (caps : list text) (k : text -> list text -> option R) :
  spaces g -> starts_visible l = true ->
  run (Cat (Rep Star ClsSpace) (Cat (Chars l) r)) (g ++ l ++ s) caps k =
    run r s caps k.
Proof.
  intros Hg Hl. rewrite run_ws_chars by done.
  rewrite (skip_while_lit is_space) by done. apply run_chars_app.
Qed.

Lemma run_group_plus_app {R} (c : cls) (u l : text) (r : regex) (s : text)
    (caps : list text) (k : text -> list text -> option R) :
  Forall (fun x => cls_test c x = true) u -> u <> [] ->
  starts_outside c l = true ->
  run (Cat (Group (Rep Plus c)) (Cat (Chars l) r)) (u ++ l ++ s) caps k =
    run r s (caps ++ [u]) k.
Proof.
  intros Hu Hne Hl. rewrite run_group_plus by done.
  rewrite (take_while_lit (cls_test c)), (skip_while_lit (cls_test c)) by done.
  destruct u; [congruence|]. apply run_chars_app.
Qed.

(** White space before a group of characters that are no white space. *)
Lemma run_ws_group {R} (c : cls) (r : regex) (s : text) (caps : list text)
    (k : text -> list text -> option R) :
  (forall x, is_space x = true -> cls_test c x = false) ->
  run (Cat (Rep Star ClsSpace) (Cat (Group (Rep Plus c)) r)) s caps k =
    run (Cat (Group (Rep Plus c)) r) (skip_while is_space s) caps k.
Proof.
  intros Hc. cbn [run].
  rewrite (greedy_det (cls_test ClsSpace)); [reflexivity|].
  intros x t Hx _. by rewrite (Hc x Hx).
Qed.

Lemma digit_not_space (x : char) : is_space x = true -> is_digit x = false.
Proof.
  unfold is_digit. intros Hx.
  destruct (N.leb_spec 48 x) as [H1|H1]; [|reflexivity].
  destruct (N.leb_spec x 57) as [H2|H2]; [|reflexivity].
  exfalso.
  assert (x = 48 \/ x = 49 \/ x = 50 \/ x = 51 \/ x = 52 \/ x = 53 \/ x = 54
          \/ x = 55 \/ x = 56 \/ x = 57)%N as Hcases by lia.
  repeat (destruct Hcases as [->|Hcases]; [discriminate Hx|]).
  subst x. discriminate Hx.
Qed.

Lemma unquoted_class (t : text) :
  unquoted t ->
  Forall (fun x => cls_test (ClsNoneOf [QUOTE]) x = true) t /\ t <> [].
Proof.
  intros [Hne Hq]. split; [|done]. apply Forall_forall. intros x Hx.
  simpl. unfold char_in. simpl.
  destruct (N.eqb_spec x QUOTE) as [->|]; [done | reflexivity].
Qed.

(** *** Clean texts *)

Lemma has_delimiter_prefix (t : text) :
  has_delimiter t = false -> strip_prefix delimiter t = None.
Proof.
  intros H. destruct t as [|c t]; cbn [has_delimiter] in H;
    by destruct (strip_prefix delimiter _).
Qed.

Lemma has_delimiter_tail (c : char) (t : text) :
  has_delimiter (c :: t) = false -> has_delimiter t = false.
Proof.
  cbn [has_delimiter]. by destruct (strip_prefix delimiter (c :: t)).
Qed.

Lemma clean_tail (c : char) (t : text) : clean (c :: t) -> clean t.
Proof.
  intros [Hd Hl]. split; [by eapply has_delimiter_tail|].
  destruct t as [|c' t]; [done|]. by rewrite last_cons_cons in Hl.
Qed.

Lemma clean_skip_while (p : char -> bool) (t : text) :
  clean t -> clean (skip_while p t).
Proof.
  induction t as [|c t IH]; [done|]. intros Hc. simpl.
  destruct (p c); [|done]. apply IH. by eapply clean_tail.
Qed.

(** A run of dashes that is a prefix of [t ++ x] but not of [t] covers [t]:
    then [t] ends with a dash. *)
Lemma dashes_cover (n : nat) (t x r : text) :
  strip_prefix (replicate n DASH) (t ++ x) = Some r ->
  strip_prefix (replicate n DASH) t = None ->
  t <> [] -> last t = Some DASH.
Proof.
  revert t. induction n as [|n IH]; intros t H1 H2 Hne; [discriminate|].
  destruct t as [|c t]; [congruence|].
  cbn [replicate app strip_prefix] in H1, H2.
  destruct (N.eqb_spec DASH c) as [<-|]; [|discriminate].
  destruct t as [|c' t]; [reflexivity|].
  rewrite last_cons_cons. by apply IH.
Qed.

(** No delimiter starts inside a clean text, whatever follows it. *)
Lemma clean_no_prefix (t x : text) :
  clean t -> t <> [] -> strip_prefix delimiter (t ++ x) = None.
Proof.
  intros [Hd Hl] Hne.
  destruct (strip_prefix delimiter (t ++ x)) as [r|] eqn:E; [|reflexivity].
  exfalso. apply Hl.
  apply (dashes_cover 50 t x r); [exact E | | done].
  by apply has_delimiter_prefix.
Qed.

Lemma find_delimiter_eq (s : text) :
  find_delimiter s =
    match strip_prefix delimiter s with
    | Some r => Some ([], r)
    | None =>
        match s with
        | [] => None
        | c :: s' =>
            match find_delimiter s' with
            | Some (u, r) => Some (c :: u, r)
            | None => None
            end
        end
    end.
Proof. by destruct s. Qed.

Lemma find_delimiter_clean (u rest : text) :
  clean u -> find_delimiter (u ++ delimiter ++ rest) = Some (u, rest).
Proof.
  induction u as [|c u IH]; intros Hc; rewrite find_delimiter_eq.
  - change ([] ++ delimiter ++ rest) with (delimiter ++ rest).
    by rewrite strip_prefix_app.
  - rewrite clean_no_prefix by done.
    change ((c :: u) ++ delimiter ++ rest) with (c :: (u ++ delimiter ++ rest)).
    cbv beta iota. rewrite IH; [reflexivity|]. by eapply clean_tail.
Qed.

(** *** The expression on the text of a block *)

Lemma match_no_delimiter (s : text) :
  strip_prefix delimiter s = None -> match_at codeBlockRegex s = None.
Proof.
  intros H. unfold match_at, codeBlockRegex. cbn [cat].
  by rewrite run_chars, H.
Qed.

Lemma digits_visible (t : text) :
  t <> [] -> digits t ->
  match t with x :: _ => negb (is_space x) | [] => false end = true.
Proof.
  intros Hne Hd. destruct t as [|x t]; [congruence|].
  apply Forall_cons_1 in Hd as [Hx _].
  destruct (is_space x) eqn:E; [|reflexivity].
  apply digit_not_space in E. congruence.
Qed.

Lemma skip_while_delimiter (t rest : text) :
  skip_while is_space (t ++ delimiter ++ rest) =
    skip_while is_space t ++ delimiter ++ rest.
Proof.
  change (delimiter ++ rest) with (DASH :: (replicate 49 DASH ++ rest)).
  by apply skip_while_app_stop.
Qed.

Ltac header_step Hg :=
  first
    [ rewrite run_ws_chars_app by first [apply Hg | reflexivity]
    | rewrite run_group_plus_app by first [assumption | reflexivity] ].

(** At the opening delimiter of a well-formed block the expression matches
    the block, with its values and its body as groups. *)
Lemma match_block (b : BlockText) (rest : text) :
  well_formed b ->
  match_at codeBlockRegex (render_block b ++ rest) = Some (groups_of b, rest).
Proof.
  intros (Hg & Hf & Hi & Ho & Hne & Hd & Hc).
  apply unquoted_class in Hf as [Hf Hf'].
  apply unquoted_class in Hi as [Hi Hi'].
  apply unquoted_class in Ho as [Ho Ho'].
  unfold match_at, codeBlockRegex, render_block, inner_text. cbn [cat].
  rewrite <- !app_assoc. rewrite run_chars_app.
  do 8 header_step Hg.
  rewrite run_ws_group by apply digit_not_space.
  rewrite (skip_while_lit is_space) by first [apply Hg | by apply digits_visible].
  do 5 header_step Hg.
  rewrite run_tail, skip_while_delimiter.
  rewrite find_delimiter_clean by by apply clean_skip_while.
  reflexivity.
Qed.

(** At the opening delimiter of a block whose [startLine] is not a number the
    expression does not match. *)
Lemma match_malformed (b : BlockText) (rest : text) :
  malformed b -> match_at codeBlockRegex (render_block b ++ rest) = None.
Proof.
  intros (Hg & Hf & Hi & Hn & Hc).
  apply unquoted_class in Hf as [Hf Hf'].
  apply unquoted_class in Hi as [Hi Hi'].
  unfold match_at, codeBlockRegex, render_block, inner_text. cbn [cat].
  rewrite <- !app_assoc. rewrite run_chars_app.
  do 8 header_step Hg.
  rewrite run_ws_group by apply digit_not_space.
  rewrite run_group_plus by reflexivity.
  destruct (startLine_text b) as [|c t] eqn:E.
  - change ([] ++ COMMA ++ ?x) with (COMMA ++ x).
    rewrite (skip_while_lit is_space) by first [apply Hg | reflexivity].
    reflexivity.
  - destruct Hn as [Hd Hs].
    change ((c :: t) ++ ?x) with (c :: (t ++ x)).
    rewrite skip_while_gap by first [apply Hg | done].
    cbn [take_while cls_test]. by rewrite Hd.
Qed.

(** At a delimiter that is followed by anything but white space and an
    opening brace the expression does not match. *)
Lemma match_no_brace (rest : text) :
  match skip_while is_space rest with
  | [] => True
  | c :: _ => [c] <> OPEN
  end ->
  match_at codeBlockRegex (delimiter ++ rest) = None.
Proof.
  intros H. unfold match_at, codeBlockRegex. cbn [cat].
  rewrite run_chars_app, run_ws_chars by reflexivity.
  rewrite run_chars. destruct (skip_while is_space rest) as [|c t]; [reflexivity|].
  change OPEN with [123%N] in *. cbn [strip_prefix].
  destruct (N.eqb_spec 123 c) as [<-|]; [by exfalso | reflexivity].
Qed.

(** *** The loop over the matches *)

Lemma exec_eq (r : regex) (s : text) :
  exec r s =
    match match_at r s with
    | Some m => Some m
    | None =>
        match s with
        | [] => None
        | _ :: s' => exec r s'
        end
    end.
Proof. by destruct s. Qed.

(** The continuation of a match is called on what is left of the text. *)
Lemma greedy_shorter {R} (p : char -> bool) (k : text -> option R) (s : text)
    (res : R) :
  greedy p s k = Some res ->
  exists s', (length s' <= length s)%nat /\ k s' = Some res.
Proof.
  induction s as [|c s IH]; simpl.
  - intros H. exists []. auto.
  - destruct (p c).
    + destruct (greedy p s k) as [r|] eqn:E.
      * intros [= <-]. destruct (IH eq_refl) as (s' & Hl & Hk).
        exists s'. split; [lia | done].
      * intros H. exists (c :: s). auto.
    + intros H. exists (c :: s). auto.
Qed.

Lemma lazy_shorter {R} (p : char -> bool) (k : text -> option R) (s : text)
    (res : R) :
  lazy p s k = Some res ->
  exists s', (length s' <= length s)%nat /\ k s' = Some res.
Proof.
  induction s as [|c s IH]; simpl.
  - destruct (k []) eqn:E; [|discriminate]. intros [= <-]. exists []. auto.
  - destruct (k (c :: s)) eqn:E.
    + intros [= <-]. exists (c :: s). auto.
    + destruct (p c); [|discriminate]. intros H.
      destruct (IH H) as (s' & Hl & Hk). exists s'. split; [lia | done].
Qed.

Lemma run_shorter {R} (r : regex) (s : text) (caps : list text)
    (k : text -> list text -> option R) (res : R) :
  run r s caps k = Some res ->
  exists s' caps', (length s' <= length s)%nat /\ k s' caps' = Some res.
Proof.
  revert s caps k. induction r as [l|q c|r IH|r1 IH1 r2 IH2]; intros s caps k H.
  - cbn [run] in H. destruct (strip_prefix l s) as [s'|] eqn:E; [|discriminate].
    apply strip_prefix_Some in E as ->. exists s', caps.
    rewrite length_app. split; [lia | done].
  - destruct q; cbn [run] in H.
    + apply greedy_shorter in H as (s' & Hl & Hk). by exists s', caps.
    + destruct s as [|x s]; [discriminate|].
      destruct (cls_test c x); [|discriminate].
      apply greedy_shorter in H as (s' & Hl & Hk). exists s', caps.
      split; [simpl; lia | done].
    + apply lazy_shorter in H as (s' & Hl & Hk). by exists s', caps.
  - cbn [run] in H. apply IH in H as (s' & caps' & Hl & Hk). eauto.
  - cbn [run] in H. apply IH1 in H as (s1 & caps1 & Hl1 & Hk1).
    apply IH2 in Hk1 as (s2 & caps2 & Hl2 & Hk2).
    exists s2, caps2. split; [lia | done].
Qed.

(** A match of the expression consumes a delimiter at least. *)
Lemma match_at_shorter (s : text) (groups : list text) (rest : text) :
  match_at codeBlockRegex s = Some (groups, rest) ->
  (length rest < length s)%nat.
Proof.
  unfold match_at, codeBlockRegex. cbn [cat]. rewrite run_chars.
  destruct (strip_prefix delimiter s) as [s1|] eqn:E; [|discriminate].
  apply strip_prefix_Some in E as ->. intros H.
  apply run_shorter in H as (s' & caps' & Hl & [= _ <-]).
  rewrite length_app. change (length delimiter) with 50%nat. lia.
Qed.

Lemma exec_shorter (s : text) (groups : list text) (rest : text) :
  exec codeBlockRegex s = Some (groups, rest) ->
  (length rest < length s)%nat.
Proof.
  induction s as [|c s IH]; rewrite exec_eq.
  - destruct (match_at codeBlockRegex []) as [m|] eqn:E; [|discriminate].
    intros [= ->]. by apply match_at_shorter in E.
  - destruct (match_at codeBlockRegex (c :: s)) as [m|] eqn:E.
    + intros [= ->]. by apply match_at_shorter in E.
    + intros H. apply IH in H. simpl. lia.
Qed.

(** The loop ends by itself: more fuel than the length of the text changes
    nothing. *)
Lemma matches_enough_fuel (f1 f2 : nat) (s : text) :
  (length s < f1)%nat -> (length s < f2)%nat -> matches f1 s = matches f2 s.
Proof.
  revert f2 s. induction f1 as [|f1 IH]; intros f2 s H1 H2; [lia|].
  destruct f2 as [|f2]; [lia|]. cbn [matches].
  destruct (exec codeBlockRegex s) as [[groups rest]|] eqn:E; [|reflexivity].
  apply exec_shorter in E. f_equal. apply IH; lia.
Qed.

(** The loop of [_saveGeneratedCode] handles the matches in their order. *)
Lemma saveLoop_matches (fuel : nat) (st : State) (s : text) :
  saveLoop fuel st s = fold_left processMatch (matches fuel s) st.
Proof.
  revert st s. induction fuel as [|fuel IH]; intros st s; [reflexivity|].
  cbn [saveLoop matches].
  destruct (exec codeBlockRegex s) as [[groups rest]|]; [|reflexivity].
  cbn [fold_left]. apply IH.
Qed.

Lemma saveGeneratedCode_blocks (st : State) (content : text) (iteration : Z) :
  _saveGeneratedCode st content iteration =
    fold_left processMatch (extractBlocks content) st.
Proof. apply saveLoop_matches. Qed.

(** *** The matches of a generated text *)

Lemma exec_skip_clean (t x : text) :
  clean t -> exec codeBlockRegex (t ++ x) = exec codeBlockRegex x.
Proof.
  induction t as [|c t IH]; intros Hc; [reflexivity|].
  rewrite exec_eq, match_no_delimiter by by apply clean_no_prefix.
  cbn [app]. apply IH. by eapply clean_tail.
Qed.

Lemma dashes_short (m n : nat) (x : text) :
  (n < m)%nat ->
  match x with [] => True | c :: _ => c <> DASH end ->
  strip_prefix (replicate m DASH) (replicate n DASH ++ x) = None.
Proof.
  revert m. induction n as [|n IH]; intros m Hlt Hx.
  - destruct m as [|m]; [lia|]. cbn [replicate app strip_prefix].
    destruct x as [|c x]; [reflexivity|].
    destruct (N.eqb_spec DASH c) as [<-|]; [done | reflexivity].
  - destruct m as [|m]; [lia|]. cbn [replicate app strip_prefix].
    rewrite N.eqb_refl. apply IH; [lia | done].
Qed.

Lemma exec_skip_dashes (n : nat) (x : text) :
  (n < 50)%nat ->
  match x with [] => True | c :: _ => c <> DASH end ->
  exec codeBlockRegex (replicate n DASH ++ x) = exec codeBlockRegex x.
Proof.
  intros Hn Hx. induction n as [|n IH]; [reflexivity|].
  rewrite exec_eq, match_no_delimiter by by apply dashes_short.
  cbn [replicate app]. apply IH. lia.
Qed.

Lemma has_delimiter_dashes (n : nat) (c : char) (t : text) :
  (n < 50)%nat -> c <> DASH -> has_delimiter (c :: t) = false ->
  has_delimiter (replicate n DASH ++ c :: t) = false.
Proof.
  intros Hn Hc Ht. induction n as [|n IH]; [done|].
  cbn [replicate app has_delimiter].
  change (DASH :: (replicate n DASH ++ c :: t))
    with (replicate (S n) DASH ++ c :: t).
  unfold delimiter. rewrite dashes_short by done. apply IH. lia.
Qed.

Lemma inner_text_head (b : BlockText) :
  (forall i, spaces (gap b i)) ->
  exists c t, inner_text b = c :: t /\ c <> DASH.
Proof.
  intros Hg. unfold inner_text. specialize (Hg 0%nat).
  destruct (gap b 0) as [|c g].
  - eexists _, _. split; [reflexivity | discriminate].
  - apply Forall_cons_1 in Hg as [Hc _]. eexists c, _.
    split; [reflexivity|]. by intros ->.
Qed.

(** After a malformed block the loop goes on with what follows it. *)
Lemma exec_malformed (b : BlockText) (rest : text) :
  malformed b -> after_malformed rest ->
  exec codeBlockRegex (render_block b ++ rest) = exec codeBlockRegex rest.
Proof.
  intros Hm [Hdash Hbrace].
  rewrite exec_eq, match_malformed by done.
  destruct Hm as (Hg & _ & _ & _ & Hd & Hl).
  destruct (inner_text_head b Hg) as (c & t & Ei & Hc).
  unfold render_block. rewrite <- !app_assoc.
  change (delimiter ++ ?x) with (DASH :: (replicate 49 DASH ++ x)) at 1.
  rewrite app_assoc, exec_skip_clean.
  - rewrite exec_eq, match_no_brace by done.
    change (delimiter ++ rest) with (DASH :: (replicate 49 DASH ++ rest)).
    by apply exec_skip_dashes; [lia|].
  - rewrite Ei in *. split.
    + by apply has_delimiter_dashes; [lia| |].
    + rewrite last_app_cons. exact Hl.
Qed.

Lemma matches_step (f : nat) (s1 s2 : text) :
  exec codeBlockRegex s1 = exec codeBlockRegex s2 ->
  matches (S f) s1 = matches (S f) s2.
Proof. intros H. cbn [matches]. by rewrite H. Qed.

Lemma render_block_length (b : BlockText) : (1 <= length (render_block b))%nat.
Proof.
  unfold render_block. rewrite length_app.
  change (length delimiter) with 50%nat. lia.
Qed.

(** The loop finds the well-formed blocks of a generated text, and nothing
    else, in their order. *)
Lemma matches_layout (segs : list segment) (fuel : nat) :
  well_formed_text segs -> (length (render segs) < fuel)%nat ->
  matches fuel (render segs) = map groups_of (blocks_of segs).
Proof.
  revert fuel. induction segs as [|seg segs IH]; intros fuel Hwf Hfuel.
  - destruct fuel as [|f]; [simpl in Hfuel; lia|]. cbn [matches render].
    rewrite exec_eq, match_no_delimiter; reflexivity.
  - destruct fuel as [|f]; [lia|]. cbn [render] in *.
    rewrite length_app in Hfuel.
    destruct seg as [t|b|b]; cbn [well_formed_text render_segment blocks_of map] in *.
    + destruct Hwf as [Hc Hwf].
      rewrite (matches_step f _ (render segs)) by by apply exec_skip_clean.
      apply IH; [done | lia].
    + destruct Hwf as [Hb Hwf]. cbn [matches].
      rewrite exec_eq, match_block by done. f_equal.
      pose proof (render_block_length b). apply IH; [done | lia].
    + destruct Hwf as (Hb & Ha & Hwf).
      rewrite (matches_step f _ (render segs)) by by apply exec_malformed.
      apply IH; [done | lia].
Qed.

Lemma extractBlocks_layout (segs : list segment) :
  well_formed_text segs ->
  extractBlocks (render segs) = map groups_of (blocks_of segs).
Proof. intros H. apply matches_layout; [done | lia]. Qed.

(** *** The number of a match *)

Lemma digit_cases (x : char) :
  is_digit x = true ->
  (x = 48 \/ x = 49 \/ x = 50 \/ x = 51 \/ x = 52 \/ x = 53 \/ x = 54
   \/ x = 55 \/ x = 56 \/ x = 57)%N.
Proof.
  unfold is_digit. intros H. apply andb_prop in H as [H1 H2].
  apply N.leb_le in H1, H2. lia.
Qed.

Lemma digit_value_decimal (x : char) :
  is_digit x = true -> digit_value 10 x = Some (Z.of_N x - 48).
Proof.
  intros H. apply digit_cases in H.
  repeat (destruct H as [->|H]; [reflexivity|]). by subst x.
Qed.

Lemma read_digits_decimal (t : text) (acc : option Z) :
  digits t -> t <> [] ->
  read_digits 10 acc t =
    Some (fold_left (fun a c => 10 * a + (Z.of_N c - 48)) t
            (match acc with Some a => a | None => 0 end)).
Proof.
  revert acc. induction t as [|x t IH]; intros acc Hd Hne; [congruence|].
  apply Forall_cons_1 in Hd as [Hx Hd]. cbn [read_digits fold_left].
  rewrite digit_value_decimal by done.
  destruct t as [|y t]; [reflexivity|]. by rewrite IH.
Qed.

(** [parseInt] of the digits that the group of [startLine] holds is their
    decimal value: it is never [NaN]. *)
Lemma parseInt_digits (t : text) :
  digits t -> t <> [] -> parseInt t = Some (decimal t).
Proof.
  intros Hd Hne. pose proof (read_digits_decimal t None Hd Hne) as Hr.
  destruct t as [|x t]; [congruence|].
  pose proof Hd as Hd'. apply Forall_cons_1 in Hd' as [Hx Ht].
  unfold parseInt, trimStart, decimal.
  assert (skip_while is_space (x :: t) = x :: t) as ->.
  { simpl. destruct (is_space x) eqn:E; [|done].
    apply digit_not_space in E. congruence. }
  assert (forall v, option_map (Z.mul 1) (Some v) = Some v) as Hone.
  { intros v. simpl. f_equal. lia. }
  destruct t as [|y t].
  - apply digit_cases in Hx.
    repeat (destruct Hx as [->|Hx]; [by rewrite <- (Hone _), <- Hr|]).
    subst x. by rewrite <- (Hone _), <- Hr.
  - apply Forall_cons_1 in Ht as [Hy _].
    apply digit_cases in Hx.
    repeat (destruct Hx as [->|Hx]; [|]).
    all: try subst x.
    2-10: by rewrite <- (Hone _), <- Hr.
    apply digit_cases in Hy.
    repeat (destruct Hy as [->|Hy]; [by rewrite <- (Hone _), <- Hr|]).
    subst y. by rewrite <- (Hone _), <- Hr.
Qed.

Lemma fold_decimal_nonneg (t : text) (a : Z) :
  0 <= a -> digits t ->
  0 <= fold_left (fun a c => 10 * a + (Z.of_N c - 48)) t a.
Proof.
  revert a. induction t as [|x t IH]; intros a Ha Hd; [done|].
  apply Forall_cons_1 in Hd as [Hx Hd]. cbn [fold_left]. apply IH; [|done].
  apply digit_cases in Hx. lia.
Qed.

Lemma decimal_nonneg (t : text) : digits t -> 0 <= decimal t.
Proof. intros Hd. by apply fold_decimal_nonneg. Qed.

Lemma trim_skip_while (t : text) : trim (skip_while is_space t) = trim t.
Proof.
  unfold trim, trimStart. f_equal.
  induction t as [|c t IH]; [reflexivity|]. simpl.
  destruct (is_space c) eqn:E; [done|]. simpl. by rewrite E.
Qed.

(** The block built from the match of a well-formed block text. *)
Lemma blockOfMatch_block (out : text) (b : BlockText) :
  well_formed b ->
  blockOfMatch out (groups_of b) = Some (block_of out b).
Proof.
  intros (_ & _ & _ & _ & Hne & Hd & _).
  unfold blockOfMatch, groups_of, block_of, makeCodeBlock.
  rewrite parseInt_digits by done. by rewrite trim_skip_while.
Qed.

Lemma well_formed_blocks_of (segs : list segment) :
  well_formed_text segs -> Forall well_formed (blocks_of segs).
Proof.
  induction segs as [|[t|b|b] segs IH]; cbn [well_formed_text blocks_of].
  - constructor.
  - intros [_ H]. auto.
  - intros [Hb H]. constructor; auto.
  - intros (_ & _ & H). auto.
Qed.

Lemma parsedBlocks_layout (out : text) (segs : list segment) :
  well_formed_text segs ->
  parsedBlocks out (render segs) = map (block_of out) (blocks_of segs).
Proof.
  intros Hwf. unfold parsedBlocks. rewrite extractBlocks_layout by done.
  apply well_formed_blocks_of in Hwf.
  induction Hwf as [|b bs Hb _ IH]; [reflexivity|].
  cbn [map].
  change (omap (blockOfMatch out) (groups_of b :: map groups_of bs))
    with (match blockOfMatch out (groups_of b) with
          | Some y => y :: omap (blockOfMatch out) (map groups_of bs)
          | None => omap (blockOfMatch out) (map groups_of bs)
          end).
  by rewrite blockOfMatch_block, IH.
Qed.

Lemma same_conversation_refl (st : State) : same_conversation st st.
Proof. by repeat split. Qed.

Lemma same_conversation_trans (st1 st2 st3 : State) :
  same_conversation st1 st2 -> same_conversation st2 st3 ->
  same_conversation st1 st3.
Proof.
  intros (?&?&?&?&?&?) (?&?&?&?&?&?). repeat split; congruence.
Qed.

Lemma applyParsed_conversation (st : State) (parsed : text * CodeBlock.t) :
  same_conversation st (applyParsed st parsed).
Proof. destruct parsed. by repeat split. Qed.

Lemma processMatch_conversation (st : State) (groups : list text) :
  same_conversation st (processMatch st groups).
Proof.
  unfold processMatch. destruct (blockOfMatch _ _).
  - apply applyParsed_conversation.
  - apply same_conversation_refl.
Qed.

Lemma fold_processMatch_conversation (l : list (list text)) (st : State) :
  same_conversation st (fold_left processMatch l st).
Proof.
  revert st. induction l as [|g l IH]; intros st.
  - apply same_conversation_refl.
  - cbn [fold_left]. eapply same_conversation_trans; [|apply IH].
    apply processMatch_conversation.
Qed.

Lemma saveGeneratedCode_conversation (st : State) (content : text) (i : Z) :
  same_conversation st (_saveGeneratedCode st content i).
Proof.
  rewrite saveGeneratedCode_blocks. apply fold_processMatch_conversation.
Qed.

Lemma fold_processMatch_parsed (l : list (list text)) (st : State) :
  fold_left processMatch l st =
    fold_left applyParsed (omap (blockOfMatch (_outputPath st)) l) st.
Proof.
  revert st. induction l as [|g l IH]; intros st; [reflexivity|].
  cbn [fold_left].
  change (omap (blockOfMatch (_outputPath st)) (g :: l))
    with (match blockOfMatch (_outputPath st) g with
          | Some y => y :: omap (blockOfMatch (_outputPath st)) l
          | None => omap (blockOfMatch (_outputPath st)) l
          end).
  rewrite IH. unfold processMatch at 1 2.
  destruct (blockOfMatch (_outputPath st) g) as [parsed|]; [|reflexivity].
  by destruct parsed.
Qed.

(** [_saveGeneratedCode] applies the blocks of the text in their order. *)
Lemma saveGeneratedCode_parsed (st : State) (content : text) (i : Z) :
  _saveGeneratedCode st content i =
    fold_left applyParsed (parsedBlocks (_outputPath st) content) st.
Proof. rewrite saveGeneratedCode_blocks. apply fold_processMatch_parsed. Qed.

(** ** The turns of the conversation *)

Lemma generateResponse_history (st st' : State) (sp um : text) (g : bool)
    (r : option text) :
  _generateResponse st sp um g = (st', r) ->
  _currentIteration st' = _currentIteration st
  /\ _maxIterations st' = _maxIterations st
  /\ requests st' =
       requests st
         ++ [mkRequest g (Message.mk system sp :: _conversationHistory st
                            ++ [Message.mk user um])]
  /\ match r with
     | Some a =>
         _conversationHistory st' =
           _conversationHistory st ++ [Message.mk user um; Message.mk assistant a]
     | None => _conversationHistory st' = _conversationHistory st
     end.
Proof.
  unfold _generateResponse. destruct (chat _ _); intros [= <- <-]; by repeat split.
Qed.

Lemma generateResponse_responsive (st : State) (sp um : text) (g : bool) :
  responsive ->
  exists st' a, _generateResponse st sp um g = (st', Some a) /\ truthy a = true.
Proof.
  intros Hr. unfold _generateResponse.
  destruct (chat _ _) as [|c] eqn:E; [by apply Hr in E|].
  eexists _, _. split; [reflexivity|].
  destruct c as [t|]; [|reflexivity]. by destruct t.
Qed.

Lemma callKinds_generateResponse (st st' : State) (sp um : text) (g : bool)
    (r : option text) :
  _generateResponse st sp um g = (st', r) -> callKinds st' = callKinds st ++ [g].
Proof.
  intros H. apply generateResponse_history in H as (_ & _ & Hreq & _).
  unfold callKinds. by rewrite Hreq, map_app.
Qed.

(** One turn of the loop when the service answers: the iteration counter
    moves by one, and the transcript grows by the two entries of the generate
    call and, unless the turn is the last one, the two entries of the review
    call. *)
Lemma round_responsive (st : State) (prompt request : text) :
  responsive ->
  exists st' request' response,
    round st prompt request = (st', Some request')
    /\ _currentIteration st' = _currentIteration st + 1
    /\ _maxIterations st' = _maxIterations st
    /\ if _currentIteration st <? _maxIterations st - 1 then
         exists review,
           _conversationHistory st' =
             _conversationHistory st
               ++ [Message.mk user request; Message.mk assistant response;
                   Message.mk user []; Message.mk assistant review]
           /\ callKinds st' = callKinds st ++ [true; false]
       else
         _conversationHistory st' =
           _conversationHistory st
             ++ [Message.mk user request; Message.mk assistant response]
         /\ callKinds st' = callKinds st ++ [true].
Proof.
  intros Hr. unfold round.
  destruct (generateResponse_responsive st
              (generatorSystemPrompt
                 (if _currentIteration st =? 0 then prompt else improveInstruction))
              request true Hr) as (st1 & response & E1 & Ht1).
  rewrite E1, Ht1.
  pose proof (callKinds_generateResponse _ _ _ _ _ _ E1) as Hk1.
  apply generateResponse_history in E1 as (Hi1 & Hm1 & _ & Hh1).
  pose proof (saveGeneratedCode_conversation st1 response (_currentIteration st1))
    as (Hh2 & Hi2 & Hm2 & _ & Hq2 & _).
  set (st2 := _saveGeneratedCode st1 response (_currentIteration st1)) in *.
  assert (callKinds st2 = callKinds st1) as Hk2 by (unfold callKinds; congruence).
  rewrite Hi2, Hm2, Hi1, Hm1. clearbody st2.
  destruct (_currentIteration st <? _maxIterations st - 1) eqn:Elast.
  - destruct (generateResponse_responsive st2 (reviewPrompt response) [] false Hr)
      as (st3 & review & E3 & Ht3).
    rewrite E3.
    pose proof (callKinds_generateResponse _ _ _ _ _ _ E3) as Hk3.
    apply generateResponse_history in E3 as (Hi3 & Hm3 & _ & Hh3).
    eexists _, _, response. split; [reflexivity|].
    cbn. repeat split; [congruence | congruence |].
    exists review. split.
    + rewrite Hh3, Hh2, Hh1, <- app_assoc. reflexivity.
    + change (callKinds st3 = callKinds st ++ [true; false]).
      rewrite Hk3, Hk2, Hk1, <- app_assoc. reflexivity.
  - eexists _, _, response. split; [reflexivity|].
    cbn. repeat split; [congruence | congruence |].
    change (callKinds st2 = callKinds st ++ [true]). congruence.
Qed.

Lemma alternation_step (k : nat) :
  alternation (S (S k)) = true :: false :: alternation (S k).
Proof. reflexivity. Qed.

(** The loop when the service answers: it ends when the counter has reached
    [_maxIterations], after generate and review calls in turn. *)
Lemma generateAndReview_responsive (fuel : nat) (st : State)
    (prompt request : text) :
  responsive ->
  (Z.to_nat (_maxIterations st - _currentIteration st) <= fuel)%nat ->
  exists st',
    _generateAndReview fuel st prompt request = (st', Finished)
    /\ _maxIterations st' = _maxIterations st
    /\ _currentIteration st' = Z.max (_currentIteration st) (_maxIterations st)
    /\ callKinds st' =
         callKinds st
           ++ alternation (Z.to_nat (_maxIterations st - _currentIteration st))
    /\ roles (_conversationHistory st') =
         roles (_conversationHistory st)
           ++ entry_roles
                (alternation
                   (Z.to_nat (_maxIterations st - _currentIteration st))).
Proof.
  intros Hr. revert st request.
  induction fuel as [|fuel IH]; intros st request Hfuel.
  - cbn [_generateAndReview].
    destruct (_currentIteration st <? _maxIterations st) eqn:E; [lia|].
    exists st. replace (Z.to_nat _) with 0%nat by lia.
    cbn [alternation entry_roles flat_map]. rewrite !app_nil_r.
    repeat split. lia.
  - cbn [_generateAndReview].
    destruct (_currentIteration st <? _maxIterations st) eqn:E.
    + destruct (round_responsive st prompt request Hr)
        as (st1 & request' & response & Eround & Hi & Hm & Hcase).
      rewrite Eround.
      destruct (IH st1 request') as (st' & Erun & Hm' & Hi' & Hk' & Hh');
        [rewrite Hi, Hm; lia|].
      exists st'. rewrite Erun, Hm', Hi', Hk', Hh', Hi, Hm.
      repeat split; [lia | |].
      * destruct (_currentIteration st <? _maxIterations st - 1) eqn:Elast.
        -- destruct Hcase as (review & _ & ->).
           replace (Z.to_nat (_maxIterations st - _currentIteration st))
             with (S (S (Z.to_nat (_maxIterations st - (_currentIteration st + 1) - 1))))
             by lia.
           replace (Z.to_nat (_maxIterations st - (_currentIteration st + 1)))
             with (S (Z.to_nat (_maxIterations st - (_currentIteration st + 1) - 1)))
             by lia.
           rewrite alternation_step, <- app_assoc. reflexivity.
        -- destruct Hcase as (_ & ->).
           replace (Z.to_nat (_maxIterations st - _currentIteration st))
             with 1%nat by lia.
           replace (Z.to_nat (_maxIterations st - (_currentIteration st + 1)))
             with 0%nat by lia.
           by rewrite <- app_assoc.
      * destruct (_currentIteration st <? _maxIterations st - 1) eqn:Elast.
        -- destruct Hcase as (review & -> & _).
           replace (Z.to_nat (_maxIterations st - _currentIteration st))
             with (S (S (Z.to_nat (_maxIterations st - (_currentIteration st + 1) - 1))))
             by lia.
           replace (Z.to_nat (_maxIterations st - (_currentIteration st + 1)))
             with (S (Z.to_nat (_maxIterations st - (_currentIteration st + 1) - 1)))
             by lia.
           rewrite alternation_step. unfold roles.
           rewrite map_app, <- app_assoc. reflexivity.
        -- destruct Hcase as (-> & _).
           replace (Z.to_nat (_maxIterations st - _currentIteration st))
             with 1%nat by lia.
           replace (Z.to_nat (_maxIterations st - (_currentIteration st + 1)))
             with 0%nat by lia.
           unfold roles. rewrite map_app, <- app_assoc. reflexivity.
    + exists st. replace (Z.to_nat _) with 0%nat by lia.
      cbn [alternation entry_roles flat_map]. rewrite !app_nil_r.
      repeat split. lia.
Qed.



(** A turn of the loop that does not fail moves the counter by one and
    leaves [_maxIterations] as it is. *)
Lemma round_counter (st st' : State) (prompt request request' : text) :
  round st prompt request = (st', Some request') ->
  _currentIteration st' = _currentIteration st + 1
  /\ _maxIterations st' = _maxIterations st.
Proof.
  unfold round.
  destruct (_generateResponse st _ request true) as [st1 [response|]] eqn:E1;
    [|discriminate].
  apply generateResponse_history in E1 as (Hi1 & Hm1 & _).
  assert (same_conversation st1
            (if truthy response
             then _saveGeneratedCode st1 response (_currentIteration st1)
             else st1)) as (_ & Hi2 & Hm2 & _).
  { destruct (truthy response);
      [apply saveGeneratedCode_conversation | apply same_conversation_refl]. }
  set (st2 := if truthy response then _ else _) in *. clearbody st2.
  destruct (_currentIteration st2 <? _maxIterations st2 - 1).
  - destruct (_generateResponse st2 _ [] false) as [st3 [review|]] eqn:E3;
      [|discriminate].
    apply generateResponse_history in E3 as (Hi3 & Hm3 & _).
    intros [= <- _]. cbn. split; congruence.
  - intros [= <- _]. cbn. split; congruence.
Qed.

(** The fuel of [_startCodeGeneration] is enough: the loop ends because the
    counter has reached [_maxIterations], or because a call has failed. *)
Lemma generateAndReview_fuel (fuel : nat) (st : State) (prompt request : text) :
  (Z.to_nat (_maxIterations st - _currentIteration st) <= fuel)%nat ->
  snd (_generateAndReview fuel st prompt request) <> OutOfFuel.
Proof.
  revert st request. induction fuel as [|fuel IH]; intros st request Hfuel;
    cbn [_generateAndReview];
    destruct (_currentIteration st <? _maxIterations st) eqn:E;
    try discriminate; [lia|].
  destruct (round st prompt request) as [st' [request'|]] eqn:Eround;
    [|discriminate].
  apply round_counter in Eround as [Hi Hm]. apply IH. rewrite Hi, Hm. lia.
Qed.

(** ** The claims about the patch engine

    C1, C2 and C6 stand further down, after the lemmas on lines and texts
    that their statements use. *)

Lemma currentLines_single (fs : FS) (p : text) :
  Forall single_line (currentLines fs p).
Proof.
  unfold currentLines. destruct (fileExists fs p); [|constructor].
  apply split_nl_lines_single.
Qed.

Lemma currentLines_written (fs fs' : FS) (p : text) (ls : list text) :
  files fs' = <[p := join_nl ls]> (files fs) ->
  ls <> [] -> Forall single_line ls -> currentLines fs' p = ls.
Proof.
  intros Hf Hne Hs.
  rewrite (currentLines_lookup fs' p (join_nl ls)).
  - by apply split_nl_join_nl.
  - rewrite Hf. apply lookup_insert_eq.
Qed.

(** The range of a block built by [_saveGeneratedCode] holds two lines at
    least: its last line is the first line plus the number of lines of the
    content, and a content has one line at least. *)
Lemma makeCodeBlock_range (out file id : text) (startLine : Z) (code : text) :
  let b := makeCodeBlock out file id startLine code in
  CodeBlock.startLine b = startLine
  /\ CodeBlock.content b = trim code
  /\ CodeBlock.endLine b =
       startLine + Z.of_nat (length (split_nl (trim code)))
  /\ CodeBlock.startLine b + 1 <= CodeBlock.endLine b.
Proof.
  cbn. repeat split. pose proof (split_nl_length_pos (trim code)). lia.
Qed.

(** With a content of one line the range holds two lines. *)
Remark parsed_single_line_range (out file id : text) (startLine : Z)
    (code : text) :
  single_line (trim code) ->
  CodeBlock.endLine (makeCodeBlock out file id startLine code) = startLine + 1.
Proof.
  intros H. cbn. by rewrite split_nl_single_line.
Qed.

(** The lines of the file after a [modify] with a content of one line. *)
Lemma modify_lines (fs : FS) (p : text) (b : CodeBlock.t) :
  0 < CodeBlock.startLine b ->
  CodeBlock.startLine b <= CodeBlock.endLine b ->
  CodeBlock.endLine b <= Z.of_nat (length (currentLines fs p)) ->
  single_line (CodeBlock.content b) ->
  currentLines
    (_handleFileModification fs (FileModification.mk p [b] (js "modify"))) p =
    take (Z.to_nat (CodeBlock.startLine b - 1)) (currentLines fs p)
      ++ [CodeBlock.content b]
      ++ drop (Z.to_nat (CodeBlock.endLine b)) (currentLines fs p).
Proof.
  intros Hs Hse He Hone.
  apply (currentLines_written fs); [by apply modify_files | |].
  - by destruct (take _ _).
  - pose proof (currentLines_single fs p) as Hsingle.
    apply Forall_app. split; [by apply Forall_take|].
    constructor; [done | by apply Forall_drop].
Qed.

(** C4. A [modify] or [delete] block whose last line is beyond the lines of
    the target file is not applied: no file of the disk changes. *)
Theorem out_of_range_not_applied (fs : FS) (p op : text) (b : CodeBlock.t) :
  op = js "modify" \/ op = js "delete" ->
  Z.of_nat (length (currentLines fs p)) < CodeBlock.endLine b ->
  files (_handleFileModification fs (FileModification.mk p [b] op)) = files fs.
Proof.
  intros Hop He. rewrite guarded_noop.
  - apply files_ensureDirectory.
  - destruct Hop as [-> | ->]; discriminate.
  - destruct Hop as [-> | ->]; discriminate.
  - by right.
Qed.

(** C5. An [append] block on a missing or empty file leaves the file with the
    trimmed content of the block; on a file with a content that is not empty
    it leaves the former content, a line feed and the trimmed content. *)
Theorem append_content (fs : FS) (out file id : text) (startLine : Z)
    (code : text) :
  let b := makeCodeBlock out file id startLine code in
  let p := CodeBlock.filePath b in
  let fs' :=
    _handleFileModification fs (FileModification.mk p [b] (js "append")) in
  (files fs !! p = None \/ files fs !! p = Some [] ->
   files fs' !! p = Some (trim code))
  /\ (forall old, files fs !! p = Some old -> old <> [] ->
      files fs' !! p = Some (old ++ [LF] ++ trim code)).
Proof.
  intros b p fs'. unfold fs'. rewrite append_files. split.
  - intros [-> | ->]; apply lookup_insert_eq.
  - intros old -> Hne. rewrite lookup_insert_eq.
    destruct old; [congruence | reflexivity].
Qed.

(** C7, as the code has it.  A [delete] block with a positive start line and
    a last line within the file removes the lines from its start line to its
    last line, both included, and nothing else.  The last line of a block is
    its start line plus the number of lines of its content, one at least, so
    that the range holds two lines at least: applied to the lines [a], [b]
    and [c], the block with start line 2 and a content of one line removes the
    range [2,3] and leaves [a]. *)
Theorem delete_removes_range :
  (forall (fs : FS) (p : text) (b : CodeBlock.t),
      0 < CodeBlock.startLine b ->
      CodeBlock.startLine b <= CodeBlock.endLine b ->
      CodeBlock.endLine b <= Z.of_nat (length (currentLines fs p)) ->
      files (_handleFileModification fs
               (FileModification.mk p [b] (js "delete"))) =
        <[p := join_nl
                 (take (Z.to_nat (CodeBlock.startLine b - 1)) (currentLines fs p)
                    ++ drop (Z.to_nat (CodeBlock.endLine b)) (currentLines fs p))]>
          (files fs))
  /\ (forall (out file id : text) (startLine : Z) (code : text),
        startLine + 1
        <= CodeBlock.endLine (makeCodeBlock out file id startLine code))
  /\ (forall (fs : FS) (out file id code : text),
        let b := makeCodeBlock out file id 2 code in
        let p := CodeBlock.filePath b in
        single_line (trim code) ->
        currentLines fs p = [js "a"; js "b"; js "c"] ->
        CodeBlock.endLine b = 3
        /\ currentLines
             (_handleFileModification fs
                (FileModification.mk p [b] (js "delete"))) p
           = [js "a"]).
Proof.
  assert (forall t : string, single_line (js t) <-> bool_decide (LF ∉ js t))
    as Hdec by (intros t; symmetry; apply bool_decide_spec).
  split; [exact delete_files|]. split.
  - intros out file id startLine code.
    by destruct (makeCodeBlock_range out file id startLine code) as (<- & _ & _ & ?).
  - intros fs out file id code b p Hone Hl.
    assert (CodeBlock.endLine b = 3) as He
      by (unfold b; by rewrite parsed_single_line_range).
    split; [exact He|].
    eapply currentLines_written.
    + rewrite delete_files; rewrite ?He, ?Hl; [|cbn; lia|cbn; lia|simpl; lia].
      reflexivity.
    + discriminate.
    + repeat constructor; by apply Hdec.
Qed.

Lemma blocks_of_app (pre post : list segment) :
  blocks_of (pre ++ post) = blocks_of pre ++ blocks_of post.
Proof.
  induction pre as [|[t|b|b] pre IH]; cbn [app blocks_of]; by rewrite ?IH.
Qed.

(** A block whose start line is not positive and whose operation is not
    [append] writes nothing. *)
Lemma not_positive_noop (fs : FS) (p op : text) (b : CodeBlock.t) :
  CodeBlock.startLine b <= 0 -> op <> js "append" ->
  _handleFileModification fs (FileModification.mk p [b] op)
    = ensureDirectory fs p.
Proof.
  intros Hs Ha. destruct (decide (op = js "insert")) as [->|Hi].
  - rewrite handle_single, applyBlock_insert.
    by replace (CodeBlock.startLine b >? 0) with false by lia.
  - apply guarded_noop; auto.
Qed.

(** C3, as the code has it.  A block whose start line is 0 is extracted like
    any other block; when its operation is not [append] it changes no file
    (an [append] block is applied whatever its start line is).  A
    block whose start line is negative or no number does not match the
    expression: it is not extracted, and the blocks before and after it are
    extracted as if it were not there. *)
Theorem start_line_zero_or_not_a_number :
  (forall (st : State) (op : text) (cb : CodeBlock.t),
      CodeBlock.startLine cb <= 0 -> op <> js "append" ->
      files (disk (applyParsed st (op, cb))) = files (disk st))
  /\ (forall (st : State) (pre post : list segment) (b : BlockText)
        (iteration : Z),
        well_formed_text (pre ++ Malformed b :: post) ->
        parsedBlocks (_outputPath st) (render (pre ++ Malformed b :: post)) =
          map (block_of (_outputPath st)) (blocks_of pre ++ blocks_of post)
        /\ _saveGeneratedCode st (render (pre ++ Malformed b :: post)) iteration =
             fold_left applyParsed
               (map (block_of (_outputPath st)) (blocks_of pre ++ blocks_of post))
               st).
Proof.
  split.
  - intros st op cb Hs Ha. cbn [applyParsed with_disk with_codeBlocks disk].
    rewrite not_positive_noop by done. apply files_ensureDirectory.
  - intros st pre post b iteration Hwf.
    pose proof (parsedBlocks_layout (_outputPath st) _ Hwf) as Hp.
    rewrite blocks_of_app in Hp. cbn [blocks_of] in Hp.
    split; [exact Hp|]. by rewrite saveGeneratedCode_parsed, Hp.
Qed.

(** C10, as the code has it.  A [modify] or [delete] block (any block that is
    neither [append] nor [insert]) on a missing target creates no file and
    changes no file: all it does is to create the directory of the target
    when it is missing.  [append], and [insert] with a positive start line,
    create the file. *)
Theorem missing_target_not_created (fs : FS) (out file id : text)
    (startLine : Z) (code op : text) :
  let b := makeCodeBlock out file id startLine code in
  let p := CodeBlock.filePath b in
  files fs !! p = None ->
  (op <> js "append" -> op <> js "insert" ->
   _handleFileModification fs (FileModification.mk p [b] op)
     = ensureDirectory fs p
   /\ files (_handleFileModification fs (FileModification.mk p [b] op))
      = files fs)
  /\ files (_handleFileModification fs
              (FileModification.mk p [b] (js "append"))) !! p
     = Some (trim code)
  /\ (0 < startLine ->
      files (_handleFileModification fs
               (FileModification.mk p [b] (js "insert"))) !! p
      = Some (trim code)).
Proof.
  intros b p Habs.
  destruct (makeCodeBlock_range out file id startLine code)
    as (Hs & Hc & He & Hrange). fold b in Hs, Hc, He, Hrange.
  pose proof (currentLines_absent fs p Habs) as Hl.
  repeat split.
  - apply guarded_noop; [done | done |].
    rewrite Hl. simpl. destruct (Z.le_gt_cases (CodeBlock.startLine b) 0); lia.
  - rewrite guarded_noop; [apply files_ensureDirectory | done | done |].
    rewrite Hl. simpl. destruct (Z.le_gt_cases (CodeBlock.startLine b) 0); lia.
  - rewrite append_files, lookup_insert_eq, Habs. by rewrite Hc.
  - intros Hpos. rewrite insert_files by lia. rewrite lookup_insert_eq, Hl.
    rewrite take_nil, drop_nil. cbn [app join_nl]. by rewrite Hc.
Qed.

(** ** The claims about the conversation driver *)

Lemma alternation_counts (n : nat) :
  count_occ Bool.bool_dec (alternation (S n)) true = S n
  /\ count_occ Bool.bool_dec (alternation (S n)) false = n
  /\ last (alternation (S n)) = Some true.
Proof.
  induction n as [|n (IH1 & IH2 & IH3)]; [done|].
  rewrite alternation_step. cbn [count_occ].
  destruct (Bool.bool_dec true true); [|done].
  destruct (Bool.bool_dec false true); [done|].
  destruct (Bool.bool_dec true false); [done|].
  destruct (Bool.bool_dec false false); [|done].
  rewrite IH1, IH2. repeat split.
  rewrite <- IH3. by destruct n.
Qed.

Lemma startCodeGeneration_responsive (st : State) (codeRequest : text) :
  responsive -> 0 <= _maxIterations st ->
  let st' := _startCodeGeneration st codeRequest in
  let n := Z.to_nat (_maxIterations st) in
  _currentIteration st' = _maxIterations st
  /\ callKinds st' = callKinds st ++ alternation n
  /\ roles (_conversationHistory st') = entry_roles (alternation n).
Proof.
  intros Hr Hn st' n. unfold st', _startCodeGeneration.
  set (st0 := with_history [] (with_iteration 0 st)).
  destruct (generateAndReview_responsive (Z.to_nat (_maxIterations st0)) st0
              (generatorPrompt codeRequest) codeRequest Hr)
    as (st1 & Erun & Hm & Hi & Hk & Hh).
  { subst st0. cbn. lia. }
  rewrite Erun. subst st0. cbn in Hm, Hi, Hk, Hh.
  rewrite Z.sub_0_r in Hk, Hh. repeat split; [lia | exact Hk | exact Hh].
Qed.

(** C8. When the service answers, a run with a positive [maxIterations] N
    issues generate and review calls in turn, from a generate call to a
    generate call: N generate calls and N - 1 review calls, and it stops when
    the counter has reached N and not before.  For N = 1 the calls are one
    generate call; for N = 3 they are generate, review, generate, review,
    generate. *)
Theorem run_alternates (st : State) (codeRequest : text) :
  responsive -> 1 <= _maxIterations st ->
  let st' := _startCodeGeneration st codeRequest in
  let n := Z.to_nat (_maxIterations st) in
  callKinds st' = callKinds st ++ alternation n
  /\ count_occ Bool.bool_dec (alternation n) true = n
  /\ count_occ Bool.bool_dec (alternation n) false = (n - 1)%nat
  /\ last (alternation n) = Some true
  /\ _currentIteration st' = _maxIterations st
  /\ (_maxIterations st = 1 -> callKinds st' = callKinds st ++ [true])
  /\ (_maxIterations st = 3 ->
      callKinds st' = callKinds st ++ [true; false; true; false; true]).
Proof.
  intros Hr Hn st' n.
  destruct (startCodeGeneration_responsive st codeRequest Hr) as (Hi & Hk & _);
    [lia|]. fold st' n in Hi, Hk.
  assert (n = S (n - 1)) as En by (unfold n; lia).
  destruct (alternation_counts (n - 1)) as (Ht & Hf & Hl). rewrite <- En in *.
  repeat split; try done.
  - intros H1. rewrite Hk. unfold n. by rewrite H1.
  - intros H3. rewrite Hk. unfold n. by rewrite H3.
Qed.




(** ** Remarks on the blocks that come from a text

    [_handleFileModification] takes any block; the blocks that
    [_saveGeneratedCode] hands to it have a last line computed from the
    content, so that their range holds one line more than the content. *)

Remark parsed_delete_two_lines (fs : FS) (out file id : text) (startLine : Z)
    (code : text) :
  let b := makeCodeBlock out file id startLine code in
  let p := CodeBlock.filePath b in
  currentLines fs p = [js "a"; js "b"; js "c"] ->
  currentLines
    (_handleFileModification fs (FileModification.mk p [b] (js "delete"))) p
  <> [js "a"; js "c"].
Proof.
  intros b p Hl.
  destruct (makeCodeBlock_range out file id startLine code)
    as (Hs & _ & He & Hrange). fold b in Hs, He, Hrange.
  destruct (Z.le_gt_cases (CodeBlock.startLine b) 0) as [Hle|Hpos].
  { rewrite guarded_noop by (discriminate || by left).
    rewrite currentLines_ensureDirectory, Hl. discriminate. }
  destruct (Z.le_gt_cases (CodeBlock.endLine b)
              (Z.of_nat (length (currentLines fs p)))) as [Hin|Hout].
  2: { rewrite guarded_noop by (discriminate || (right; lia)).
       rewrite currentLines_ensureDirectory, Hl. discriminate. }
  pose proof (delete_files fs p b) as Hf.
  rewrite Hl in Hin, Hf. cbn [length] in Hin.
  assert ((CodeBlock.startLine b = 1 /\ CodeBlock.endLine b = 2)
          \/ (CodeBlock.startLine b = 1 /\ CodeBlock.endLine b = 3)
          \/ (CodeBlock.startLine b = 2 /\ CodeBlock.endLine b = 3))
    as [[E1 E2]|[[E1 E2]|[E1 E2]]] by lia;
    rewrite E1, E2 in Hf; specialize (Hf ltac:(lia) ltac:(lia) ltac:(simpl; lia));
    rewrite (currentLines_lookup _ p _ (eq_trans (f_equal (fun m => m !! p) Hf)
                                          (lookup_insert_eq _ _ _)));
    vm_compute; discriminate.
Qed.

(** ** Further properties of the patch engine

    *** What the expression matches

    The converse of [match_block]: where the expression matches, the text is
    the text of a well-formed block. *)

Lemma take_while_Forall (p : char -> bool) (s : text) :
  Forall (fun c => p c = true) (take_while p s).
Proof.
  induction s as [|c s IH]; simpl; [constructor|].
  destruct (p c) eqn:E; by constructor.
Qed.

Lemma skip_while_head (p : char -> bool) (s : text) :
  match skip_while p s with
  | x :: _ => p x = false
  | [] => True
  end.
Proof.
  induction s as [|c s IH]; simpl; [done|].
  destruct (p c) eqn:E; done.
Qed.

Lemma run_chars_inv {R} (l : text) (r : regex) (s : text) (caps : list text)
    (k : text -> list text -> option R) (res : R) :
  run (Cat (Chars l) r) s caps k = Some res ->
  exists s', s = l ++ s' /\ run r s' caps k = Some res.
Proof.
  rewrite run_chars.
  destruct (strip_prefix l s) as [s'|] eqn:E; [|discriminate].
  apply strip_prefix_Some in E. eauto.
Qed.

Lemma run_ws_chars_inv {R} (l : text) (r : regex) (s : text)
    (caps : list text) (k : text -> list text -> option R) (res : R) :
  starts_visible l = true ->
  run (Cat (Rep Star ClsSpace) (Cat (Chars l) r)) s caps k = Some res ->
  exists g s', spaces g /\ s = g ++ l ++ s' /\ run r s' caps k = Some res.
Proof.
  intros Hl. rewrite run_ws_chars by done. intros H.
  apply run_chars_inv in H as (s' & E & H).
  exists (take_while is_space s), s'. split; [apply take_while_Forall|].
  split; [|done]. by rewrite <- E, take_skip_while.
Qed.

Lemma run_group_plus_inv {R} (c : cls) (l : text) (r : regex) (s : text)
    (caps : list text) (k : text -> list text -> option R) (res : R) :
  starts_outside c l = true ->
  run (Cat (Group (Rep Plus c)) (Cat (Chars l) r)) s caps k = Some res ->
  exists u s',
    u <> [] /\ Forall (fun x => cls_test c x = true) u
    /\ s = u ++ l ++ s' /\ run r s' (caps ++ [u]) k = Some res.
Proof.
  intros Hl. rewrite run_group_plus by done.
  pose proof (take_while_Forall (cls_test c) s) as Hu.
  pose proof (take_skip_while (cls_test c) s) as Es.
  destruct (take_while (cls_test c) s) as [|x u] eqn:E; [discriminate|].
  intros H. apply run_chars_inv in H as (s' & E' & H).
  exists (x :: u), s'. repeat split; try done. by rewrite <- Es, E'.
Qed.

Lemma run_ws_group_inv {R} (c : cls) (l : text) (r : regex) (s : text)
    (caps : list text) (k : text -> list text -> option R) (res : R) :
  (forall x, is_space x = true -> cls_test c x = false) ->
  starts_outside c l = true ->
  run (Cat (Rep Star ClsSpace) (Cat (Group (Rep Plus c)) (Cat (Chars l) r)))
    s caps k = Some res ->
  exists g u s',
    spaces g /\ u <> [] /\ Forall (fun x => cls_test c x = true) u
    /\ s = g ++ u ++ l ++ s' /\ run r s' (caps ++ [u]) k = Some res.
Proof.
  intros Hc Hl. rewrite run_ws_group by done. intros H.
  apply run_group_plus_inv in H as (u & s' & Hne & Hu & E & H); [|done].
  exists (take_while is_space s), u, s'.
  split; [apply take_while_Forall|]. repeat split; try done.
  by rewrite <- E, take_skip_while.
Qed.

Lemma strip_prefix_app_Some (l s r x : text) :
  strip_prefix l s = Some r -> strip_prefix l (s ++ x) = Some (r ++ x).
Proof.
  intros H. apply strip_prefix_Some in H as ->.
  by rewrite <- app_assoc, strip_prefix_app.
Qed.

(** What [find_delimiter] finds: the text before the first delimiter holds no
    delimiter and does not end with a dash. *)
Lemma find_delimiter_Some (s u r : text) :
  find_delimiter s = Some (u, r) -> s = u ++ delimiter ++ r /\ clean u.
Proof.
  revert u. induction s as [|c s IH]; intros u; rewrite find_delimiter_eq.
  - destruct (strip_prefix delimiter []) eqn:E; [by vm_compute in E | discriminate].
  - destruct (strip_prefix delimiter (c :: s)) as [r'|] eqn:E.
    + intros [= <- ->]. apply strip_prefix_Some in E. by repeat split.
    + destruct (find_delimiter s) as [[u' r']|] eqn:Ef; [|discriminate].
      intros [= <- ->]. destruct (IH u' eq_refl) as [-> [Hd Hl]].
      split; [reflexivity|].
      assert (strip_prefix delimiter (c :: u') = None) as En.
      { destruct (strip_prefix delimiter (c :: u')) as [x|] eqn:E2; [|done].
        apply (strip_prefix_app_Some _ _ _ (delimiter ++ r)) in E2.
        cbn [app] in E2. congruence. }
      split.
      * cbn [has_delimiter]. by rewrite En.
      * destruct u' as [|d u']; [|exact Hl].
        cbn [last]. intros [= ->].
        change (DASH :: [] ++ delimiter ++ r) with (delimiter ++ DASH :: r) in E.
        by rewrite strip_prefix_app in E.
Qed.

Lemma clean_spaces_app (g u : text) : spaces g -> clean u -> clean (g ++ u).
Proof.
  intros Hg [Hd Hl]. split.
  - induction Hg as [|x g Hx Hg IH]; [done|].
    cbn [app has_delimiter]. by rewrite strip_delimiter_space.
  - rewrite last_app. destruct (last u) as [y|] eqn:E; [done|].
    intros Hlast. apply last_Some_elem_of in Hlast.
    eapply Forall_forall in Hg; [|exact Hlast]. by vm_compute in Hg.
Qed.

Lemma class_unquoted (t : text) :
  t <> [] -> Forall (fun x => cls_test (ClsNoneOf [QUOTE]) x = true) t ->
  unquoted t.
Proof.
  intros Hne Ht. split; [done|]. intros Hin.
  eapply Forall_forall in Ht; [|exact Hin]. by vm_compute in Ht.
Qed.

(** The gaps of a block text, from the list of the gaps. *)
Lemma spaces_nth (gs : list text) (i : nat) :
  Forall spaces gs -> spaces (nth i gs []).
Proof.
  intros H. revert i.
  induction H as [|g gs Hg H IH]; intros [|i]; simpl; try done;
    by constructor.
Qed.

Lemma match_at_block (s : text) (groups : list text) (rest : text) :
  match_at codeBlockRegex s = Some (groups, rest) ->
  exists b, well_formed b /\ s = render_block b ++ rest /\ groups = groups_of b.
Proof.
  unfold match_at, codeBlockRegex. cbn [cat]. intros H.
  apply run_chars_inv in H as (s0 & -> & H).
  apply run_ws_chars_inv in H as (g0 & s1 & Hg0 & -> & H); [|reflexivity].
  apply run_ws_chars_inv in H as (g1 & s2 & Hg1 & -> & H); [|reflexivity].
  apply run_ws_chars_inv in H as (g2 & s3 & Hg2 & -> & H); [|reflexivity].
  apply run_group_plus_inv in H as (file & s4 & Hf & Hf' & -> & H);
    [|reflexivity].
  apply run_ws_chars_inv in H as (g3 & s5 & Hg3 & -> & H); [|reflexivity].
  apply run_ws_chars_inv in H as (g4 & s6 & Hg4 & -> & H); [|reflexivity].
  apply run_group_plus_inv in H as (id & s7 & Hi & Hi' & -> & H);
    [|reflexivity].
  apply run_ws_chars_inv in H as (g5 & s8 & Hg5 & -> & H); [|reflexivity].
  apply run_ws_group_inv in H as (g6 & sl & s9 & Hg6 & Hn & Hn' & -> & H);
    [|apply digit_not_space|reflexivity].
  apply run_ws_chars_inv in H as (g7 & s10 & Hg7 & -> & H); [|reflexivity].
  apply run_ws_chars_inv in H as (g8 & s11 & Hg8 & -> & H); [|reflexivity].
  apply run_group_plus_inv in H as (op & s12 & Ho & Ho' & -> & H);
    [|reflexivity].
  apply run_ws_chars_inv in H as (g9 & s13 & Hg9 & -> & H); [|reflexivity].
  rewrite run_tail in H.
  destruct (find_delimiter (skip_while is_space s13)) as [[u r]|] eqn:Ef;
    [|discriminate].
  injection H as <- <-.
  pose proof (skip_while_head is_space s13) as Hhead.
  pose proof (take_skip_while is_space s13) as Es.
  pose proof (take_while_Forall is_space s13) as Hg10.
  apply find_delimiter_Some in Ef as [Eu Hu]. rewrite Eu in Hhead, Es.
  remember (take_while is_space s13) as ws eqn:Ews. clear Ews Eu.
  set (gs := [g0; g1; g2; g3; g4; g5; g6; g7; g8; g9]).
  exists (mkBlockText (fun i => nth i gs []) file id sl op (ws ++ u)).
  split; [|split].
  - split; [|split; [|split; [|split; [|split; [|split]]]]].
    + intros i. apply spaces_nth. unfold gs. by repeat constructor.
    + by apply class_unquoted.
    + by apply class_unquoted.
    + by apply class_unquoted.
    + done.
    + exact Hn'.
    + by apply clean_spaces_app.
  - rewrite <- Es. unfold render_block, inner_text.
    cbn [gap file_text blockId_text startLine_text operation_text body nth gs].
    by rewrite <- !app_assoc.
  - unfold groups_of.
    cbn [gap file_text blockId_text startLine_text operation_text body].
    cbn [app]. do 4 f_equal.
    destruct u as [|c u].
    + rewrite app_nil_r. by rewrite skip_while_all.
    + by rewrite skip_while_gap.
Qed.


Lemma exec_block (s : text) (groups : list text) (rest : text) :
  exec codeBlockRegex s = Some (groups, rest) ->
  exists pre b,
    well_formed b /\ s = pre ++ render_block b ++ rest /\ groups = groups_of b.
Proof.
  induction s as [|c s IH]; rewrite exec_eq.
  - destruct (match_at codeBlockRegex []) as [m|] eqn:E; [|discriminate].
    intros [= ->]. apply match_at_block in E as (b & Hb & E & Hg).
    by exists [], b.
  - destruct (match_at codeBlockRegex (c :: s)) as [m|] eqn:E.
    + intros [= ->]. apply match_at_block in E as (b & Hb & E & Hg).
      by exists [], b.
    + intros H. apply IH in H as (pre & b & Hb & -> & Hg).
      by exists (c :: pre), b.
Qed.

Lemma matches_blocks (fuel : nat) (s : text) :
  (length s < fuel)%nat ->
  exists pieces rest,
    s = pieces_text pieces ++ rest
    /\ Forall (fun p => well_formed (snd p)) pieces
    /\ matches fuel s = map (fun p => groups_of (snd p)) pieces
    /\ exec codeBlockRegex rest = None.
Proof.
  revert s. induction fuel as [|fuel IH]; intros s Hlt; [lia|].
  cbn [matches]. destruct (exec codeBlockRegex s) as [[groups rest]|] eqn:E.
  - pose proof (exec_shorter _ _ _ E) as Hs.
    apply exec_block in E as (pre & b & Hb & Es & ->).
    destruct (IH rest) as (pieces & tail & Er & Hw & Hm & Ht); [lia|].
    exists ((pre, b) :: pieces), tail. rewrite Hm. unfold pieces_text.
    cbn [flat_map fst snd map]. split; [|split; [by constructor | done]].
    rewrite Es, Er. unfold pieces_text. by rewrite <- !app_assoc.
  - by exists [], s.
Qed.

Lemma blocks_parse (out : text) (bs : list BlockText) :
  Forall well_formed bs ->
  omap (blockOfMatch out) (map groups_of bs) = map (block_of out) bs.
Proof.
  induction 1 as [|b bs Hb _ IH]; [reflexivity|].
  cbn [map]. rewrite <- IH.
  change (omap (blockOfMatch out) (groups_of b :: map groups_of bs))
    with (match blockOfMatch out (groups_of b) with
          | Some y => y :: omap (blockOfMatch out) (map groups_of bs)
          | None => omap (blockOfMatch out) (map groups_of bs)
          end).
  by rewrite blockOfMatch_block.
Qed.

(** *** Trimmed texts *)

Lemma skip_while_idem (p : char -> bool) (s : text) :
  skip_while p (skip_while p s) = skip_while p s.
Proof.
  induction s as [|c s IH]; simpl; [done|].
  destruct (p c) eqn:E; [done|]. simpl. by rewrite E.
Qed.

Lemma skip_while_fixed (p : char -> bool) (s : text) :
  match s with x :: _ => p x = false | [] => True end -> skip_while p s = s.
Proof. destruct s as [|x s]; simpl; [done|]. by intros ->. Qed.

Lemma trimEnd_spaces (s : text) : exists g, spaces g /\ s = trimEnd s ++ g.
Proof.
  unfold trimEnd. exists (reverse (take_while is_space (reverse s))). split.
  - apply Forall_reverse, take_while_Forall.
  - by rewrite <- reverse_app, take_skip_while, reverse_involutive.
Qed.

Lemma trim_head (s : text) :
  match trim s with x :: _ => is_space x = false | [] => True end.
Proof.
  unfold trim. pose proof (skip_while_head is_space s) as Hh.
  fold (trimStart s) in Hh.
  destruct (trimEnd_spaces (trimStart s)) as (g & _ & E).
  destruct (trimEnd (trimStart s)) as [|x t]; [done|].
  by rewrite E in Hh.
Qed.

Lemma trimEnd_idem (s : text) : trimEnd (trimEnd s) = trimEnd s.
Proof. unfold trimEnd. by rewrite reverse_involutive, skip_while_idem. Qed.

Lemma trim_idem (s : text) : trim (trim s) = trim s.
Proof.
  unfold trim at 1. unfold trimStart.
  rewrite skip_while_fixed by apply trim_head.
  unfold trim. apply trimEnd_idem.
Qed.

Lemma has_delimiter_app_l (a b : text) :
  has_delimiter (a ++ b) = false -> has_delimiter a = false.
Proof.
  induction a as [|c a IH].
  - intros _. reflexivity.
  - cbn [app has_delimiter].
    destruct (strip_prefix delimiter (c :: a ++ b)) as [r|] eqn:E;
      [discriminate|].
    destruct (strip_prefix delimiter (c :: a)) as [r|] eqn:E2.
    + apply (strip_prefix_app_Some _ _ _ b) in E2. cbn [app] in E2. congruence.
    + exact IH.
Qed.

Lemma has_delimiter_skip_while (p : char -> bool) (t : text) :
  has_delimiter t = false -> has_delimiter (skip_while p t) = false.
Proof.
  induction t as [|c t IH]; [done|]. intros H. cbn [skip_while].
  destruct (p c); [|done]. apply IH. by eapply has_delimiter_tail.
Qed.

Lemma has_delimiter_trim (t : text) :
  has_delimiter t = false -> has_delimiter (trim t) = false.
Proof.
  intros H. unfold trim.
  destruct (trimEnd_spaces (trimStart t)) as (g & _ & E).
  apply (has_delimiter_app_l _ g). rewrite <- E.
  by apply has_delimiter_skip_while.
Qed.

(** X1. Whatever the generated text is, the matches of the expression are
    texts of well-formed blocks: the text is a sequence of pieces, each of
    them some text followed by the text of a well-formed block, and a rest
    where the expression matches nowhere; the matches of the loop are the
    groups of these blocks, in their order, one for each block. *)
Theorem every_match_is_a_block (content : text) :
  exists (pieces : list (text * BlockText)) (rest : text),
    content = pieces_text pieces ++ rest
    /\ Forall (fun p => well_formed (snd p)) pieces
    /\ extractBlocks content = map (fun p => groups_of (snd p)) pieces
    /\ exec codeBlockRegex rest = None.
Proof. apply matches_blocks. lia. Qed.

(** The blocks of any text, from the pieces of the text. *)
Lemma parsedBlocks_pieces (out content : text) :
  exists bs,
    Forall well_formed bs
    /\ extractBlocks content = map groups_of bs
    /\ parsedBlocks out content = map (block_of out) bs.
Proof.
  destruct (matches_blocks (S (length content)) content)
    as (pieces & rest & _ & Hw & Hm & _); [lia|].
  exists (map snd pieces). split; [|split].
  - by apply Forall_fmap.
  - fold (extractBlocks content) in Hm. rewrite Hm.
    by rewrite <- list_fmap_compose.
  - unfold parsedBlocks. fold (extractBlocks content) in Hm. rewrite Hm.
    rewrite <- blocks_parse by by apply Forall_fmap.
    by rewrite <- list_fmap_compose.
Qed.

(** X2. No match of the expression is skipped: the start line of a match is
    a text of digits, so that [parseInt] never gives [NaN], and a block is
    built for every match.  Every block built from a text has a start line
    that is not negative, a content that is trimmed and holds no delimiter,
    and an identifier, an operation and a file name that are not empty.  When
    its last line is not beyond [MAX_SAFE_INTEGER], where the numbers of the
    code are the integers, the last line is the start line plus the number of
    the lines of the content, one more than the content has line feeds, so
    that the range holds two lines at least. *)
Theorem parse_never_skips (out content : text) :
  length (parsedBlocks out content) = length (extractBlocks content)
  /\ Forall
       (fun parsed =>
          let b := snd parsed in
          0 <= CodeBlock.startLine b
          /\ (CodeBlock.endLine b <= MAX_SAFE_INTEGER ->
              CodeBlock.endLine b =
                CodeBlock.startLine b
                + Z.of_nat (lineCount (CodeBlock.content b))
              /\ CodeBlock.startLine b < CodeBlock.endLine b)
          /\ trim (CodeBlock.content b) = CodeBlock.content b
          /\ has_delimiter (CodeBlock.content b) = false
          /\ CodeBlock.id b <> [] /\ fst parsed <> []
          /\ exists file,
               file <> [] /\ CodeBlock.filePath b = path_join out file)
       (parsedBlocks out content).
Proof.
  destruct (parsedBlocks_pieces out content) as (bs & Hw & Hm & ->).
  rewrite Hm, !length_map. split; [reflexivity|].
  apply Forall_fmap. eapply Forall_impl; [exact Hw|].
  intros b (_ & Hf & Hi & Ho & _ & Hd & Hc & _). cbn.
  rewrite lineCount_split_nl.
  split; [by apply decimal_nonneg|].
  split; [intros _; unfold lineCount; lia|].
  split; [apply trim_idem|].
  split; [by apply has_delimiter_trim|].
  split; [apply Hi|]. split; [apply Ho|].
  exists (file_text b). split; [apply Hf | reflexivity].
Qed.


(** *** What the handler touches *)

(** A turn of the loop over the blocks writes the target file or nothing, and
    leaves the directories as they are. *)
Lemma applyBlock_frame (op p ec : text) (acc : FS * list text)
    (b : CodeBlock.t) :
  let acc' := applyBlock op p ec acc b in
  dirs (fst acc') = dirs (fst acc)
  /\ delete p (files (fst acc')) = delete p (files (fst acc))
  /\ dom (files (fst acc)) ⊆ dom (files (fst acc')).
Proof.
  destruct acc as [fs ls]. unfold applyBlock.
  repeat first
    [ case_decide
    | match goal with |- context [if ?c then _ else _] => destruct c end ];
    cbn [fst writeFileSync appendFileSync files dirs];
    rewrite ?delete_insert_eq; repeat split; try done;
    apply dom_insert_subseteq.
Qed.

Lemma fold_applyBlock_frame (op p ec : text) (bs : list CodeBlock.t)
    (acc : FS * list text) :
  let acc' := fold_left (applyBlock op p ec) bs acc in
  dirs (fst acc') = dirs (fst acc)
  /\ delete p (files (fst acc')) = delete p (files (fst acc))
  /\ dom (files (fst acc)) ⊆ dom (files (fst acc')).
Proof.
  revert acc. induction bs as [|b bs IH]; intros acc; [done|].
  cbn [fold_left]. cbv zeta.
  destruct (IH (applyBlock op p ec acc b)) as (Hd & Hf & Hm).
  destruct (applyBlock_frame op p ec acc b) as (Hd' & Hf' & Hm').
  split; [congruence|]. split; [congruence|].
  etrans; [exact Hm' | exact Hm].
Qed.

Lemma handler_frame (fs : FS) (m : FileModification.t) :
  let p := FileModification.filePath m in
  let fs' := _handleFileModification fs m in
  delete p (files fs') = delete p (files fs)
  /\ dom (files fs) ⊆ dom (files fs')
  /\ dirs fs ⊆ dirs fs'
  /\ dirs fs' = dirs (ensureDirectory fs p).
Proof.
  intros p fs'. unfold fs', _handleFileModification. fold p.
  match goal with
  | |- context [fold_left ?f ?bs ?acc] =>
      destruct (fold_applyBlock_frame
                  (FileModification.operation m) p
                  (if fileExists (ensureDirectory fs p) p
                   then readFileSync (ensureDirectory fs p) p else [])
                  bs acc) as (Hd & Hf & Hm)
  end.
  cbn [fst] in Hd, Hf, Hm. rewrite files_ensureDirectory in Hf, Hm.
  split; [exact Hf|]. split; [exact Hm|]. split; [|exact Hd].
  rewrite Hd. apply dirs_ensureDirectory.
Qed.

(** X3. [_handleFileModification] touches the target file only, whatever the
    blocks and the operation are: every other file is as it was, no file is
    removed (the target may be new), no directory is removed, and the only
    directories that may be new are those made for the directory of the
    target. *)
Theorem handler_touches_target_only (fs : FS) (m : FileModification.t) :
  let p := FileModification.filePath m in
  let fs' := _handleFileModification fs m in
  delete p (files fs') = delete p (files fs)
  /\ dom (files fs) ⊆ dom (files fs')
  /\ dirs fs ⊆ dirs fs'
  /\ dirs fs' = dirs (ensureDirectory fs p).
Proof. apply handler_frame. Qed.

Lemma applyParsed_frame (st : State) (parsed : text * CodeBlock.t) :
  let p := CodeBlock.filePath (snd parsed) in
  let st' := applyParsed st parsed in
  delete p (files (disk st')) = delete p (files (disk st))
  /\ dom (files (disk st)) ⊆ dom (files (disk st'))
  /\ dirs (disk st) ⊆ dirs (disk st')
  /\ _codeBlocks st' =
       <[CodeBlock.id (snd parsed) := snd parsed]> (_codeBlocks st).
Proof.
  destruct parsed as [op b]. cbn [snd]. unfold applyParsed.
  cbn [disk with_disk with_codeBlocks _codeBlocks].
  destruct (handler_frame (disk st)
              (FileModification.mk (CodeBlock.filePath b) [b] op))
    as (Hf & Hm & Hd & _).
  by repeat split.
Qed.

Lemma fold_applyParsed_frame (l : list (text * CodeBlock.t)) (st : State) :
  let st' := fold_left applyParsed l st in
  dom (files (disk st)) ⊆ dom (files (disk st'))
  /\ dirs (disk st) ⊆ dirs (disk st')
  /\ forall q,
       q ∉ map (fun parsed => CodeBlock.filePath (snd parsed)) l ->
       files (disk st') !! q = files (disk st) !! q.
Proof.
  revert st. induction l as [|parsed l IH]; intros st; [done|].
  cbn [fold_left map]. cbv zeta.
  destruct (IH (applyParsed st parsed)) as (Hm & Hd & Hq).
  destruct (applyParsed_frame st parsed) as (Hf' & Hm' & Hd' & _).
  split; [etrans; [exact Hm' | exact Hm]|].
  split; [etrans; [exact Hd' | exact Hd]|].
  intros q Hn. apply not_elem_of_cons in Hn as [Hne Hn].
  rewrite Hq by done.
  rewrite <- (lookup_delete_ne (files (disk (applyParsed st parsed)))
                (CodeBlock.filePath (snd parsed)) q) by done.
  rewrite Hf'. by apply lookup_delete_ne.
Qed.

(** X4. [_saveGeneratedCode] removes no file and no directory, and the only
    files that it may write are the targets of the blocks of the text: a file
    at any other path is as it was. *)
Theorem save_touches_targets_only (st : State) (content : text)
    (iteration : Z) (q : text) :
  let st' := _saveGeneratedCode st content iteration in
  let targets :=
    map (fun parsed => CodeBlock.filePath (snd parsed))
      (parsedBlocks (_outputPath st) content) in
  dom (files (disk st)) ⊆ dom (files (disk st'))
  /\ dirs (disk st) ⊆ dirs (disk st')
  /\ (q ∉ targets -> files (disk st') !! q = files (disk st) !! q).
Proof.
  intros st' targets. unfold st'. rewrite saveGeneratedCode_parsed.
  destruct (fold_applyParsed_frame
              (parsedBlocks (_outputPath st) content) st) as (Hm & Hd & Hq).
  repeat split; try done. apply Hq.
Qed.

(** *** The table of the blocks *)

Lemma fold_applyParsed_codeBlocks (l : list (text * CodeBlock.t)) (st : State)
    (k : text) :
  _codeBlocks (fold_left applyParsed l st) !! k =
    match last (filter (fun b => CodeBlock.id b = k) (map snd l)) with
    | Some b => Some b
    | None => _codeBlocks st !! k
    end.
Proof.
  revert st. induction l as [|parsed l IH]; intros st; [reflexivity|].
  cbn [fold_left map]. rewrite IH, filter_cons.
  destruct (applyParsed_frame st parsed) as (_ & _ & _ & ->).
  case_decide as Hk.
  - destruct (filter _ (map snd l)) as [|b' l'] eqn:E.
    + cbn [last]. by rewrite <- Hk, lookup_insert_eq.
    + change (last (snd parsed :: b' :: l')) with (last (b' :: l')).
      destruct (last (b' :: l')) as [b''|] eqn:El; [done|].
      by apply last_None in El.
  - destruct (last _); [done|]. by rewrite lookup_insert_ne.
Qed.

(** X5. The table of the blocks after [_saveGeneratedCode]: under an
    identifier stands the last block of the text with this identifier, and
    the entry that was there when the text has no block with it.  Blocks
    with the same identifier replace each other, in a text and from a text to
    the next. *)
Theorem codeBlocks_last_wins (st : State) (content : text) (iteration : Z)
    (k : text) :
  _codeBlocks (_saveGeneratedCode st content iteration) !! k =
    match
      last (filter (fun b => CodeBlock.id b = k)
              (map snd (parsedBlocks (_outputPath st) content)))
    with
    | Some b => Some b
    | None => _codeBlocks st !! k
    end.
Proof. rewrite saveGeneratedCode_parsed. apply fold_applyParsed_codeBlocks. Qed.

(** *** Texts without a block *)

Lemma exec_no_delimiter (s : text) :
  has_delimiter s = false -> exec codeBlockRegex s = None.
Proof.
  induction s as [|c s IH]; intros H; rewrite exec_eq.
  - by rewrite match_no_delimiter.
  - rewrite match_no_delimiter by by apply has_delimiter_prefix.
    apply IH. by eapply has_delimiter_tail.
Qed.

Lemma saveGeneratedCode_no_delimiter (st : State) (content : text)
    (iteration : Z) :
  has_delimiter content = false ->
  _saveGeneratedCode st content iteration = st.
Proof.
  intros H. unfold _saveGeneratedCode. cbn [saveLoop].
  by rewrite exec_no_delimiter.
Qed.

(** X6. A text that holds no line of fifty dashes has no block:
    [_saveGeneratedCode] leaves the panel and the disk as they are.  The
    empty text and the text that stands for a missing answer are such
    texts. *)
Theorem no_delimiter_no_change (st : State) (content : text) (iteration : Z) :
  has_delimiter content = false ->
  _saveGeneratedCode st content iteration = st.
Proof. apply saveGeneratedCode_no_delimiter. Qed.


(** *** The lines after a block *)

Lemma split_nl_app (a b : text) :
  split_nl (a ++ LF :: b) = split_nl a ++ split_nl b.
Proof.
  induction a as [|c a IH]; [reflexivity|].
  cbn [app split_nl]. rewrite IH. destruct (N.eqb c LF); [reflexivity|].
  pose proof (split_nl_nonempty a). by destruct (split_nl a).
Qed.

Lemma split_join_concat (ls : list text) :
  ls <> [] -> split_nl (join_nl ls) = concat (map split_nl ls).
Proof.
  induction ls as [|l ls IH]; [done|]. intros _.
  destruct ls as [|l' ls].
  - cbn [join_nl map concat]. by rewrite app_nil_r.
  - rewrite join_nl_cons by done. rewrite split_nl_app, IH by done.
    reflexivity.
Qed.

Lemma concat_single_lines (ls : list text) :
  Forall single_line ls -> concat (map split_nl ls) = ls.
Proof.
  induction 1 as [|l ls Hl _ IH]; [reflexivity|].
  cbn [map concat]. rewrite split_nl_single_line by done.
  by rewrite IH.
Qed.

(** The lines of a file that was written from lines with a content of
    several lines between them. *)
Lemma written_lines (fs fs' : FS) (p content : text) (l1 l2 : list text) :
  files fs' = <[p := join_nl (l1 ++ [content] ++ l2)]> (files fs) ->
  Forall single_line l1 -> Forall single_line l2 ->
  currentLines fs' p = l1 ++ split_nl content ++ l2.
Proof.
  intros Hf H1 H2.
  rewrite (currentLines_lookup fs' p (join_nl (l1 ++ [content] ++ l2)))
    by by rewrite Hf, lookup_insert_eq.
  rewrite split_join_concat
    by (intros H; by apply app_eq_nil in H as [_ H]).
  rewrite !map_app, !concat_app.
  rewrite (concat_single_lines l1), (concat_single_lines l2) by done.
  cbn [map concat]. by rewrite app_nil_r.
Qed.

(** X7. The lines of the target after a block that comes from a text, with a
    positive start line and a content of [n] lines.  A [modify] block that is
    applied puts the [n] lines of its content in the place of [n + 1] lines,
    from its start line on: the file is one line shorter.  A [delete] block
    that is applied removes [n + 1] lines, and leaves one empty line when it
    removes every line.  An [insert] block puts the [n] lines of its content
    before the line of its start line, or at the end of a shorter file. *)
Theorem parsed_block_lines (fs : FS) (out file id : text) (startLine : Z)
    (code : text) :
  let b := makeCodeBlock out file id startLine code in
  let p := CodeBlock.filePath b in
  let content := split_nl (trim code) in
  let n := Z.of_nat (length content) in
  let lines := currentLines fs p in
  let len := Z.of_nat (length lines) in
  let before := take (Z.to_nat (startLine - 1)) lines in
  let after op :=
    currentLines
      (_handleFileModification fs (FileModification.mk p [b] op)) p in
  0 < startLine ->
  (startLine + n <= len ->
   after (js "modify") =
     before ++ content ++ drop (Z.to_nat (startLine + n)) lines
   /\ Z.of_nat (length (after (js "modify"))) = len - 1)
  /\ (startLine + n <= len -> 1 < startLine \/ startLine + n < len ->
      after (js "delete") = before ++ drop (Z.to_nat (startLine + n)) lines
      /\ Z.of_nat (length (after (js "delete"))) = len - n - 1)
  /\ (startLine = 1 -> n + 1 = len -> after (js "delete") = [[]])
  /\ after (js "insert") =
       before ++ content ++ drop (Z.to_nat (startLine - 1)) lines
  /\ Z.of_nat (length (after (js "insert"))) = len + n.
Proof.
  intros b p content n lines len before after Hs.
  pose proof (currentLines_single fs p) as Hsingle. fold lines in Hsingle.
  pose proof (split_nl_length_pos (trim code)) as Hn. fold content in Hn.
  assert (CodeBlock.startLine b = startLine) as Es by reflexivity.
  assert (CodeBlock.endLine b = startLine + n) as Ee by reflexivity.
  assert (CodeBlock.content b = trim code) as Ec by reflexivity.
  assert (after (js "insert") =
            before ++ content ++ drop (Z.to_nat (startLine - 1)) lines) as Hi.
  { unfold after.
    rewrite (written_lines fs _ p _ _ _ (insert_files fs p b ltac:(lia)))
      by first [by apply Forall_take | by apply Forall_drop].
    by rewrite Es, Ec. }
  split; [|split; [|split; [|split]]].
  - intros Hr.
    assert (after (js "modify") =
              before ++ content ++ drop (Z.to_nat (startLine + n)) lines) as Hm.
    { unfold after.
      rewrite (written_lines fs _ p _ _ _
                 (modify_files fs p b ltac:(lia) ltac:(lia)
                    ltac:(fold lines len; lia)))
        by first [by apply Forall_take | by apply Forall_drop].
      by rewrite Es, Ee, Ec. }
    split; [exact Hm|]. rewrite Hm. unfold before.
    rewrite !length_app, length_take, length_drop. fold n. unfold len in *.
    lia.
  - intros Hr Hrest.
    assert (take (Z.to_nat (startLine - 1)) lines
              ++ drop (Z.to_nat (startLine + n)) lines <> []) as Hne.
    { intros H. apply (f_equal length) in H.
      rewrite length_app, length_take, length_drop in H.
      simpl in H. unfold len in *. lia. }
    assert (after (js "delete") =
              before ++ drop (Z.to_nat (startLine + n)) lines) as Hd.
    { unfold after.
      rewrite (currentLines_written fs _ p _
                 (delete_files fs p b ltac:(lia) ltac:(lia)
                    ltac:(fold lines len; lia))).
      - by rewrite Es, Ee.
      - by rewrite Es, Ee.
      - rewrite Es, Ee. apply Forall_app.
        split; [by apply Forall_take | by apply Forall_drop]. }
    split; [exact Hd|]. rewrite Hd. unfold before.
    rewrite !length_app, length_take, length_drop. unfold len in *. lia.
  - intros H1 Hall. unfold after.
    assert (files (_handleFileModification fs
                     (FileModification.mk p [b] (js "delete")))
            = <[p := []]> (files fs)) as Hf.
    { rewrite (delete_files fs p b) by (fold lines len; lia).
      rewrite Es, Ee, H1. change (Z.to_nat (1 - 1)) with 0%nat.
      fold lines. rewrite take_0, drop_ge by (unfold len in *; lia).
      reflexivity. }
    rewrite (currentLines_lookup _ p []) by by rewrite Hf, lookup_insert_eq.
    reflexivity.
  - exact Hi.
  - rewrite Hi. unfold before.
    rewrite !length_app, length_take, length_drop. fold n. unfold len in *.
    lia.
Qed.

(** *** Lines and texts

    The lines of a file and its text, without [split_nl] and [join_nl]: a
    text that starts with [n] lines, each with its line feed, has these
    lines as its first [n] lines. *)

Lemma split_nl_terminated (before : list text) (rest : text) :
  Forall single_line before ->
  split_nl (terminated before ++ rest) = before ++ split_nl rest.
Proof.
  induction 1 as [|l ls Hl _ IH]; [reflexivity|].
  unfold terminated. cbn [map concat]. fold (terminated ls).
  rewrite <- !app_assoc. cbn [app]. rewrite split_nl_app_LF by done.
  by rewrite IH.
Qed.

Lemma join_nl_terminated (before ls : list text) :
  ls <> [] -> join_nl (before ++ ls) = terminated before ++ join_nl ls.
Proof.
  intros Hne. induction before as [|l before IH]; [reflexivity|].
  cbn [app]. rewrite join_nl_cons by (by destruct before, ls).
  rewrite IH. unfold terminated. cbn [map concat].
  by rewrite <- !app_assoc.
Qed.

Lemma join_nl_snoc (ls : list text) (l : text) :
  ls <> [] -> join_nl (ls ++ [l]) = join_nl ls ++ LF :: l.
Proof.
  induction ls as [|l1 ls IH]; [done|]. intros _.
  destruct ls as [|l2 ls]; [reflexivity|].
  rewrite <- app_comm_cons. rewrite !join_nl_cons by done.
  rewrite IH by done. by rewrite <- app_assoc.
Qed.

(** The lines of a file whose text starts with terminated lines. *)
Lemma currentLines_terminated (fs : FS) (p : text) (before : list text)
    (rest : text) :
  Forall single_line before ->
  files fs !! p = Some (terminated before ++ rest) ->
  currentLines fs p = before ++ split_nl rest.
Proof.
  intros Hb Hf. rewrite (currentLines_lookup fs p _ Hf).
  by apply split_nl_terminated.
Qed.

(** The text of a file, from its lines. *)
Lemma currentLines_text (fs : FS) (p : text) (ls : list text) :
  currentLines fs p = ls -> ls <> [] -> files fs !! p = Some (join_nl ls).
Proof.
  intros Hl Hne. destruct (files fs !! p) as [c|] eqn:E.
  - rewrite (currentLines_lookup fs p c E) in Hl. subst ls.
    by rewrite join_nl_split_nl.
  - by rewrite currentLines_absent in Hl.
Qed.


(** *** The claims about the parser, [modify] and [insert] *)


(** C2. A [modify] block with a positive start line and a last line within
    the file replaces the lines from its start line to its last line, both
    included, with its content: the text of the file is the text before the
    range, the content, and the text after the range.  With a content of one
    line the content is one line of the file, between the lines before the
    range and the lines after it, in their order; with the range [3,5] a
    file of ten lines becomes a file of eight lines, where line 3 is the
    content, lines 1-2 are the former lines 1-2 and lines 4-8 are the former
    lines 6-10. *)
Theorem modify_replaces_range (fs : FS) (p : text) (b : CodeBlock.t) :
  0 < CodeBlock.startLine b ->
  CodeBlock.startLine b <= CodeBlock.endLine b ->
  CodeBlock.endLine b <= Z.of_nat (length (currentLines fs p)) ->
  let lines := currentLines fs p in
  let i := Z.to_nat (CodeBlock.startLine b - 1) in
  let j := Z.to_nat (CodeBlock.endLine b) in
  let fs' :=
    _handleFileModification fs (FileModification.mk p [b] (js "modify")) in
  files fs' =
    <[p := join_nl (take i lines ++ [CodeBlock.content b] ++ drop j lines)]>
      (files fs)
  /\ (forall (before : list text) (range rest : text),
        Forall single_line before -> length before = i ->
        lineCount range = (j - i)%nat ->
        rest = [] \/ head rest = Some LF ->
        files fs !! p = Some (terminated before ++ range ++ rest) ->
        files fs' !! p =
          Some (terminated before ++ CodeBlock.content b ++ rest))
  /\ (single_line (CodeBlock.content b) ->
      currentLines fs' p = take i lines ++ [CodeBlock.content b] ++ drop j lines
      /\ (CodeBlock.startLine b = 3 -> CodeBlock.endLine b = 5 ->
          length lines = 10%nat ->
          length (currentLines fs' p) = 8%nat
          /\ currentLines fs' p !! 2%nat = Some (CodeBlock.content b)
          /\ take 2 (currentLines fs' p) = take 2 lines
          /\ drop 3 (currentLines fs' p) = drop 5 lines)).
Proof.
  intros Hs Hse He lines i j fs'.
  pose proof (modify_files fs p b Hs Hse He) as Hf. fold fs' lines i j in Hf.
  split; [exact Hf|]. split.
  - intros before range rest Hb Hlen Hrange Hrest Hp.
    rewrite Hf, lookup_insert_eq. f_equal.
    assert (lines = before ++ split_nl (range ++ rest)) as El
      by by apply currentLines_terminated.
    assert (length (split_nl range) = (j - i)%nat) as Hr
      by by rewrite lineCount_split_nl.
    assert (i < j)%nat as Hij by (unfold i, j; lia).
    destruct Hrest as [-> | Hrest].
    + rewrite app_nil_r in *. rewrite El.
      rewrite take_app_length' by done.
      rewrite drop_ge by (rewrite length_app; lia).
      rewrite join_nl_terminated by done. reflexivity.
    + destruct rest as [|c rest]; [done|]. injection Hrest as ->.
      rewrite split_nl_app in El. rewrite El.
      rewrite take_app_length' by done.
      rewrite (app_assoc before (split_nl range)), drop_app_length' by (rewrite length_app; lia).
      rewrite join_nl_terminated by done. cbn [app].
      rewrite join_nl_cons by apply split_nl_nonempty.
      by rewrite join_nl_split_nl.
  - intros Hone.
    pose proof (modify_lines fs p b Hs Hse He Hone) as Hl.
    fold fs' lines i j in Hl. split; [exact Hl|].
    intros H3 H5 H10. rewrite Hl. unfold i, j. rewrite H3, H5.
    change (Z.to_nat (3 - 1)) with 2%nat. change (Z.to_nat 5) with 5%nat.
    rewrite length_app, length_take, H10. cbn [length app].
    rewrite length_drop, H10. repeat split.
    + rewrite lookup_app_r by (rewrite length_take; lia).
      rewrite length_take, H10. reflexivity.
    + rewrite take_app_length'; [done|]. rewrite length_take. lia.
    + change 3%nat with (2 + 1)%nat. rewrite <- drop_drop.
      rewrite drop_app_length'; [done|]. rewrite length_take. lia.
Qed.

(** C6. An [insert] block with a positive start line puts its content before
    the line of this number (a splice at the index [startLine - 1] that
    removes nothing): the text of the file is the text of the lines before
    this line, the content, a line feed and the rest of the former text.
    The former lines stay in their order, around the lines of the content.
    In a file with fewer lines the content comes after the last line, and a
    missing file is made with the content.  At start line 1 on the lines [a]
    and [b] the file becomes the content, [a] and [b]. *)
Theorem insert_before_start_line (fs : FS) (p : text) (b : CodeBlock.t) :
  0 < CodeBlock.startLine b ->
  let lines := currentLines fs p in
  let i := Z.to_nat (CodeBlock.startLine b - 1) in
  let fs' :=
    _handleFileModification fs (FileModification.mk p [b] (js "insert")) in
  files fs' =
    <[p := join_nl (take i lines ++ [CodeBlock.content b] ++ drop i lines)]>
      (files fs)
  /\ take i lines ++ drop i lines = lines
  /\ currentLines fs' p =
       take i lines ++ split_nl (CodeBlock.content b) ++ drop i lines
  /\ (forall (before : list text) (rest : text),
        Forall single_line before -> length before = i ->
        files fs !! p = Some (terminated before ++ rest) ->
        files fs' !! p =
          Some (terminated before ++ CodeBlock.content b ++ LF :: rest))
  /\ (forall old : text,
        files fs !! p = Some old -> (lineCount old <= i)%nat ->
        files fs' !! p = Some (old ++ LF :: CodeBlock.content b))
  /\ (files fs !! p = None -> files fs' !! p = Some (CodeBlock.content b))
  /\ (CodeBlock.startLine b = 1 -> lines = [js "a"; js "b"] ->
      files fs' !! p =
        Some (CodeBlock.content b ++ LF :: js "a" ++ LF :: js "b")
      /\ (single_line (CodeBlock.content b) ->
          currentLines fs' p = [CodeBlock.content b; js "a"; js "b"])).
Proof.
  intros Hs lines i fs'.
  pose proof (insert_files fs p b Hs) as Hf. fold fs' lines i in Hf.
  pose proof (currentLines_single fs p) as Hsingle. fold lines in Hsingle.
  assert (currentLines fs' p =
            take i lines ++ split_nl (CodeBlock.content b) ++ drop i lines)
    as Hl.
  { apply (written_lines fs fs' p _ _ _ Hf);
      [by apply Forall_take | by apply Forall_drop]. }
  split; [exact Hf|]. split; [apply take_drop|]. split; [exact Hl|].
  split; [|split; [|split]].
  - intros before rest Hb Hlen Hp. rewrite Hf, lookup_insert_eq. f_equal.
    assert (lines = before ++ split_nl rest) as El
      by by apply currentLines_terminated.
    rewrite El, take_app_length', drop_app_length' by done.
    rewrite join_nl_terminated by done. cbn [app].
    rewrite join_nl_cons by apply split_nl_nonempty.
    by rewrite join_nl_split_nl.
  - intros old Hp Hlen. rewrite Hf, lookup_insert_eq. f_equal.
    assert (lines = split_nl old) as El by by apply currentLines_lookup.
    rewrite <- lineCount_split_nl, <- El in Hlen.
    rewrite take_ge, drop_ge by done. rewrite El.
    cbn [app]. rewrite join_nl_snoc by apply split_nl_nonempty.
    by rewrite join_nl_split_nl.
  - intros Hp. rewrite Hf, lookup_insert_eq. f_equal.
    unfold lines. rewrite currentLines_absent by done.
    by rewrite take_nil, drop_nil.
  - intros H1 Hab. split.
    + rewrite Hf, lookup_insert_eq. unfold i. rewrite H1, Hab. reflexivity.
    + intros Hone. rewrite Hl. unfold i. rewrite H1, Hab.
      by rewrite split_nl_single_line.
Qed.

Lemma applyParsed_other (st : State) (op : text) (b : CodeBlock.t) :
  op <> js "append" -> op <> js "modify" -> op <> js "insert" ->
  op <> js "delete" ->
  applyParsed st (op, b) =
    with_disk (ensureDirectory (disk st) (CodeBlock.filePath b))
      (with_codeBlocks (<[CodeBlock.id b := b]> (_codeBlocks st)) st).
Proof.
  intros H1 H2 H3 H4. unfold applyParsed. f_equal.
  cbn [disk with_codeBlocks]. rewrite handle_single.
  by rewrite applyBlock_other.
Qed.

(** X25. A block whose operation is none of the four names (the expression
    takes any text without a double quote as an operation) writes no file;
    the block is still put in the table of the blocks, and the directory of
    its target is still made. *)
Theorem unknown_operation_writes_nothing (st : State) (op : text)
    (b : CodeBlock.t) :
  op <> js "append" -> op <> js "modify" -> op <> js "insert" ->
  op <> js "delete" ->
  let st' := applyParsed st (op, b) in
  files (disk st') = files (disk st)
  /\ _codeBlocks st' !! CodeBlock.id b = Some b
  /\ dirs (disk st') = dirs (ensureDirectory (disk st) (CodeBlock.filePath b)).
Proof.
  intros H1 H2 H3 H4 st'. unfold st'. rewrite applyParsed_other by done.
  cbn [disk _codeBlocks with_disk with_codeBlocks].
  split; [apply files_ensureDirectory|]. split; [|reflexivity].
  apply lookup_insert_eq.
Qed.

(** *** Blocks one after the other *)

Lemma applyParsed_append (st : State) (b : CodeBlock.t) :
  files (disk (applyParsed st (js "append", b))) =
    <[CodeBlock.filePath b :=
        match files (disk st) !! CodeBlock.filePath b with
        | None | Some [] => CodeBlock.content b
        | Some old => old ++ LF :: CodeBlock.content b
        end]> (files (disk st)).
Proof.
  unfold applyParsed. cbn [disk with_disk with_codeBlocks].
  apply append_files.
Qed.

Lemma appends_after (bs : list CodeBlock.t) (st : State) (p old : text) :
  Forall (fun b => CodeBlock.filePath b = p /\ CodeBlock.content b <> []) bs ->
  files (disk st) !! p = Some old -> old <> [] ->
  files (disk (fold_left applyParsed (map (pair (js "append")) bs) st)) !! p =
    Some (join_nl (old :: map CodeBlock.content bs)).
Proof.
  revert st old. induction bs as [|b bs IH]; intros st old Hb Hold Hne;
    [done|].
  apply Forall_cons_1 in Hb as [[Hp Hc] Hb]. cbn [map fold_left].
  rewrite (IH _ (old ++ LF :: CodeBlock.content b)); [|done| |].
  - f_equal. destruct bs as [|b' bs]; [reflexivity|].
    cbn [map]. rewrite !join_nl_cons by done. by rewrite <- app_assoc.
  - rewrite applyParsed_append, Hp, Hold, lookup_insert_eq.
    by destruct old.
  - by destruct old.
Qed.

(** X8. [append] blocks on one file, one after the other, each with a
    content that is not empty: the file holds the contents in the order of
    the blocks, one line feed between two of them, after what it held
    before. *)
Theorem appends_join_contents (st : State) (p : text) (bs : list CodeBlock.t) :
  bs <> [] ->
  Forall (fun b => CodeBlock.filePath b = p /\ CodeBlock.content b <> []) bs ->
  let st' := fold_left applyParsed (map (pair (js "append")) bs) st in
  (files (disk st) !! p = None \/ files (disk st) !! p = Some [] ->
   files (disk st') !! p = Some (join_nl (map CodeBlock.content bs)))
  /\ (forall old, files (disk st) !! p = Some old -> old <> [] ->
      files (disk st') !! p = Some (join_nl (old :: map CodeBlock.content bs))).
Proof.
  intros Hne Hb st'. split.
  - intros Hold. destruct bs as [|b bs]; [done|].
    pose proof Hb as Hb'. apply Forall_cons_1 in Hb' as [[Hp Hc] Hbs].
    unfold st'. cbn [map fold_left].
    apply (appends_after bs _ p (CodeBlock.content b)); [done| |done].
    rewrite applyParsed_append, Hp, lookup_insert_eq.
    by destruct Hold as [-> | ->].
  - intros old Hold Ho. by apply appends_after.
Qed.


(** ** Further properties of the conversation driver

    *** Runs with a service that may fail *)

(** What a call of [_generateResponse] does, whatever the service does. *)
Lemma generateResponse_cases (st : State) (sp um : text) (g : bool) :
  let msgs :=
    Message.mk system sp :: _conversationHistory st ++ [Message.mk user um] in
  let st1 := with_requests (requests st ++ [mkRequest g msgs]) st in
  (chat (length (requests st)) msgs = Rejected
   /\ _generateResponse st sp um g = (st1, None))
  \/ (exists a,
        chat (length (requests st)) msgs <> Rejected
        /\ a <> []
        /\ (chat (length (requests st)) msgs = Completion None
            \/ chat (length (requests st)) msgs = Completion (Some [])
            -> a = js "No response generated")
        /\ (a = js "No response generated"
            \/ chat (length (requests st)) msgs = Completion (Some a))
        /\ _generateResponse st sp um g =
             (with_error false
                (with_history
                   (_conversationHistory st
                      ++ [Message.mk user um; Message.mk assistant a]) st1),
              Some a)).
Proof.
  intros msgs st1. unfold _generateResponse. fold msgs. fold st1.
  destruct (chat (length (requests st)) msgs) as [|[t|]] eqn:E.
  - by left.
  - right. destruct t as [|c t].
    + exists (js "No response generated"). repeat split; try done. by left.
    + exists (c :: t). repeat split; try done; [by intros [|] | by right].
  - right. exists (js "No response generated"). repeat split; try done.
    by left.
Qed.

Section Invariant.

(** An invariant of the loop of [_generateAndReview]: [P] holds where the
    loop tests its condition, [M a] in a turn once the service has given the
    answer [a], and [Q] after a call that failed. *)
Variables P Q : State -> Prop.
Variable M : text -> State -> Prop.
Hypothesis M_P : forall a st, M a st -> P st.
Hypothesis call_answered :
  forall st sp um g st' a,
    P st -> _generateResponse st sp um g = (st', Some a) -> M a st'.
Hypothesis call_failed :
  forall st sp um g st',
    P st -> _generateResponse st sp um g = (st', None) -> Q st'.
Hypothesis saved :
  forall a st i, M a st -> M a (_saveGeneratedCode st a i).
Hypothesis counted :
  forall a st, M a st -> P (with_iteration (_currentIteration st + 1) st).

Lemma round_invariant (st : State) (prompt request : text) :
  P st ->
  match round st prompt request with
  | (st', None) => Q st'
  | (st', Some _) => P st'
  end.
Proof.
  intros HP. unfold round.
  destruct (_generateResponse st _ request true) as [st1 [response|]] eqn:E1;
    [|by eapply call_failed].
  assert (M response st1) as H1 by by eapply call_answered.
  assert (M response
            (if truthy response
             then _saveGeneratedCode st1 response (_currentIteration st1)
             else st1)) as H2.
  { destruct (truthy response); [by apply saved | done]. }
  destruct (_ <? _); [|by eapply counted].
  destruct (_generateResponse _ _ [] false) as [st3 [review|]] eqn:E3.
  - eapply counted. eapply call_answered; [|exact E3]. by eapply M_P.
  - eapply call_failed; [|exact E3]. by eapply M_P.
Qed.

Lemma generateAndReview_invariant (fuel : nat) (st : State)
    (prompt request : text) :
  P st ->
  match _generateAndReview fuel st prompt request with
  | (st', Threw) => Q st'
  | (st', _) => P st'
  end.
Proof.
  revert st request. induction fuel as [|fuel IH]; intros st request HP;
    cbn [_generateAndReview]; destruct (_ <? _); try done.
  pose proof (round_invariant st prompt request HP) as Hr.
  destruct (round st prompt request) as [st' [request'|]]; [|done].
  by apply IH.
Qed.

End Invariant.

(** The counter at the end of a loop that has not failed. *)
Lemma generateAndReview_finished (fuel : nat) (st st' : State)
    (prompt request : text) :
  _generateAndReview fuel st prompt request = (st', Finished) ->
  _maxIterations st' = _maxIterations st
  /\ _currentIteration st' = Z.max (_currentIteration st) (_maxIterations st).
Proof.
  revert st request. induction fuel as [|fuel IH]; intros st request;
    cbn [_generateAndReview]; destruct (_ <? _) eqn:E;
    try discriminate; try (intros [= <-]; split; [done|lia]).
  destruct (round st prompt request) as [st1 [request'|]] eqn:Er;
    [|discriminate].
  apply round_counter in Er as [Hc Hm]. intros H.
  apply IH in H as [Hm' Hc']. split; [congruence|]. lia.
Qed.

Lemma entry_roles_snoc (calls : list bool) (g : bool) :
  entry_roles (calls ++ [g]) = entry_roles calls ++ [user; assistant].
Proof. unfold entry_roles. by rewrite flat_map_app. Qed.

(** One more request that is answered. *)
Lemma answered_run_step (n0 : nat) (new : list Request) (h : list Message.t)
    (g : bool) (sp um a : text) :
  answered_run n0 new h ->
  chat (n0 + length new)
    (Message.mk system sp :: h ++ [Message.mk user um]) <> Rejected ->
  answered_run n0
    (new ++ [mkRequest g (Message.mk system sp :: h ++ [Message.mk user um])])
    (h ++ [Message.mk user um; Message.mk assistant a]).
Proof.
  intros (Hl & Hr & Hk) Hc. split; [|split].
  - rewrite !length_app. cbn [length]. lia.
  - unfold roles in *. rewrite !map_app. cbn [map].
    rewrite entry_roles_snoc, Hr. reflexivity.
  - intros k r Hkr.
    destruct (decide (k < length new)%nat) as [Hlt|Hge].
    + rewrite lookup_app_l in Hkr by done.
      destruct (Hk k r Hkr) as (Hc' & sp' & um' & Em & Eh).
      split; [done|]. exists sp', um'.
      rewrite take_app_le by lia. split; [done|].
      rewrite lookup_app_l by lia. done.
    + rewrite lookup_app_r in Hkr by lia.
      destruct (k - length new)%nat as [|j] eqn:Ej; [|by destruct j].
      injection Hkr as <-. assert (k = length new) as -> by lia.
      cbn [messages]. split; [done|]. exists sp, um.
      rewrite <- Hl, take_app_length. split; [done|].
      rewrite Hl. rewrite <- Hl. by rewrite list_lookup_middle.
Qed.


(** The trace of the loop: from a point where every request of the run was
    answered, the loop ends at such a point, or with one more request, which
    has failed. *)
Lemma run_trace (fuel : nat) (st : State) (prompt request : text)
    (reqs0 : list Request) :
  (exists new,
      requests st = reqs0 ++ new
      /\ answered_run (length reqs0) new (_conversationHistory st)
      /\ (0 < _currentIteration st -> new <> [])
      /\ (new <> [] -> errorShown st = false)) ->
  match _generateAndReview fuel st prompt request with
  | (st', Threw) =>
      exists new r sp um,
        requests st' = reqs0 ++ new ++ [r]
        /\ answered_run (length reqs0) new (_conversationHistory st')
        /\ chat (length reqs0 + length new) (messages r) = Rejected
        /\ messages r =
             Message.mk system sp :: _conversationHistory st'
               ++ [Message.mk user um]
  | (st', _) =>
      exists new,
        requests st' = reqs0 ++ new
        /\ answered_run (length reqs0) new (_conversationHistory st')
        /\ (0 < _currentIteration st' -> new <> [])
        /\ (new <> [] -> errorShown st' = false)
  end.
Proof.
  apply (generateAndReview_invariant
           (fun st =>
              exists new,
                requests st = reqs0 ++ new
                /\ answered_run (length reqs0) new (_conversationHistory st)
                /\ (0 < _currentIteration st -> new <> [])
                /\ (new <> [] -> errorShown st = false))
           _
           (fun _ st =>
              exists new,
                requests st = reqs0 ++ new
                /\ answered_run (length reqs0) new (_conversationHistory st)
                /\ new <> [] /\ errorShown st = false)).
  - intros _ s (new & Hq & Ha & Hn & He). exists new.
    split; [done|]. split; [done|]. by split.
  - intros s sp um g s' a (new & Hq & Ha & _ & _) E.
    destruct (generateResponse_cases s sp um g)
      as [[_ E']|(a' & Hc & _ & _ & _ & E')]; rewrite E' in E; [done|].
    injection E as <- <-.
    cbn [requests _conversationHistory errorShown with_error with_history
         with_requests].
    exists (new ++ [mkRequest g (Message.mk system sp :: _conversationHistory s
                                   ++ [Message.mk user um])]).
    split; [by rewrite Hq, <- app_assoc|]. split; [|split].
    + apply answered_run_step; [done|].
      by rewrite Hq, length_app in Hc.
    + by intros [_ [=]]%app_eq_nil.
    + done.
  - intros s sp um g s' (new & Hq & Ha & _ & _) E.
    destruct (generateResponse_cases s sp um g)
      as [[Hc E']|(a' & _ & _ & _ & _ & E')]; rewrite E' in E; [|done].
    injection E as <-. cbn [requests _conversationHistory with_requests].
    eexists new, _, sp, um. split; [by rewrite Hq, <- app_assoc|].
    split; [done|]. cbn [messages]. split; [|done].
    by rewrite Hq, length_app in Hc.
  - intros content s i (new & Hq & Ha & Hn & He).
    destruct (saveGeneratedCode_conversation s content i)
      as (Eh & _ & _ & _ & Er & Ee).
    exists new. by rewrite Eh, Er, Ee.
  - intros _ s (new & Hq & Ha & Hn & He). exists new.
    cbn [requests _conversationHistory errorShown with_iteration].
    split; [done|]. split; [done|]. by split.
Qed.

(** The trace of a run. *)
Lemma startCodeGeneration_trace (st : State) (codeRequest : text) :
  let st' := _startCodeGeneration st codeRequest in
  (errorShown st' = true
   /\ exists new r sp um,
        requests st' = requests st ++ new ++ [r]
        /\ answered_run (length (requests st)) new (_conversationHistory st')
        /\ chat (length (requests st) + length new) (messages r) = Rejected
        /\ messages r =
             Message.mk system sp :: _conversationHistory st'
               ++ [Message.mk user um])
  \/ (_currentIteration st' = Z.max 0 (_maxIterations st)
      /\ exists new,
           requests st' = requests st ++ new
           /\ answered_run (length (requests st)) new (_conversationHistory st')
           /\ (0 < _maxIterations st -> new <> [] /\ errorShown st' = false)).
Proof.
  intros st'. unfold st', _startCodeGeneration.
  set (st0 := with_history [] (with_iteration 0 st)).
  pose proof (run_trace (Z.to_nat (_maxIterations st0)) st0
                (generatorPrompt codeRequest) codeRequest (requests st)) as Ht.
  pose proof (generateAndReview_fuel (Z.to_nat (_maxIterations st0)) st0
                (generatorPrompt codeRequest) codeRequest) as Hf.
  destruct (_generateAndReview _ st0 _ _) as [s o] eqn:E.
  assert (exists new,
             requests st0 = requests st ++ new
             /\ answered_run (length (requests st)) new
                  (_conversationHistory st0)
             /\ (0 < _currentIteration st0 -> new <> [])
             /\ (new <> [] -> errorShown st0 = false)) as H0.
  { exists []. split; [by rewrite app_nil_r|]. split; [|by split].
    split; [done|]. split; [done|]. by intros k r. }
  specialize (Ht H0). destruct o.
  - right. destruct (generateAndReview_finished _ _ _ _ _ E) as [Hm Hc].
    destruct Ht as (new & Hq & Ha & Hn & He).
    split; [exact Hc|]. exists new. split; [done|]. split; [done|].
    intros Hpos. assert (new <> []) as Hne.
    { apply Hn. rewrite Hc. cbn. lia. }
    by split; [|apply He].
  - left. split; [reflexivity|]. exact Ht.
  - exfalso. apply Hf; [cbn; lia | reflexivity].
Qed.

(** X9. A run with a service that may fail.  The requests of the run are
    answered one after the other until one fails or the run is over: at
    least one request is sent, every request but the last one was answered,
    and the error message is shown exactly when the last request has failed.
    The transcript holds two entries for each answered request and none for
    the failed one, and the counter reaches [maxIterations] when no request
    fails. *)
Theorem run_stops_at_first_failure (st : State) (codeRequest : text) :
  1 <= _maxIterations st ->
  let st' := _startCodeGeneration st codeRequest in
  let n0 := length (requests st) in
  exists new r,
    requests st' = requests st ++ new ++ [r]
    /\ (forall k r',
          new !! k = Some r' -> chat (n0 + k) (messages r') <> Rejected)
    /\ if errorShown st' then
         chat (n0 + length new) (messages r) = Rejected
         /\ length (_conversationHistory st') = (2 * length new)%nat
       else
         chat (n0 + length new) (messages r) <> Rejected
         /\ length (_conversationHistory st') = (2 * length new + 2)%nat
         /\ _currentIteration st' = _maxIterations st.
Proof.
  intros Hn st' n0. subst st' n0.
  destruct (startCodeGeneration_trace st codeRequest)
    as [(He & new & r & sp & um & Hq & (Hl & _ & Hk) & Hc & _)
       |(Hc & new & Hq & (Hl & _ & Hk) & Hne)].
  - exists new, r. rewrite He. repeat split; try done.
    intros k r' Hkr. by apply Hk.
  - destruct Hne as [Hne He]; [lia|].
    destruct (exists_last Hne) as (new' & r & ->).
    exists new', r. rewrite He. rewrite length_app in Hl. cbn [length] in Hl.
    split; [done|]. split; [|split; [|split]].
    + intros k r' Hkr. apply (Hk k r').
      rewrite lookup_app_l; [done|]. by eapply lookup_lt_Some.
    + apply (Hk (length new') r). by rewrite list_lookup_middle.
    + lia.
    + lia.
Qed.

(** X10. What a request carries, whatever the service does: the request
    number [k] of a run holds a system prompt, then the first [2 * k] entries
    of the transcript, which are all the entries that the run had appended
    when the request was sent, then a user message; when the request is
    answered, this user message is the entry number [2 * k] of the
    transcript.  The transcript is made of pairs of a user entry and an
    assistant entry. *)
Theorem requests_carry_the_transcript (st : State) (codeRequest : text) :
  let st' := _startCodeGeneration st codeRequest in
  exists new,
    requests st' = requests st ++ new
    /\ (exists calls, roles (_conversationHistory st') = entry_roles calls)
    /\ forall k r,
         new !! k = Some r ->
         exists sp um,
           messages r =
             Message.mk system sp
               :: take (2 * k) (_conversationHistory st')
               ++ [Message.mk user um]
           /\ ((2 * k < length (_conversationHistory st'))%nat ->
               _conversationHistory st' !! (2 * k)%nat
               = Some (Message.mk user um)).
Proof.
  intros st'. subst st'.
  destruct (startCodeGeneration_trace st codeRequest)
    as [(He & new & r & sp & um & Hq & (Hl & Hr & Hk) & Hc & Hm)
       |(Hc & new & Hq & (Hl & Hr & Hk) & Hne)].
  - exists (new ++ [r]). split; [done|]. split; [by eexists|].
    intros k r' Hkr.
    destruct (decide (k < length new)%nat) as [Hlt|Hge].
    + rewrite lookup_app_l in Hkr by done.
      destruct (Hk k r' Hkr) as (_ & sp' & um' & Em & Eh).
      by exists sp', um'.
    + rewrite lookup_app_r in Hkr by lia.
      destruct (k - length new)%nat as [|j] eqn:Ej; [|by destruct j].
      injection Hkr as <-. exists sp, um.
      rewrite take_ge by lia. split; [done|]. lia.
  - exists new. split; [done|]. split; [by eexists|].
    intros k r Hkr. destruct (Hk k r Hkr) as (_ & sp & um & Em & Eh).
    by exists sp, um.
Qed.

(** X11. A failure of the first call: the run sends this one request, which
    holds the system prompt of the generator around the first prompt and the
    request of the user, and stops.  No file and no directory is written, the
    table of the blocks is as it was, the transcript is empty, and the error
    message is shown. *)
Theorem first_call_failure (st : State) (codeRequest : text) :
  1 <= _maxIterations st ->
  let first :=
    [ Message.mk system (generatorSystemPrompt (generatorPrompt codeRequest));
      Message.mk user codeRequest ] in
  chat (length (requests st)) first = Rejected ->
  let st' := _startCodeGeneration st codeRequest in
  requests st' = requests st ++ [mkRequest true first]
  /\ disk st' = disk st
  /\ _codeBlocks st' = _codeBlocks st
  /\ _conversationHistory st' = []
  /\ _currentIteration st' = 0
  /\ errorShown st' = true.
Proof.
  intros Hn first Hc st'. unfold st', _startCodeGeneration.
  set (st0 := with_history [] (with_iteration 0 st)).
  change (_maxIterations st0) with (_maxIterations st).
  destruct (Z.to_nat (_maxIterations st)) as [|fuel] eqn:Ef; [lia|].
  cbn [_generateAndReview].
  change (_currentIteration st0) with 0. change (_maxIterations st0)
    with (_maxIterations st).
  destruct (Z.ltb_spec 0 (_maxIterations st)) as [_|]; [|lia].
  unfold round. change (_currentIteration st0 =? 0) with true. cbv iota.
  unfold _generateResponse.
  change (_conversationHistory st0) with (@nil Message.t).
  change (requests st0) with (requests st). cbn [app].
  fold first. rewrite Hc. done.
Qed.

(** X12. The answer that [_generateResponse] gives is never empty: for a
    completion without a content, or with an empty content, it is the text
    [No response generated], which goes to the transcript like any answer.
    This text holds no block, so that saving it changes nothing. *)
Theorem answer_is_never_empty (st : State) (sp um : text) (g : bool) :
  let msgs :=
    Message.mk system sp :: _conversationHistory st ++ [Message.mk user um] in
  match _generateResponse st sp um g with
  | (st', Some a) =>
      a <> []
      /\ _conversationHistory st' =
           _conversationHistory st
             ++ [Message.mk user um; Message.mk assistant a]
      /\ (chat (length (requests st)) msgs = Completion None
          \/ chat (length (requests st)) msgs = Completion (Some []) ->
          a = js "No response generated")
      /\ (forall i, _saveGeneratedCode st' (js "No response generated") i = st')
  | (st', None) =>
      chat (length (requests st)) msgs = Rejected
      /\ _conversationHistory st' = _conversationHistory st
  end.
Proof.
  intros msgs.
  destruct (generateResponse_cases st sp um g)
    as [[Hc ->]|(a & Hc & Ha & Hp & _ & ->)]; [done|].
  split; [done|]. split; [done|]. split; [done|].
  intros i. by apply saveGeneratedCode_no_delimiter.
Qed.


(** ** The texts of the web view

    *** [_escapeHtml] *)

Lemma replace_char_app (c : char) (r a b : text) :
  replace_char c r (a ++ b) = replace_char c r a ++ replace_char c r b.
Proof. apply flat_map_app. Qed.

Lemma replace_char_single (c : char) (r : text) (x : char) :
  replace_char c r [x] = if N.eqb x c then r else [x].
Proof. unfold replace_char. cbn [flat_map]. apply app_nil_r. Qed.

(** The five replacements, one after the other, on one character: the
    entities that a replacement puts are not touched by the replacements that
    follow, since the ampersand is replaced first. *)
Lemma escapeHtml_single (x : char) : _escapeHtml [x] = escape_char x.
Proof.
  unfold _escapeHtml, escape_char. rewrite replace_char_single.
  destruct (N.eqb_spec x AMP) as [->|H1]; [reflexivity|].
  rewrite replace_char_single.
  destruct (N.eqb_spec x LT) as [->|H2]; [reflexivity|].
  rewrite replace_char_single.
  destruct (N.eqb_spec x GT) as [->|H3]; [reflexivity|].
  rewrite replace_char_single.
  destruct (N.eqb_spec x QUOTE) as [->|H4]; [reflexivity|].
  rewrite replace_char_single.
  by destruct (N.eqb_spec x APOS) as [->|H5].
Qed.

Lemma escapeHtml_app (s t : text) :
  _escapeHtml (s ++ t) = _escapeHtml s ++ _escapeHtml t.
Proof. unfold _escapeHtml. by rewrite !replace_char_app. Qed.

Lemma escapeHtml_flat_map (s : text) : _escapeHtml s = flat_map escape_char s.
Proof.
  induction s as [|x s IH]; [reflexivity|].
  change (x :: s) with ([x] ++ s).
  rewrite escapeHtml_app, escapeHtml_single, IH. reflexivity.
Qed.

(** X13. [_escapeHtml] works character by character: each of the five
    characters becomes its entity and every other character stays, so that
    the text of an entity that the function has put is not escaped again
    (the ampersand is replaced first); the escaped text of two texts one
    after the other is the escaped texts one after the other. *)
Theorem escapeHtml_character_by_character (s t : text) :
  _escapeHtml s = flat_map escape_char s
  /\ _escapeHtml (s ++ t) = _escapeHtml s ++ _escapeHtml t.
Proof. split; [apply escapeHtml_flat_map | apply escapeHtml_app]. Qed.

Lemma escape_char_safe (x : char) :
  Forall (fun c => c <> LT /\ c <> GT /\ c <> QUOTE /\ c <> APOS)
    (escape_char x).
Proof.
  unfold escape_char.
  destruct (N.eqb_spec x AMP) as [->|H1]; [by repeat constructor|].
  destruct (N.eqb_spec x LT) as [->|H2]; [by repeat constructor|].
  destruct (N.eqb_spec x GT) as [->|H3]; [by repeat constructor|].
  destruct (N.eqb_spec x QUOTE) as [->|H4]; [by repeat constructor|].
  destruct (N.eqb_spec x APOS) as [->|H5]; by repeat constructor.
Qed.

(** X14. The text that [_escapeHtml] gives holds no [<], no [>], no double
    quote and no single quote, whatever the text is. *)
Theorem escapeHtml_no_markup (s : text) :
  Forall (fun c => c <> LT /\ c <> GT /\ c <> QUOTE /\ c <> APOS)
    (_escapeHtml s).
Proof.
  rewrite escapeHtml_flat_map. induction s as [|x s IH]; [constructor|].
  cbn [flat_map]. apply Forall_app. split; [apply escape_char_safe | exact IH].
Qed.

Lemma escape_char_inj (x y : char) (a b : text) :
  escape_char x ++ a = escape_char y ++ b -> x = y /\ a = b.
Proof.
  unfold escape_char.
  destruct (N.eqb_spec x AMP) as [->|X1];
    [|destruct (N.eqb_spec x LT) as [->|X2];
      [|destruct (N.eqb_spec x GT) as [->|X3];
        [|destruct (N.eqb_spec x QUOTE) as [->|X4];
          [|destruct (N.eqb_spec x APOS) as [->|X5]]]]];
  (destruct (N.eqb_spec y AMP) as [->|Y1];
    [|destruct (N.eqb_spec y LT) as [->|Y2];
      [|destruct (N.eqb_spec y GT) as [->|Y3];
        [|destruct (N.eqb_spec y QUOTE) as [->|Y4];
          [|destruct (N.eqb_spec y APOS) as [->|Y5]]]]]);
  intros H; vm_compute in H; try discriminate;
    try (injection H as H; by subst);
    try (injection H as -> _; done);
    try (injection H as <- _; done).
Qed.

(** X15. [_escapeHtml] loses nothing: two texts with the same escaped text
    are the same text. *)
Theorem escapeHtml_injective (s t : text) :
  _escapeHtml s = _escapeHtml t -> s = t.
Proof.
  rewrite !escapeHtml_flat_map. revert t.
  induction s as [|x s IH]; intros [|y t]; cbn [flat_map]; intros H.
  - reflexivity.
  - exfalso. revert H. unfold escape_char.
    by repeat destruct (N.eqb _ _).
  - exfalso. revert H. unfold escape_char.
    by repeat destruct (N.eqb _ _).
  - apply escape_char_inj in H as [-> H]. f_equal. by apply IH.
Qed.


(** *** [_formatCodeBlocks] *)

Lemma has_fence_prefix (t : text) :
  has_fence t = false -> strip_prefix FENCE t = None.
Proof.
  intros H. destruct t as [|c t]; cbn [has_fence] in H;
    by destruct (strip_prefix FENCE _).
Qed.

Lemma has_fence_tail (c : char) (t : text) :
  has_fence (c :: t) = false -> has_fence t = false.
Proof. cbn [has_fence]. by destruct (strip_prefix FENCE (c :: t)). Qed.

Lemma fence_clean_tail (c : char) (t : text) :
  fence_clean (c :: t) -> fence_clean t.
Proof.
  intros [Hd Hl]. split; [by eapply has_fence_tail|].
  destruct t as [|c' t]; [done|]. by rewrite last_cons_cons in Hl.
Qed.

Lemma backticks_cover (n : nat) (t x r : text) :
  strip_prefix (replicate n BACKTICK) (t ++ x) = Some r ->
  strip_prefix (replicate n BACKTICK) t = None ->
  t <> [] -> last t = Some BACKTICK.
Proof.
  revert t. induction n as [|n IH]; intros t H1 H2 Hne; [discriminate|].
  destruct t as [|c t]; [congruence|].
  cbn [replicate app strip_prefix] in H1, H2.
  destruct (N.eqb_spec BACKTICK c) as [<-|]; [|discriminate].
  destruct t as [|c' t]; [reflexivity|].
  rewrite last_cons_cons. by apply IH.
Qed.

Lemma fence_clean_no_prefix (t x : text) :
  fence_clean t -> t <> [] -> strip_prefix FENCE (t ++ x) = None.
Proof.
  intros [Hd Hl] Hne.
  destruct (strip_prefix FENCE (t ++ x)) as [r|] eqn:E; [|reflexivity].
  exfalso. apply Hl.
  apply (backticks_cover 3 t x r); [exact E | | done].
  by apply has_fence_prefix.
Qed.

Lemma prun_no_fence (s : text) :
  strip_prefix FENCE s = None ->
  prun fenceRegex s [] (fun s' caps => Some (caps, s')) = None.
Proof. intros H. unfold fenceRegex. cbn [prun]. by rewrite H. Qed.

Lemma pexec_eq (r : pattern) (s : text) :
  pexec r s =
    match prun r s [] (fun s' caps => Some (caps, s')) with
    | Some (caps, rest) => Some ([], caps, rest)
    | None =>
        match s with
        | [] => None
        | c :: s' =>
            match pexec r s' with
            | Some (pre, caps, rest) => Some (c :: pre, caps, rest)
            | None => None
            end
        end
    end.
Proof. by destruct s. Qed.

Lemma pexec_no_fence (s : text) :
  has_fence s = false -> pexec fenceRegex s = None.
Proof.
  induction s as [|c s IH]; intros H;
    rewrite pexec_eq, prun_no_fence by by apply has_fence_prefix.
  - reflexivity.
  - rewrite IH; [reflexivity|]. by eapply has_fence_tail.
Qed.

(** X16. A text without three backticks in a row is not changed by
    [_formatCodeBlocks]: it goes to the page as it is, with the markup that
    it may hold. *)
Theorem formatCodeBlocks_without_fence (content : text) :
  has_fence content = false -> _formatCodeBlocks content = content.
Proof.
  intros H. unfold _formatCodeBlocks. cbn [replace_matches].
  by rewrite pexec_no_fence.
Qed.

Lemma pexec_skip_clean (t x : text) :
  fence_clean t ->
  pexec fenceRegex (t ++ x) =
    match pexec fenceRegex x with
    | Some (pre, caps, rest) => Some (t ++ pre, caps, rest)
    | None => None
    end.
Proof.
  induction t as [|c t IH]; intros Hc.
  - cbn [app]. by destruct (pexec fenceRegex x) as [[[pre caps] rest]|].
  - rewrite pexec_eq, prun_no_fence by by apply fence_clean_no_prefix.
    cbn [app]. rewrite IH by by eapply fence_clean_tail.
    by destruct (pexec fenceRegex x) as [[[pre caps] rest]|].
Qed.

(** The lazy group before the closing fence stops at the first fence. *)
Lemma lazy_fence (code post pre : text) (caps : list (option text)) :
  fence_clean code ->
  lazy (cls_test ClsAll) (code ++ FENCE ++ post)
    (fun s' =>
       match strip_prefix FENCE s' with
       | Some r =>
           Some (caps
                   ++ [Some (take (length (pre ++ code ++ FENCE ++ post)
                                   - length s')
                               (pre ++ code ++ FENCE ++ post))], r)
       | None => None
       end) =
  Some (caps ++ [Some (pre ++ code)], post).
Proof.
  revert pre. induction code as [|c code IH]; intros pre Hc.
  - cbn [app]. destruct (FENCE ++ post) as [|b s] eqn:E; [done|].
    cbn [lazy]. rewrite <- E, strip_prefix_app, length_app.
    replace (length pre + length (FENCE ++ post) - length (FENCE ++ post))%nat
      with (length pre) by lia.
    by rewrite take_app_length, app_nil_r.
  - cbn [app lazy].
    change (c :: code ++ FENCE ++ post) with ((c :: code) ++ FENCE ++ post).
    rewrite fence_clean_no_prefix by done.
    cbn [app]. rewrite cls_all.
    replace (pre ++ c :: code ++ FENCE ++ post)
      with ((pre ++ [c]) ++ code ++ FENCE ++ post)
      by (by rewrite <- app_assoc).
    rewrite IH by by eapply fence_clean_tail.
    by rewrite <- app_assoc.
Qed.

Lemma lazy_fence_nil (code post : text) (caps : list (option text)) :
  fence_clean code ->
  lazy (cls_test ClsAll) (code ++ FENCE ++ post)
    (fun s' =>
       match strip_prefix FENCE s' with
       | Some r =>
           Some (caps
                   ++ [Some (take (length (code ++ FENCE ++ post) - length s')
                               (code ++ FENCE ++ post))], r)
       | None => None
       end) =
  Some (caps ++ [Some code], post).
Proof. exact (lazy_fence code post [] caps). Qed.

Lemma word_not_LF (x : char) : is_word x = true -> N.eqb LF x = false.
Proof. intros H. destruct (N.eqb_spec LF x) as [<-|]; [done|reflexivity]. Qed.

(** At a fence that is followed by a word, a line feed, a code without a
    fence and a fence, the expression matches, with the word and the code as
    groups; the first group is [undefined] without a word. *)
Lemma prun_fence (lang code post : text) :
  Forall (fun c => is_word c = true) lang -> fence_clean code ->
  prun fenceRegex (FENCE ++ lang ++ LF :: code ++ FENCE ++ post) []
    (fun s' caps => Some (caps, s')) =
  Some ([match lang with [] => None | _ => Some lang end; Some code], post).
Proof.
  intros Hw Hc. unfold fenceRegex. cbn [prun]. rewrite strip_prefix_app.
  destruct lang as [|x lang].
  - cbn [app groups replicate strip_prefix]. rewrite N.eqb_refl.
    change (is_word LF) with false. cbv iota.
    exact (lazy_fence_nil code post [None] Hc).
  - apply Forall_cons_1 in Hw as [Hx Hw]. cbn [app]. rewrite Hx.
    rewrite (greedy_det is_word).
    + rewrite skip_while_gap by done.
      cbn [strip_prefix]. rewrite N.eqb_refl.
      assert (take (length (x :: lang ++ LF :: code ++ FENCE ++ post)
                    - length (LF :: code ++ FENCE ++ post))
                (x :: lang ++ LF :: code ++ FENCE ++ post) = x :: lang) as ->.
      { change (x :: lang ++ ?r) with ((x :: lang) ++ r).
        rewrite length_app.
        replace (length (x :: lang) + length (LF :: code ++ FENCE ++ post)
                 - length (LF :: code ++ FENCE ++ post))%nat
          with (length (x :: lang)) by lia.
        apply take_app_length. }
      match goal with
      | |- match ?a with _ => _ end = _ =>
          assert (a = Some ([Some (x :: lang); Some code], post)) as ->;
            [|reflexivity]
      end.
      exact (lazy_fence_nil code post [Some (x :: lang)] Hc).
    + intros y t Hy _. cbn [strip_prefix]. by rewrite word_not_LF.
Qed.

Lemma prun_shorter {R} (r : pattern) (s : text) (caps : list (option text))
    (k : text -> list (option text) -> option R) (res : R) :
  prun r s caps k = Some res ->
  exists s' caps', (length s' <= length s)%nat /\ k s' caps' = Some res.
Proof.
  revert s caps k.
  induction r as [l|q c|r IH|r IH|r1 IH1 r2 IH2]; intros s caps k H.
  - cbn [prun] in H. destruct (strip_prefix l s) as [s'|] eqn:E; [|discriminate].
    apply strip_prefix_Some in E as ->. exists s', caps.
    rewrite length_app. split; [lia | done].
  - destruct q; cbn [prun] in H.
    + apply greedy_shorter in H as (s' & Hl & Hk). by exists s', caps.
    + destruct s as [|x s]; [discriminate|].
      destruct (c x); [|discriminate].
      apply greedy_shorter in H as (s' & Hl & Hk). exists s', caps.
      split; [simpl; lia | done].
    + apply lazy_shorter in H as (s' & Hl & Hk). by exists s', caps.
  - cbn [prun] in H. apply IH in H as (s' & caps' & Hl & Hk). eauto.
  - cbn [prun] in H. destruct (prun r s caps k) as [res'|] eqn:E.
    + injection H as ->. by apply IH in E.
    + eauto.
  - cbn [prun] in H. apply IH1 in H as (s1 & caps1 & Hl1 & Hk1).
    apply IH2 in Hk1 as (s2 & caps2 & Hl2 & Hk2).
    exists s2, caps2. split; [lia | done].
Qed.

Lemma prun_chars {R} (l : text) (r : pattern) (s : text)
    (caps : list (option text)) (k : text -> list (option text) -> option R) :
  prun (PCat (PChars l) r) s caps k =
    match strip_prefix l s with
    | Some s' => prun r s' caps k
    | None => None
    end.
Proof. reflexivity. Qed.

(** A match of the expression consumes a fence at least. *)
Lemma pexec_shorter (s pre : text) (caps : list (option text)) (rest : text) :
  pexec fenceRegex s = Some (pre, caps, rest) -> (length rest < length s)%nat.
Proof.
  revert pre. induction s as [|c s IH]; intros pre; rewrite pexec_eq.
  - by rewrite prun_no_fence.
  - destruct (prun fenceRegex (c :: s) [] _) as [[caps' rest']|] eqn:E.
    + intros [= <- <- <-]. unfold fenceRegex in E. rewrite prun_chars in E.
      destruct (strip_prefix FENCE (c :: s)) as [s1|] eqn:E1; [|discriminate].
      apply strip_prefix_Some in E1. rewrite E1.
      apply prun_shorter in E as (s2 & caps2 & Hl2 & [= _ <-]).
      rewrite length_app. change (length FENCE) with 3%nat. lia.
    + destruct (pexec fenceRegex s) as [[[pre' caps'] rest']|] eqn:E';
        [|discriminate].
      intros [= <- <- <-]. specialize (IH _ eq_refl). simpl. lia.
Qed.

(** The replacement ends by itself: more fuel than the length of the text
    changes nothing. *)
Lemma replace_matches_fuel (f1 f2 : nat) (s : text) :
  (length s < f1)%nat -> (length s < f2)%nat ->
  replace_matches f1 fenceRegex fenceReplacer s =
    replace_matches f2 fenceRegex fenceReplacer s.
Proof.
  revert f2 s. induction f1 as [|f1 IH]; intros f2 s H1 H2; [lia|].
  destruct f2 as [|f2]; [lia|]. cbn [replace_matches].
  destruct (pexec fenceRegex s) as [[[pre caps] rest]|] eqn:E; [|reflexivity].
  apply pexec_shorter in E. do 2 f_equal. apply IH; lia.
Qed.

(** X17. A fenced code in a text: after a text without a fence, a fence that
    is followed by a word or nothing, a line feed, a code without a fence and
    a closing fence becomes the code element of the template, with the word
    as a class and the escaped code; the text before it stays as it is, and
    the text after the closing fence is formatted in the same way. *)
Theorem formatCodeBlocks_fenced_code (pre lang code post : text) :
  fence_clean pre -> Forall (fun c => is_word c = true) lang ->
  fence_clean code ->
  _formatCodeBlocks (pre ++ FENCE ++ lang ++ LF :: code ++ FENCE ++ post) =
    pre ++ codeBlockHtml (Some lang) code ++ _formatCodeBlocks post.
Proof.
  intros Hp Hw Hc. unfold _formatCodeBlocks.
  set (content := pre ++ FENCE ++ lang ++ LF :: code ++ FENCE ++ post).
  change (replace_matches (S (length content)) fenceRegex fenceReplacer content)
    with (match pexec fenceRegex content with
          | Some (pre, caps, rest) =>
              pre ++ fenceReplacer caps
                ++ replace_matches (length content) fenceRegex fenceReplacer rest
          | None => content
          end).
  unfold content.
  rewrite pexec_skip_clean, pexec_eq, prun_fence by done.
  rewrite app_nil_r. f_equal. f_equal.
  - unfold fenceReplacer. by destruct lang.
  - apply replace_matches_fuel; [|lia].
    rewrite !length_app. cbn [length]. rewrite !length_app. lia.
Qed.


(** *** [_formatConversation] *)

Lemma entry_roles_lookup (calls : list bool) (i : nat) (r : Role) :
  entry_roles calls !! i = Some r ->
  r = if Nat.even i then user else assistant.
Proof.
  revert i. induction calls as [|c calls IH]; intros i; [done|].
  change (entry_roles (c :: calls))
    with (user :: assistant :: entry_roles calls).
  destruct i as [|[|i]]; cbn [lookup list_lookup].
  - by intros [= <-].
  - by intros [= <-].
  - intros H. apply IH in H. by rewrite Nat.even_succ_succ.
Qed.

Lemma even_mod_4 (i : nat) : (i mod 4 =? 2)%nat = true -> Nat.even i = true.
Proof.
  intros H. apply Nat.eqb_eq in H. apply Nat.even_spec.
  exists (2 * (i / 4) + 1)%nat. pose proof (Nat.div_mod_eq i 4). lia.
Qed.

(** X18. The labels of the entries of the transcript.  In a transcript made
    of pairs of a user entry and an assistant entry, as a run builds it, the
    label [Generator] is never used: an entry of the assistant is labelled as
    a reviewer, the answers of the generator too, with the number of the
    current round and not of the round of the entry. *)
Theorem assistant_entries_are_labelled_reviewer (st : State)
    (calls : list bool) :
  roles (_conversationHistory st) = entry_roles calls ->
  _formatConversation st =
    join_nl
      (map (fun msg =>
              entryHtml msg
                (match Message.role msg with
                 | user => js "User"
                 | _ =>
                     concat [ js "AI "; toString (_currentIteration st + 1);
                              js " - "; js "Reviewer" ]
                 end))
         (_conversationHistory st)).
Proof.
  intros Hr. unfold _formatConversation. f_equal.
  rewrite <- (imap_const _ (_conversationHistory st)).
  apply imap_ext. intros i msg Hi. unfold const, speaker. f_equal.
  destruct (Message.role msg) eqn:Em; [|done|];
    (destruct (i mod 4 =? 2)%nat eqn:E; [|done]);
    apply even_mod_4 in E;
    assert (roles (_conversationHistory st) !! i = Some (Message.role msg))
      as Hl by (unfold roles; by rewrite list_lookup_fmap, Hi);
    rewrite Hr in Hl; apply entry_roles_lookup in Hl;
    rewrite E, Em in Hl; discriminate.
Qed.

(** ** The listener of the panel and the input boxes *)



(** X20. Without a request or without a number, nothing starts: when the
    first box is dismissed or left empty, or when the second box is dismissed
    or gives a text that [parseInt] reads as no number or as zero, the panel
    is as it was. *)
Theorem dismissed_inputs_start_nothing (st : State) (c i : option text) :
  c = None \/ c = Some []
  \/ match i with
     | Some t => truthy_number (parseInt t) = false
     | None => True
     end ->
  startConversation st (c, i) = st.
Proof.
  intros H. unfold startConversation, onDidReceiveMessage at 1.
  cbn [WebviewMessage.command fst snd]. rewrite decide_True by done.
  unfold _getCodeRequest.
  destruct c as [[|x c]|]; try done; destruct i as [[|y i]|]; try done.
  destruct H as [H|[H|H]]; [done|done|].
  cbn [truthy andb]. unfold webviewListener.
  cbn [WebviewMessage.command WebviewMessage.codeRequest
       WebviewMessage.iterations].
  rewrite decide_True by done. cbn [truthy andb]. by rewrite H.
Qed.

(** X21. The guard of the listener of the panel.  A [continueConversation]
    message without a request, with an empty request, without a number of
    iterations, or with a number that is [NaN] or zero changes nothing, and a
    message with another command than the two of the listener changes
    nothing.  A negative number of iterations is taken: the run that it
    starts clears the transcript and the counter, keeps the negative number
    as [maxIterations], and sends no request. *)
Theorem continue_message_guard (st : State) (boxes : option text * option text) :
  (forall c n,
      c = None \/ c = Some [] \/ n = None \/ n = Some None
      \/ n = Some (Some 0) ->
      onDidReceiveMessage st
        (WebviewMessage.mk (js "continueConversation") c n) boxes
      = (st, None))
  /\ (forall command c n,
        command <> js "startConversation" ->
        command <> js "continueConversation" ->
        onDidReceiveMessage st (WebviewMessage.mk command c n) boxes
        = (st, None))
  /\ (forall c n,
        c <> [] -> n < 0 ->
        onDidReceiveMessage st
          (WebviewMessage.mk (js "continueConversation") (Some c)
             (Some (Some n))) boxes
        = (with_history [] (with_iteration 0 (with_maxIterations n st)), None)).
Proof.
  split; [|split].
  - intros c n H. unfold onDidReceiveMessage.
    cbn [WebviewMessage.command WebviewMessage.codeRequest
         WebviewMessage.iterations].
    rewrite decide_False by done. rewrite decide_True by done.
    destruct c as [[|x c]|]; try done; destruct n as [[n|]|]; try done.
    destruct H as [H|[H|[H|[H|H]]]]; try done.
    by injection H as ->.
  - intros command c n H1 H2. unfold onDidReceiveMessage.
    cbn [WebviewMessage.command]. by rewrite !decide_False by done.
  - intros c n Hc Hn. unfold onDidReceiveMessage.
    cbn [WebviewMessage.command WebviewMessage.codeRequest
         WebviewMessage.iterations].
    rewrite decide_False by done. rewrite decide_True by done.
    destruct c as [|x c]; [done|]. cbn [truthy andb truthy_number].
    destruct (Z.eqb_spec n 0) as [->|_]; [lia|]. cbn [negb].
    unfold _startCodeGeneration.
    change (_maxIterations (with_history [] (with_iteration 0
                                               (with_maxIterations n st))))
      with n.
    destruct (Z.to_nat n) eqn:E; [|lia]. cbn [_generateAndReview].
    change (_currentIteration (with_history [] (with_iteration 0
                                               (with_maxIterations n st))))
      with 0.
    change (_maxIterations (with_history [] (with_iteration 0
                                               (with_maxIterations n st))))
      with n.
    by destruct (Z.ltb_spec 0 n); [lia|].
Qed.


(** ** From the answers of the service to the disk *)

(** X22. After [_handleFileModification] the directory of the target exists,
    whatever the operation is and whether a file is written or not. *)
Theorem target_directory_exists (fs : FS) (m : FileModification.t) :
  dirExists (_handleFileModification fs m)
    (path_dirname (FileModification.filePath m)) = true.
Proof.
  destruct (handler_frame fs m) as (_ & _ & _ & Hd).
  unfold dirExists. apply bool_decide_eq_true. rewrite Hd.
  unfold ensureDirectory, dirExists.
  case_bool_decide as E; cbn [negb]; [done|].
  unfold mkdirSync. cbn [dirs dir_chain].
  apply elem_of_union_l, elem_of_list_to_set, elem_of_cons. by left.
Qed.

Lemma generateAndReview_no_blocks (fuel : nat) (s st : State)
    (prompt request : text) :
  (forall n msgs t,
      chat n msgs = Completion (Some t) -> has_delimiter t = false) ->
  disk s = disk st /\ _codeBlocks s = _codeBlocks st ->
  disk (fst (_generateAndReview fuel s prompt request)) = disk st
  /\ _codeBlocks (fst (_generateAndReview fuel s prompt request))
     = _codeBlocks st.
Proof.
  intros Hchat H0.
  assert (match _generateAndReview fuel s prompt request with
          | (s', Threw) => disk s' = disk st /\ _codeBlocks s' = _codeBlocks st
          | (s', _) => disk s' = disk st /\ _codeBlocks s' = _codeBlocks st
          end) as H.
  { apply (generateAndReview_invariant
             (fun s => disk s = disk st /\ _codeBlocks s = _codeBlocks st)
             (fun s => disk s = disk st /\ _codeBlocks s = _codeBlocks st)
             (fun a s =>
                has_delimiter a = false
                /\ disk s = disk st /\ _codeBlocks s = _codeBlocks st));
      [| | | | |exact H0].
    - by intros a s1 (_ & H).
    - intros s1 sp um g s' a [Hd Hb] E.
      destruct (generateResponse_cases s1 sp um g)
        as [[_ E']|(a' & _ & _ & _ & Ha & E')]; rewrite E' in E; [done|].
      injection E as <- <-. split; [|done].
      destruct Ha as [->|Ha]; [reflexivity | by eapply Hchat].
    - intros s1 sp um g s' [Hd Hb] E.
      destruct (generateResponse_cases s1 sp um g)
        as [[_ E']|(a' & _ & _ & _ & _ & E')]; rewrite E' in E; [|done].
      by injection E as <-.
    - intros a s1 i (Ha & Hd & Hb).
      by rewrite saveGeneratedCode_no_delimiter.
    - by intros a s1 (_ & H). }
  by destruct (_generateAndReview fuel s prompt request) as [s' []].
Qed.

(** X23. A run whose answers hold no line of fifty dashes writes nothing:
    the disk and the table of the blocks are as they were, whether the run
    fails or not. *)
Theorem run_without_blocks_writes_nothing (st : State) (codeRequest : text) :
  (forall n msgs t,
      chat n msgs = Completion (Some t) -> has_delimiter t = false) ->
  let st' := _startCodeGeneration st codeRequest in
  disk st' = disk st /\ _codeBlocks st' = _codeBlocks st.
Proof.
  intros Hchat st'. unfold st', _startCodeGeneration.
  set (st0 := with_history [] (with_iteration 0 st)).
  pose proof (generateAndReview_no_blocks (Z.to_nat (_maxIterations st0)) st0
                st (generatorPrompt codeRequest) codeRequest Hchat
                ltac:(done)) as H.
  by destruct (_generateAndReview _ st0 _ _) as [s' []].
Qed.

Lemma fold_applyParsed_disk (l : list (text * CodeBlock.t)) (s1 s2 : State) :
  disk s1 = disk s2 ->
  disk (fold_left applyParsed l s1) = disk (fold_left applyParsed l s2).
Proof.
  revert s1 s2. induction l as [|[op b] l IH]; intros s1 s2 H; [done|].
  cbn [fold_left]. apply IH. unfold applyParsed.
  cbn [disk with_disk with_codeBlocks]. by rewrite H.
Qed.

(** X24. One round from the answer to the disk.  In a run of one iteration
    whose answer is a text of prose and blocks, the well-formed blocks of the
    answer are applied to the disk in their order; the transcript holds the
    request and the answer, one generate call is sent, and no review call. *)
Theorem single_round_applies_blocks (st : State) (codeRequest : text)
    (segs : list segment) :
  _maxIterations st = 1 ->
  well_formed_text segs -> render segs <> [] ->
  chat (length (requests st))
    [ Message.mk system (generatorSystemPrompt (generatorPrompt codeRequest));
      Message.mk user codeRequest ]
  = Completion (Some (render segs)) ->
  let st' := _startCodeGeneration st codeRequest in
  disk st' =
    disk (fold_left applyParsed
            (map (block_of (_outputPath st)) (blocks_of segs)) st)
  /\ _conversationHistory st' =
       [Message.mk user codeRequest; Message.mk assistant (render segs)]
  /\ callKinds st' = callKinds st ++ [true]
  /\ _currentIteration st' = 1
  /\ errorShown st' = false.
Proof.
  intros Hmax Hwf Hne Hc st'.
  set (st0 := with_history [] (with_iteration 0 st)).
  set (st1 :=
         with_error false
           (with_history
              [Message.mk user codeRequest; Message.mk assistant (render segs)]
              (with_requests
                 (requests st
                    ++ [mkRequest true
                          [ Message.mk system
                              (generatorSystemPrompt
                                 (generatorPrompt codeRequest));
                            Message.mk user codeRequest ]])
                 st0))).
  assert (truthy (render segs) = true) as Ht by by destruct (render segs).
  destruct (saveGeneratedCode_conversation st1 (render segs) 0)
    as (Eh & Ei & Em & Eo & Er & Ee).
  assert (_generateResponse st0
            (generatorSystemPrompt (generatorPrompt codeRequest))
            codeRequest true = (st1, Some (render segs))) as Eg.
  { unfold _generateResponse.
    change (_conversationHistory st0) with (@nil Message.t).
    change (requests st0) with (requests st). cbn [app].
    by rewrite Hc, Ht. }
  assert (round st0 (generatorPrompt codeRequest) codeRequest =
            (with_iteration 1 (_saveGeneratedCode st1 (render segs) 0),
             Some codeRequest)) as Eround.
  { unfold round. change (_currentIteration st0 =? 0) with true. cbv iota.
    rewrite Eg, Ht. change (_currentIteration st1) with 0.
    rewrite Ei, Em. change (_currentIteration st1) with 0.
    change (_maxIterations st1) with (_maxIterations st). by rewrite Hmax. }
  assert (st' = with_iteration 1 (_saveGeneratedCode st1 (render segs) 0))
    as ->.
  { unfold st', _startCodeGeneration. fold st0.
    change (_maxIterations st0) with (_maxIterations st). rewrite Hmax.
    change (Z.to_nat 1) with 1%nat. cbn [_generateAndReview].
    change (_currentIteration st0) with 0.
    change (_maxIterations st0) with (_maxIterations st). rewrite Hmax.
    change (0 <? 1) with true. cbv iota. rewrite Eround.
    cbn [_currentIteration _maxIterations with_iteration]. rewrite Em.
    change (_maxIterations st1) with (_maxIterations st). by rewrite Hmax. }
  unfold callKinds.
  cbn [disk _conversationHistory requests errorShown _currentIteration
       with_iteration].
  rewrite Eh, Er, Ee. split; [|split; [|split]].
  - rewrite saveGeneratedCode_parsed.
    change (_outputPath st1) with (_outputPath st).
    rewrite parsedBlocks_layout by done. by apply fold_applyParsed_disk.
  - reflexivity.
  - cbn [requests st1 with_error with_history with_requests].
    by rewrite map_app.
  - done.
Qed.


(** ** The trace of a run when the service answers *)

Lemma generateResponse_answer (st : State) (sp um : text) (g : bool) :
  let msgs :=
    Message.mk system sp :: _conversationHistory st ++ [Message.mk user um] in
  let st1 := with_requests (requests st ++ [mkRequest g msgs]) st in
  _generateResponse st sp um g =
    match answer (chat (length (requests st)) msgs) with
    | Some a =>
        (with_error false
           (with_history
              (_conversationHistory st
                 ++ [Message.mk user um; Message.mk assistant a]) st1),
         Some a)
    | None => (st1, None)
    end.
Proof.
  unfold _generateResponse, answer. by destruct (chat _ _) as [|[t|]].
Qed.

Lemma answer_responsive (n : nat) (msgs : list Message.t) :
  responsive ->
  exists a, answer (chat n msgs) = Some a /\ truthy a = true.
Proof.
  intros Hr. unfold answer. destruct (chat n msgs) as [|[t|]] eqn:E.
  - by apply Hr in E.
  - eexists. split; [reflexivity|]. by destruct t.
  - eexists. by split.
Qed.

Lemma full_rounds_length (n0 : nat) (c : text) (i : nat) (h : list Message.t)
    (new : list Request) (request : text) :
  full_rounds n0 c i h new request ->
  length new = (2 * i)%nat /\ length h = (4 * i)%nat.
Proof.
  induction 1 as [|i h new request response review _ [IH1 IH2] _ _]; [done|].
  rewrite !length_app. cbn [length]. lia.
Qed.

(** The loop from the start of a round, when the service answers. *)
Lemma generateAndReview_trace (reqs0 : list Request) (c : text) (fuel : nat) :
  responsive ->
  forall (st : State) (request : text) (i : nat) (h : list Message.t)
         (new : list Request),
    _currentIteration st = Z.of_nat i -> Z.of_nat i < _maxIterations st ->
    (Z.to_nat (_maxIterations st) - i <= fuel)%nat ->
    _conversationHistory st = h -> requests st = reqs0 ++ new ->
    full_rounds (length reqs0) c i h new request ->
    let st' :=
      fst (_generateAndReview fuel st (generatorPrompt c) request) in
    let j := (Z.to_nat (_maxIterations st) - 1)%nat in
    exists h' new' request' response,
      full_rounds (length reqs0) c j h' new' request'
      /\ answer (chat (length reqs0 + 2 * j)
                   (generateMessages c j h' request')) = Some response
      /\ _conversationHistory st' =
           h' ++ [Message.mk user request'; Message.mk assistant response]
      /\ requests st' =
           reqs0 ++ new'
             ++ [mkRequest true (generateMessages c j h' request')].
Proof.
  intros Hr. induction fuel as [|fuel IH];
    intros st request i h new Hcur Hlt Hfuel Hh Hq Hrounds; [lia|].
  destruct (full_rounds_length _ _ _ _ _ _ Hrounds) as [Hln Hlh].
  cbn [_generateAndReview].
  destruct (Z.ltb_spec (_currentIteration st) (_maxIterations st)); [|lia].
  unfold round. rewrite generateResponse_answer.
  assert (generatorSystemPrompt
            (if _currentIteration st =? 0
             then generatorPrompt c else improveInstruction)
          = generatorSystemPrompt
              (match i with
               | O => generatorPrompt c
               | S _ => improveInstruction
               end)) as ->.
  { rewrite Hcur. by destruct i. }
  rewrite Hh, Hq, length_app, Hln.
  fold (generateMessages c i h request).
  destruct (answer_responsive (length reqs0 + 2 * i)
              (generateMessages c i h request) Hr) as (response & Ea & Ht).
  rewrite Ea, Ht.
  match goal with
  | |- context [_saveGeneratedCode ?s ?t ?k] =>
      pose proof (saveGeneratedCode_conversation s t k)
        as (Eh & Ei & Em & _ & Er & _);
      set (st2 := _saveGeneratedCode s t k) in *
  end.
  cbn [_conversationHistory _currentIteration _maxIterations requests
       with_error with_history with_requests] in Eh, Ei, Em, Er.
  rewrite Ei, Em.
  destruct (Z.ltb_spec (_currentIteration st) (_maxIterations st - 1))
    as [Hmore|Hlast].
  - rewrite generateResponse_answer. rewrite Eh, Er, length_app, length_app, Hln.
    cbn [length].
    replace (length reqs0 + (2 * i + 1))%nat with (length reqs0 + 2 * i + 1)%nat
      by lia.
    fold (reviewMessages h request response).
    destruct (answer_responsive (length reqs0 + 2 * i + 1)
                (reviewMessages h request response) Hr) as (review & Eb & Ht').
    rewrite Eb, Ht'.
    match goal with
    | |- context [_generateAndReview fuel ?s _ _] => set (st3 := s)
    end.
    destruct (IH st3 (nextRequest response review) (S i)
                (h ++ [ Message.mk user request; Message.mk assistant response;
                        Message.mk user []; Message.mk assistant review ])
                (new ++ [ mkRequest true (generateMessages c i h request);
                          mkRequest false (reviewMessages h request response) ]))
      as (h' & new' & request' & response' & Hr' & Ea' & Hh' & Hq').
    + unfold st3. cbn [_currentIteration with_iteration with_error
                        with_history with_requests]. rewrite Ei. lia.
    + unfold st3. cbn [_maxIterations with_iteration with_error
                        with_history with_requests]. rewrite Em. lia.
    + unfold st3. cbn [_maxIterations with_iteration with_error
                        with_history with_requests]. rewrite Em. lia.
    + unfold st3. cbn [_conversationHistory with_iteration with_error
                        with_history with_requests].
      by rewrite <- app_assoc.
    + unfold st3. cbn [requests with_iteration with_error with_history
                        with_requests].
      by rewrite <- !app_assoc.
    + by eapply full_rounds_S.
    + assert (_maxIterations st3 = _maxIterations st) as Em3.
      { unfold st3. cbn [_maxIterations with_iteration with_error
                          with_history with_requests]. exact Em. }
      rewrite Em3 in *. by exists h', new', request', response'.
  - match goal with
    | |- context [_generateAndReview fuel ?s _ _] => set (st3 := s)
    end.
    assert (_generateAndReview fuel st3 (generatorPrompt c) request
            = (st3, Finished)) as ->.
    { assert ((_currentIteration st3 <? _maxIterations st3) = false) as E.
      { apply Z.ltb_ge. unfold st3.
        cbn [_currentIteration _maxIterations with_iteration].
        rewrite ?Ei, ?Em. lia. }
      destruct fuel; cbn [_generateAndReview]; by rewrite E. }
    assert ((Z.to_nat (_maxIterations st) - 1)%nat = i) as -> by lia.
    exists h, new, request, response. split; [done|]. split; [done|].
    unfold st3. cbn [fst _conversationHistory requests with_iteration].
    rewrite Eh, Er. split; [done|]. by rewrite <- app_assoc.
Qed.

(** X26. The whole trace of a run when the service answers, for a positive
    [maxIterations] N.  The run makes N - 1 rounds of a generate call and a
    review call, and then one generate call.  The first generate call has the
    system prompt of the generator around the first prompt and the request
    as its user message; the later ones have the system prompt around the
    instruction to improve, and as their user message the text built from
    the two answers of the round before.  A review call has the prompt of
    the reviewer around the answer of the generator of its round, and an
    empty user message.  Each call carries the whole transcript, and the
    transcript holds the user message and the answer of each call, in the
    order of the calls. *)
Theorem responsive_run_trace (st : State) (c : text) :
  responsive -> 1 <= _maxIterations st ->
  let st' := _startCodeGeneration st c in
  let n0 := length (requests st) in
  let j := (Z.to_nat (_maxIterations st) - 1)%nat in
  exists h new request response,
    full_rounds n0 c j h new request
    /\ answer (chat (n0 + 2 * j) (generateMessages c j h request))
       = Some response
    /\ _conversationHistory st' =
         h ++ [Message.mk user request; Message.mk assistant response]
    /\ requests st' =
         requests st ++ new
           ++ [mkRequest true (generateMessages c j h request)].
Proof.
  intros Hr Hn st' n0 j. subst st' n0 j. unfold _startCodeGeneration.
  set (st0 := with_history [] (with_iteration 0 st)).
  destruct (generateAndReview_trace (requests st) c
              (Z.to_nat (_maxIterations st0)) Hr st0 c 0%nat [] [])
    as (h & new & request & response & Hrounds & Ea & Hh & Hq);
    try done.
  - cbn. lia.
  - cbn. lia.
  - cbn. by rewrite app_nil_r.
  - constructor.
  - change (_maxIterations st0) with (_maxIterations st) in *.
    exists h, new, request, response.
    destruct (_generateAndReview _ st0 _ c) as [s []]; by repeat split.
Qed.

End Extension.

(** ** The claims on sample inputs *)

Ltac by_computation :=
  first
    [ apply (bool_decide_unpack _); vm_compute; exact I
    | vm_compute; first [reflexivity | discriminate | exact I] ].

Lemma sample_text_well_formed (file blockId startLine operation content : string) :
  unquoted (js file) -> unquoted (js blockId) -> unquoted (js operation) ->
  js startLine <> [] -> digits (js startLine) ->
  clean (LF :: js content ++ [LF]) ->
  well_formed (sample_text file blockId startLine operation content).
Proof.
  intros [? ?] [? ?] [? ?] ? ? [? ?].
  repeat split; first [assumption | intros i; repeat constructor].
Defined.

Lemma sample_segments_well_formed : well_formed_text sample_segments.
Proof.
  cbn [well_formed_text sample_segments].
  split; [split; by_computation|].
  split; [apply sample_text_well_formed; repeat split; by_computation|].
  split; [split; by_computation|].
  split.
  { repeat split; try by_computation. intros i. repeat constructor. }
  split; [split; by_computation|].
  split; [split; by_computation|].
  split; [apply sample_text_well_formed; repeat split; by_computation|].
  exact I.
Defined.



(** C2 on the file of ten lines, [0] to [9]: the block with the range [3,5]
    and the content [new] leaves the eight lines [0], [1], [new], [5], [6],
    [7], [8] and [9]. *)
Lemma modify_sample :
  let fs := sample_fs ten_text in
  let b := sample_block 3 5 (js "new") in
  let fs' :=
    _handleFileModification simple_dirname fs
      (FileModification.mk sample_path [b] (js "modify")) in
  (0 < CodeBlock.startLine b
   /\ CodeBlock.startLine b <= CodeBlock.endLine b
   /\ CodeBlock.endLine b <= Z.of_nat (length (currentLines fs sample_path)))
  /\ currentLines fs sample_path
     = [js "0"; js "1"; js "2"; js "3"; js "4"; js "5"; js "6"; js "7";
        js "8"; js "9"]
  /\ files fs' !! sample_path
     = Some [48; 10; 49; 10; 110; 101; 119; 10; 53; 10; 54; 10; 55; 10; 56;
             10; 57]%N
  /\ currentLines fs' sample_path
     = [js "0"; js "1"; js "new"; js "5"; js "6"; js "7"; js "8"; js "9"]
  /\ length (currentLines fs' sample_path) = 8%nat.
Proof.
  intros fs b fs'.
  assert (0 < CodeBlock.startLine b) as H1 by by_computation.
  assert (CodeBlock.startLine b <= CodeBlock.endLine b) as H2
    by by_computation.
  assert (CodeBlock.endLine b <= Z.of_nat (length (currentLines fs sample_path)))
    as H3 by by_computation.
  split; [done|]. split; [by_computation|].
  destruct (modify_replaces_range simple_dirname fs sample_path b H1 H2 H3)
    as (_ & Htext & Hlines).
  fold fs' in Htext, Hlines.
  assert (single_line (CodeBlock.content b)) as Hone by by_computation.
  destruct (Hlines Hone) as (Hl & Hex).
  destruct Hex as (Hlen & _); [reflexivity | reflexivity | by_computation|].
  split; [|split; [|exact Hlen]].
  - rewrite (Htext [js "0"; js "1"] [50; 10; 51; 10; 52]%N
               [10; 53; 10; 54; 10; 55; 10; 56; 10; 57]%N).
    + reflexivity.
    + repeat constructor; by_computation.
    + reflexivity.
    + reflexivity.
    + by right.
    + by_computation.
  - rewrite Hl. by_computation.
Defined.

(** C4 on the file of three lines: a [delete] up to line 5 changes nothing. *)
Lemma out_of_range_sample :
  let fs := sample_fs abc_lines in
  let b := sample_block 2 5 [] in
  (js "delete" = js "modify" \/ js "delete" = js "delete")
  /\ Z.of_nat (length (currentLines fs sample_path)) < CodeBlock.endLine b
  /\ files (_handleFileModification simple_dirname fs
              (FileModification.mk sample_path [b] (js "delete")))
     = files fs.
Proof.
  intros fs b.
  assert (Z.of_nat (length (currentLines fs sample_path)) < CodeBlock.endLine b)
    as H by by_computation.
  split; [by right|]. split; [exact H|].
  apply (out_of_range_not_applied simple_dirname fs sample_path (js "delete") b);
    [by right | exact H].
Defined.

(** C5 on a missing file and on a file with one line. *)
Lemma append_sample :
  let b := makeCodeBlock simple_join simple_extname sample_out (js "a.txt")
             (js "b1") 1 (js "  more" ++ [LF]) in
  (files fresh_disk !! sample_path = None
   /\ files (_handleFileModification simple_dirname fresh_disk
               (FileModification.mk sample_path [b] (js "append")))
        !! sample_path = Some (js "more"))
  /\ (files (sample_fs (js "old")) !! sample_path = Some (js "old")
      /\ js "old" <> []
      /\ files (_handleFileModification simple_dirname (sample_fs (js "old"))
                  (FileModification.mk sample_path [b] (js "append")))
           !! sample_path = Some (js "old" ++ [LF] ++ js "more")).
Proof.
  intros b.
  assert (files fresh_disk !! sample_path = None) as H1 by by_computation.
  assert (files (sample_fs (js "old")) !! sample_path = Some (js "old"))
    as H2 by by_computation.
  split; [split; [exact H1|] | split; [exact H2 | split; [discriminate|]]].
  - apply (proj1 (append_content simple_join simple_dirname simple_extname
                    fresh_disk sample_out (js "a.txt") (js "b1") 1
                    (js "  more" ++ [LF]))).
    by left.
  - apply (proj2 (append_content simple_join simple_dirname simple_extname
                    (sample_fs (js "old")) sample_out (js "a.txt") (js "b1") 1
                    (js "  more" ++ [LF])) (js "old")); [exact H2 | discriminate].
Defined.

(** C6 on the file with the lines [a] and [b]: the content [new] becomes the
    first line with start line 1, the line between [a] and [b] with start
    line 2, and the last line with start line 3. *)
Lemma insert_sample :
  let fs := sample_fs ab_text in
  let after startLine :=
    _handleFileModification simple_dirname fs
      (FileModification.mk sample_path
         [sample_block startLine (startLine + 1) (js "new")] (js "insert")) in
  (0 < 1 /\ 0 < 2 /\ 0 < 3)
  /\ currentLines fs sample_path = [js "a"; js "b"]
  /\ files (after 1) !! sample_path = Some [110; 101; 119; 10; 97; 10; 98]%N
  /\ currentLines (after 1) sample_path = [js "new"; js "a"; js "b"]
  /\ files (after 2) !! sample_path = Some [97; 10; 110; 101; 119; 10; 98]%N
  /\ files (after 3) !! sample_path = Some [97; 10; 98; 10; 110; 101; 119]%N.
Proof.
  intros fs after.
  assert (currentLines fs sample_path = [js "a"; js "b"]) as Hab
    by by_computation.
  split; [done|]. split; [exact Hab|].
  destruct (insert_before_start_line simple_dirname fs sample_path
              (sample_block 1 2 (js "new")) eq_refl)
    as (_ & _ & _ & _ & _ & _ & Hex).
  destruct (Hex eq_refl Hab) as (Htext & Hlines).
  split; [exact Htext|]. split; [apply Hlines; by_computation|].
  destruct (insert_before_start_line simple_dirname fs sample_path
              (sample_block 2 3 (js "new")) eq_refl)
    as (_ & _ & _ & Hbefore & _).
  destruct (insert_before_start_line simple_dirname fs sample_path
              (sample_block 3 4 (js "new")) eq_refl)
    as (_ & _ & _ & _ & Hend & _).
  split.
  - apply (Hbefore [js "a"] (js "b")); [repeat constructor | |]; by_computation.
  - apply (Hend ab_text); by_computation.
Defined.

(** C7 as it is stated fails: no block that comes from a text leaves [a] and
    [c] when it is applied as a [delete] to the lines [a], [b] and [c]. *)
Lemma no_parsed_delete_of_one_line :
  ~ exists (file id : text) (startLine : Z) (code : text),
      let b := makeCodeBlock simple_join simple_extname sample_out file id
                 startLine code in
      let p := CodeBlock.filePath b in
      currentLines
        (_handleFileModification simple_dirname (mkFS {[ p := abc_lines ]} ∅)
           (FileModification.mk p [b] (js "delete"))) p
      = [js "a"; js "c"].
Proof.
  intros (file & id & startLine & code & H).
  eapply (parsed_delete_two_lines simple_join simple_dirname simple_extname);
    [|exact H].
  erewrite currentLines_lookup; [|apply lookup_singleton_eq]. reflexivity.
Qed.

(** C7 as the code has it, on the file with the lines [a], [b] and [c]: the
    block with start line 2 and a content of one line removes the lines 2 and
    3. *)
Lemma delete_sample :
  let fs := sample_fs abc_lines in
  let b := makeCodeBlock simple_join simple_extname sample_out (js "a.txt")
             (js "b1") 2 (js "b") in
  (0 < CodeBlock.startLine b
   /\ CodeBlock.startLine b <= CodeBlock.endLine b
   /\ CodeBlock.endLine b <= Z.of_nat (length (currentLines fs sample_path)))
  /\ files (_handleFileModification simple_dirname fs
              (FileModification.mk sample_path [b] (js "delete")))
       !! sample_path = Some (js "a").
Proof.
  intros fs b.
  assert (0 < CodeBlock.startLine b) as H1 by by_computation.
  assert (CodeBlock.startLine b <= CodeBlock.endLine b) as H2 by by_computation.
  assert (CodeBlock.endLine b <= Z.of_nat (length (currentLines fs sample_path)))
    as H3 by by_computation.
  split; [done|].
  rewrite (proj1 (delete_removes_range simple_join simple_dirname simple_extname)
             fs sample_path b H1 H2 H3).
  by_computation.
Defined.

Lemma sample_chat_responsive : responsive sample_chat.
Proof. intros n msgs. discriminate. Defined.

(** C8 on a run of three rounds. *)
Lemma run_sample :
  let st' :=
    _startCodeGeneration simple_join simple_dirname simple_extname sample_chat
      (fun r => r) (js "improve") (fun i => i) (fun r => r)
      (fun a b => a ++ b) (sample_state 3) (js "request") in
  (responsive sample_chat /\ 1 <= _maxIterations (sample_state 3))
  /\ callKinds st' = [true; false; true; false; true]
  /\ _currentIteration st' = 3.
Proof.
  intros st'.
  assert (1 <= _maxIterations (sample_state 3)) as H by by_computation.
  split; [split; [exact sample_chat_responsive | exact H]|].
  destruct (run_alternates simple_join simple_dirname simple_extname sample_chat
              (fun r => r) (js "improve") (fun i => i) (fun r => r)
              (fun a b => a ++ b) (sample_state 3) (js "request")
              sample_chat_responsive H)
    as (_ & _ & _ & _ & Hi & _ & H3).
  split; [exact (H3 eq_refl) | exact Hi].
Defined.


(** C3 as it is stated fails for [append]: a block whose start line is 0 and
    whose operation is [append] is applied, and creates the file. *)
Lemma append_at_zero_writes :
  let text := render [Block (sample_text "a.txt" "b1" "0" "append" "written")] in
  let st := sample_state 1 in
  let st' :=
    _saveGeneratedCode simple_join simple_dirname simple_extname st text 0 in
  well_formed_text [Block (sample_text "a.txt" "b1" "0" "append" "written")]
  /\ parsedBlocks simple_join simple_extname sample_out text =
       [ (js "append",
          CodeBlock.mk (js "b1") sample_path 0 1 (js "written") (js "txt")) ]
  /\ files (disk st) !! sample_path = None
  /\ files (disk st') !! sample_path = Some (js "written").
Proof.
  split; [|repeat split; by_computation].
  split; [|exact I].
  apply sample_text_well_formed; repeat split; by_computation.
Qed.

(** C3 as the code has it, on samples: a [delete] block at start line 0
    changes no file, and the malformed block of the sample text is skipped
    while the blocks around it are extracted. *)
Lemma start_line_zero_sample :
  let cb := sample_block 0 1 [] in
  let pre :=
    [ Prose (js "Here is the code." ++ [LF]);
      Block (sample_text "a.txt" "b1" "1" "append" "hello");
      Prose [LF] ] in
  let bad := sample_text "a.txt" "b2" "-1" "append" "never" in
  let post :=
    [ Prose [LF]; Block (sample_text "a.txt" "b3" "1" "insert" "first") ] in
  (CodeBlock.startLine cb <= 0 /\ js "delete" <> js "append"
   /\ well_formed_text (pre ++ Malformed bad :: post))
  /\ files (disk (applyParsed simple_dirname
                    (with_disk (sample_fs abc_lines) (sample_state 1))
                    (js "delete", cb)))
     = files (sample_fs abc_lines)
  /\ parsedBlocks simple_join simple_extname sample_out
       (render (pre ++ Malformed bad :: post))
     = [ (js "append",
          CodeBlock.mk (js "b1") sample_path 1 2 (js "hello") (js "txt"));
         (js "insert",
          CodeBlock.mk (js "b3") sample_path 1 2 (js "first") (js "txt")) ].
Proof.
  intros cb pre bad post.
  assert (CodeBlock.startLine cb <= 0) as H by by_computation.
  split; [split; [exact H | split; [discriminate|]]|].
  { exact sample_segments_well_formed. }
  destruct (start_line_zero_or_not_a_number simple_join simple_dirname
              simple_extname) as [Hzero Hbad].
  split.
  - apply Hzero; [exact H | discriminate].
  - destruct (Hbad (sample_state 1) pre post bad 0 sample_segments_well_formed)
      as [Hp _].
    change (_outputPath (sample_state 1)) with sample_out in Hp.
    rewrite Hp. vm_compute. reflexivity.
Defined.

(** C10 as it is stated fails for the disk as a whole: a [modify] block on a
    missing target in a missing directory creates the directory. *)
Lemma modify_missing_creates_directory :
  let b := makeCodeBlock simple_join simple_extname sample_out (js "d/a.txt")
             (js "b1") 1 (js "x") in
  let p := CodeBlock.filePath b in
  let fs' :=
    _handleFileModification simple_dirname fresh_disk
      (FileModification.mk p [b] (js "modify")) in
  files fresh_disk !! p = None
  /\ js "out/d" ∈ dirs fs'
  /\ fs' <> fresh_disk.
Proof.
  intros b p fs'.
  assert (js "out/d" ∈ dirs fs') as Hin by by_computation.
  split; [by_computation|]. split; [exact Hin|].
  intros Heq. rewrite Heq in Hin. revert Hin. by_computation.
Qed.

(** C10 as the code has it, on the same input: no file is created, and
    [append] creates the file. *)
Lemma missing_target_sample :
  let b := makeCodeBlock simple_join simple_extname sample_out (js "d/a.txt")
             (js "b1") 1 (js "x") in
  let p := CodeBlock.filePath b in
  (files fresh_disk !! p = None
   /\ js "modify" <> js "append" /\ js "modify" <> js "insert")
  /\ files (_handleFileModification simple_dirname fresh_disk
              (FileModification.mk p [b] (js "modify")))
     = files fresh_disk
  /\ files (_handleFileModification simple_dirname fresh_disk
              (FileModification.mk p [b] (js "append"))) !! p
     = Some (js "x").
Proof.
  intros b p.
  assert (files fresh_disk !! p = None) as H by by_computation.
  split; [split; [exact H | split; discriminate]|].
  destruct (missing_target_not_created simple_join simple_dirname simple_extname
              fresh_disk sample_out (js "d/a.txt") (js "b1") 1 (js "x")
              (js "modify") H)
    as (Hother & Happend & _).
  split; [apply Hother; discriminate | exact Happend].
Defined.

(** ** The further properties on sample inputs *)

(** X2 on the sample text: two matches, two blocks, with the ranges [3,5]
    and [12,13] for a content of two lines and a content of one line. *)
Lemma parse_never_skips_sample :
  let found :=
    parsedBlocks simple_join simple_extname sample_out
      (render sample_lines_segments) in
  length (extractBlocks (render sample_lines_segments)) = 2%nat
  /\ length found = 2%nat
  /\ map (fun parsed =>
            (CodeBlock.startLine (snd parsed), CodeBlock.endLine (snd parsed),
             lineCount (CodeBlock.content (snd parsed)))) found
     = [(3, 5, 2%nat); (12, 13, 1%nat)]
  /\ Forall (fun parsed =>
               CodeBlock.endLine (snd parsed) <= MAX_SAFE_INTEGER
               /\ CodeBlock.endLine (snd parsed) =
                    CodeBlock.startLine (snd parsed)
                    + Z.of_nat (lineCount (CodeBlock.content (snd parsed))))
       found.
Proof.
  intros found.
  destruct (parse_never_skips simple_join simple_extname sample_out
              (render sample_lines_segments)) as (Hlen & Hall).
  fold found in Hlen, Hall.
  assert (length (extractBlocks (render sample_lines_segments)) = 2%nat)
    as H2 by by_computation.
  split; [exact H2|]. split; [by rewrite Hlen|].
  split; [by_computation|].
  assert (Forall (fun parsed =>
                    CodeBlock.endLine (snd parsed) <= MAX_SAFE_INTEGER) found)
    as Hsafe by (repeat constructor; by_computation).
  apply Forall_forall. intros parsed Hin.
  pose proof (proj1 (Forall_forall _ _) Hall parsed Hin) as (_ & Hend & _).
  pose proof (proj1 (Forall_forall _ _) Hsafe parsed Hin) as Hs.
  split; [exact Hs | exact (proj1 (Hend Hs))].
Defined.

(** X4 on the sample text: its blocks write [out/a.txt], and a file at
    another path is not touched. *)
Lemma save_frame_sample :
  let st := sample_state 1 in
  let st' :=
    _saveGeneratedCode simple_join simple_dirname simple_extname st
      (render sample_segments) 0 in
  let targets :=
    map (fun parsed => CodeBlock.filePath (snd parsed))
      (parsedBlocks simple_join simple_extname (_outputPath st)
         (render sample_segments)) in
  (js "out/b.txt" ∉ targets)
  /\ files (disk st') !! js "out/b.txt" = files (disk st) !! js "out/b.txt"
  /\ dirs (disk st) ⊆ dirs (disk st').
Proof.
  intros st st' targets.
  assert (js "out/b.txt" ∉ targets) as H by by_computation.
  split; [exact H|].
  destruct (save_touches_targets_only simple_join simple_dirname simple_extname
              st (render sample_segments) 0 (js "out/b.txt"))
    as (_ & Hd & Hq).
  split; [exact (Hq H) | exact Hd].
Defined.

(** X6 on a text of prose. *)
Lemma no_delimiter_sample :
  has_delimiter (js "No code today.") = false
  /\ _saveGeneratedCode simple_join simple_dirname simple_extname
       (sample_state 1) (js "No code today.") 0
     = sample_state 1.
Proof.
  assert (has_delimiter (js "No code today.") = false) as H by by_computation.
  split; [exact H|].
  exact (no_delimiter_no_change simple_join simple_dirname simple_extname
           (sample_state 1) (js "No code today.") 0 H).
Defined.

(** X7 on the file of ten lines, with a block at line 3 whose content has two
    lines: nine lines after [modify], seven after [delete], twelve after
    [insert]. *)
Lemma parsed_lines_sample :
  let b := makeCodeBlock simple_join simple_extname sample_out (js "a.txt")
             (js "b1") 3 (js "x" ++ [LF] ++ js "y") in
  let after op :=
    currentLines
      (_handleFileModification simple_dirname (sample_fs ten_lines)
         (FileModification.mk sample_path [b] op))
      sample_path in
  0 < 3
  /\ after (js "modify")
     = [js "0"; js "1"; js "x"; js "y"; js "5"; js "6"; js "7"; js "8"; js "9"]
  /\ after (js "delete")
     = [js "0"; js "1"; js "5"; js "6"; js "7"; js "8"; js "9"]
  /\ after (js "insert")
     = [js "0"; js "1"; js "x"; js "y"; js "2"; js "3"; js "4"; js "5";
        js "6"; js "7"; js "8"; js "9"].
Proof.
  intros b after. assert (0 < 3) as H by by_computation.
  split; [exact H|].
  destruct (parsed_block_lines simple_join simple_dirname simple_extname
              (sample_fs ten_lines) sample_out (js "a.txt") (js "b1") 3
              (js "x" ++ [LF] ++ js "y") H)
    as (Hm & Hd & _ & Hi & _).
  split; [|split].
  - etrans; [apply Hm; by_computation | by_computation].
  - etrans; [apply Hd; [by_computation | left; by_computation]
            | by_computation].
  - etrans; [exact Hi | by_computation].
Defined.

(** X25 on a block whose operation is written with a capital letter. *)
Lemma unknown_operation_sample :
  let st := with_disk (sample_fs abc_lines) (sample_state 1) in
  let b := sample_block 1 2 (js "x") in
  let st' := applyParsed simple_dirname st (js "Append", b) in
  (js "Append" <> js "append" /\ js "Append" <> js "modify"
   /\ js "Append" <> js "insert" /\ js "Append" <> js "delete")
  /\ files (disk st') = files (disk st)
  /\ _codeBlocks st' !! js "b1" = Some b.
Proof.
  intros st b st'.
  split; [repeat split; discriminate|].
  destruct (unknown_operation_writes_nothing simple_dirname st (js "Append") b)
    as (Hf & Hb & _); try discriminate.
  by split.
Defined.

(** X8 on two blocks and a missing file. *)
Lemma appends_sample :
  let bs := [sample_block 1 2 (js "a"); sample_block 1 2 (js "b")] in
  let st' :=
    fold_left (applyParsed simple_dirname) (map (pair (js "append")) bs)
      (sample_state 1) in
  (bs <> []
   /\ Forall (fun b => CodeBlock.filePath b = sample_path
                       /\ CodeBlock.content b <> []) bs
   /\ files (disk (sample_state 1)) !! sample_path = None)
  /\ files (disk st') !! sample_path = Some (join_nl [js "a"; js "b"]).
Proof.
  intros bs st'.
  assert (bs <> []) as Hne by discriminate.
  assert (Forall (fun b => CodeBlock.filePath b = sample_path
                           /\ CodeBlock.content b <> []) bs) as Hb
    by (repeat constructor; discriminate).
  assert (files (disk (sample_state 1)) !! sample_path = None) as Hf
    by by_computation.
  split; [by repeat split|].
  destruct (appends_join_contents simple_dirname (sample_state 1) sample_path
              bs Hne Hb) as [Hnew _].
  apply Hnew. by left.
Defined.

(** X9 on a run of three rounds with a service that answers the first
    request only: the review call fails, the error message is shown, and the
    transcript holds the two entries of the generate call. *)
Lemma failed_review_sample :
  let st := sample_state 3 in
  let st' :=
    _startCodeGeneration simple_join simple_dirname simple_extname flaky_chat
      (fun r => r) (js "improve") (fun i => i) (fun r => r)
      (fun a b => a ++ b) st (js "request") in
  1 <= _maxIterations st
  /\ (exists new r,
         requests st' = requests st ++ new ++ [r]
         /\ (forall k r',
               new !! k = Some r' ->
               flaky_chat (length (requests st) + k) (messages r') <> Rejected)
         /\ if errorShown st' then
              flaky_chat (length (requests st) + length new) (messages r)
              = Rejected
              /\ length (_conversationHistory st') = (2 * length new)%nat
            else
              flaky_chat (length (requests st) + length new) (messages r)
              <> Rejected
              /\ length (_conversationHistory st') = (2 * length new + 2)%nat
              /\ _currentIteration st' = _maxIterations st)
  /\ errorShown st' = true
  /\ callKinds st' = [true; false]
  /\ length (_conversationHistory st') = 2%nat.
Proof.
  intros st st'. assert (1 <= _maxIterations st) as H by by_computation.
  split; [exact H|]. split; [|repeat split; by_computation].
  exact (run_stops_at_first_failure simple_join simple_dirname simple_extname
           flaky_chat (fun r => r) (js "improve") (fun i => i) (fun r => r)
           (fun a b => a ++ b) st (js "request") H).
Defined.

(** X11 with a service that fails. *)
Lemma first_call_failure_sample :
  let st := sample_state 3 in
  let first :=
    [Message.mk system (js "request"); Message.mk user (js "request")] in
  let st' :=
    _startCodeGeneration simple_join simple_dirname simple_extname failing_chat
      (fun r => r) (js "improve") (fun i => i) (fun r => r)
      (fun a b => a ++ b) st (js "request") in
  (1 <= _maxIterations st
   /\ failing_chat (length (requests st)) first = Rejected)
  /\ requests st' = requests st ++ [mkRequest true first]
  /\ disk st' = disk st
  /\ _codeBlocks st' = _codeBlocks st
  /\ _conversationHistory st' = []
  /\ _currentIteration st' = 0
  /\ errorShown st' = true.
Proof.
  intros st first st'. assert (1 <= _maxIterations st) as H by by_computation.
  split; [split; [exact H | reflexivity]|].
  exact (first_call_failure simple_join simple_dirname simple_extname
           failing_chat (fun r => r) (js "improve") (fun i => i) (fun r => r)
           (fun a b => a ++ b) st (js "request") H eq_refl).
Defined.

(** X15 on a text with markup. *)
Lemma escapeHtml_injective_sample :
  let s := js "<a href='x'>" in
  let t := LT :: js "a href=" ++ APOS :: js "x" ++ [APOS; GT] in
  _escapeHtml s = _escapeHtml t /\ s = t.
Proof.
  intros s t. assert (_escapeHtml s = _escapeHtml t) as H by by_computation.
  split; [exact H|]. exact (escapeHtml_injective s t H).
Defined.

(** X16 on a text with markup and without a fence. *)
Lemma without_fence_sample :
  has_fence (js "<b>bold</b>") = false
  /\ _formatCodeBlocks (js "<b>bold</b>") = js "<b>bold</b>".
Proof.
  assert (has_fence (js "<b>bold</b>") = false) as H by by_computation.
  split; [exact H|].
  exact (formatCodeBlocks_without_fence (js "<b>bold</b>") H).
Defined.

(** X17 on a text with one fenced code. *)
Lemma fenced_code_sample :
  let pre := js "see " in
  let lang := js "js" in
  let code := js "if (a<b) {}" ++ [LF] in
  let post := js " end" in
  (fence_clean pre /\ Forall (fun c => is_word c = true) lang
   /\ fence_clean code)
  /\ _formatCodeBlocks (pre ++ FENCE ++ lang ++ LF :: code ++ FENCE ++ post) =
       pre ++ codeBlockHtml (Some lang) code ++ _formatCodeBlocks post
  /\ _escapeHtml code = js "if (a&lt;b) {}" ++ [LF].
Proof.
  intros pre lang code post.
  assert (fence_clean pre) as Hp by (split; by_computation).
  assert (Forall (fun c => is_word c = true) lang) as Hw
    by (repeat constructor).
  assert (fence_clean code) as Hc by (split; by_computation).
  split; [by repeat split|]. split; [|by_computation].
  exact (formatCodeBlocks_fenced_code pre lang code post Hp Hw Hc).
Defined.

(** X18 on the transcript of a first round: the answer of the generator and
    the answer of the reviewer have the same label. *)
Lemma labels_sample :
  let st := sample_transcript in
  let label := js "AI 2 - Reviewer" in
  roles (_conversationHistory st) = entry_roles [true; false]
  /\ _formatConversation st =
       join_nl
         [ entryHtml (Message.mk user (js "request")) (js "User");
           entryHtml (Message.mk assistant (js "code")) label;
           entryHtml (Message.mk user []) (js "User");
           entryHtml (Message.mk assistant (js "review")) label ].
Proof.
  intros st label.
  assert (roles (_conversationHistory st) = entry_roles [true; false]) as H
    by reflexivity.
  split; [exact H|].
  etrans; [exact (assistant_entries_are_labelled_reviewer st [true; false] H)|].
  by_computation.
Defined.


(** X20 with a first box that is dismissed, and with a number that is no
    number. *)
Lemma dismissed_inputs_sample :
  let start :=
    startConversation simple_join simple_dirname simple_extname sample_chat
      (fun r => r) (js "improve") (fun i => i) (fun r => r)
      (fun a b => a ++ b) (sample_state 3) in
  truthy_number (parseInt (js "many")) = false
  /\ start (None, Some (js "3")) = sample_state 3
  /\ start (Some (js "request"), Some (js "many")) = sample_state 3.
Proof.
  intros start.
  assert (truthy_number (parseInt (js "many")) = false) as H by by_computation.
  split; [exact H|]. split.
  - apply dismissed_inputs_start_nothing. by left.
  - apply dismissed_inputs_start_nothing. right. right. exact H.
Defined.

(** X21 with a negative number of iterations: the transcript of the panel is
    lost, and no request is sent. *)
Lemma negative_iterations_sample :
  let st := sample_transcript in
  (js "request" <> [] /\ -1 < 0)
  /\ onDidReceiveMessage simple_join simple_dirname simple_extname sample_chat
       (fun r => r) (js "improve") (fun i => i) (fun r => r)
       (fun a b => a ++ b) st
       (WebviewMessage.mk (js "continueConversation") (Some (js "request"))
          (Some (Some (-1))))
       (None, None)
     = (with_history [] (with_iteration 0 (with_maxIterations (-1) st)), None).
Proof.
  intros st.
  assert (js "request" <> []) as Hc by discriminate.
  assert (-1 < 0) as Hn by by_computation.
  split; [by split|].
  destruct (continue_message_guard simple_join simple_dirname simple_extname
              sample_chat (fun r => r) (js "improve") (fun i => i)
              (fun r => r) (fun a b => a ++ b) st (None, None))
    as (_ & _ & Hneg).
  exact (Hneg (js "request") (-1) Hc Hn).
Defined.

Lemma sample_chat_no_blocks (n : nat) (msgs : list Message.t) (t : list N) :
  sample_chat n msgs = Completion (Some t) -> has_delimiter t = false.
Proof. intros [= <-]. reflexivity. Defined.

(** X23 on a run of three rounds whose answers are the text [ok]. *)
Lemma run_without_blocks_sample :
  let st := sample_state 3 in
  let st' :=
    _startCodeGeneration simple_join simple_dirname simple_extname sample_chat
      (fun r => r) (js "improve") (fun i => i) (fun r => r)
      (fun a b => a ++ b) st (js "request") in
  (forall n msgs t,
      sample_chat n msgs = Completion (Some t) -> has_delimiter t = false)
  /\ disk st' = disk st /\ _codeBlocks st' = _codeBlocks st.
Proof.
  intros st st'. split; [exact sample_chat_no_blocks|].
  exact (run_without_blocks_writes_nothing simple_join simple_dirname
           simple_extname sample_chat (fun r => r) (js "improve") (fun i => i)
           (fun r => r) (fun a b => a ++ b) st (js "request")
           sample_chat_no_blocks).
Defined.

(** X24 on the sample text: the run appends [hello] to the new file, then
    inserts [first] before it. *)
Lemma single_round_sample :
  let st := sample_state 1 in
  let st' :=
    _startCodeGeneration simple_join simple_dirname simple_extname blocks_chat
      (fun r => r) (js "improve") (fun i => i) (fun r => r)
      (fun a b => a ++ b) st (js "request") in
  (_maxIterations st = 1 /\ well_formed_text sample_segments
   /\ render sample_segments <> []
   /\ blocks_chat (length (requests st))
        [Message.mk system (js "request"); Message.mk user (js "request")]
      = Completion (Some (render sample_segments)))
  /\ disk st' =
       disk (fold_left (applyParsed simple_dirname)
               (map (block_of simple_join simple_extname (_outputPath st))
                  (blocks_of sample_segments)) st)
  /\ files (disk st') !! sample_path = Some (join_nl [js "first"; js "hello"])
  /\ callKinds st' = [true].
Proof.
  intros st st'.
  assert (render sample_segments <> []) as Hne by by_computation.
  split; [split; [reflexivity|];
          split; [exact sample_segments_well_formed|];
          split; [exact Hne | reflexivity]|].
  destruct (single_round_applies_blocks simple_join simple_dirname
              simple_extname blocks_chat (fun r => r) (js "improve")
              (fun i => i) (fun r => r) (fun a b => a ++ b) st (js "request")
              sample_segments eq_refl sample_segments_well_formed Hne eq_refl)
    as (Hd & _ & Hk & _).
  split; [exact Hd|]. split; [|exact Hk].
  unfold st' at 1. rewrite Hd. by_computation.
Defined.

(** X26 on a run of two rounds whose answers are the text [ok]: the second
    generate call has the instruction to improve as its system prompt, the
    whole transcript, and the text built from the two answers as its user
    message. *)
Lemma responsive_trace_sample :
  let st := sample_state 2 in
  let st' :=
    _startCodeGeneration simple_join simple_dirname simple_extname sample_chat
      (fun r => r) (js "improve") (fun i => i) (fun r => r)
      (fun a b => a ++ b) st (js "request") in
  (responsive sample_chat /\ 1 <= _maxIterations st)
  /\ (exists h new request response,
         full_rounds sample_chat (fun r => r) (js "improve") (fun i => i)
           (fun r => r) (fun a b => a ++ b) (length (requests st))
           (js "request") 1 h new request
         /\ answer
              (sample_chat (length (requests st) + 2 * 1)
                 (generateMessages (fun r => r) (js "improve") (fun i => i)
                    (js "request") 1 h request))
            = Some response
         /\ _conversationHistory st' =
              h ++ [Message.mk user request; Message.mk assistant response]
         /\ requests st' =
              requests st ++ new
                ++ [mkRequest true
                      (generateMessages (fun r => r) (js "improve")
                         (fun i => i) (js "request") 1 h request)])
  /\ last (requests st') =
       Some (mkRequest true
               [ Message.mk system (js "improve");
                 Message.mk user (js "request");
                 Message.mk assistant (js "ok");
                 Message.mk user []; Message.mk assistant (js "ok");
                 Message.mk user (js "okok") ]).
Proof.
  intros st st'. assert (1 <= _maxIterations st) as H by by_computation.
  split; [split; [exact sample_chat_responsive | exact H]|].
  split; [|by_computation].
  exact (responsive_run_trace simple_join simple_dirname simple_extname
           sample_chat (fun r => r) (js "improve") (fun i => i) (fun r => r)
           (fun a b => a ++ b) st (js "request") sample_chat_responsive H).
Defined.
